(** * trace-Lora: the span-graph serializer and the statistical annotator

    A shallow embedding of

    - [parse_trace_and_stats] of [trace_evol.py] and of
      [build_balanced_testset.py] (the two copies of the annotator), and
    - [build_dependency_graph], [generate_sequence], [format_edge] and
      [get_communication_type] of [transform4.py],

    together with the properties of the specification that concern them.

    Conventions of the embedding.

    - A Python [str] is a [list ascii]: a sequence of code points below 256.
      On that range the Unicode tables that the code consults are finite and
      written out below (white space, line boundaries, decimal digits, case
      folding of the letters of the pattern).
    - A Python [int] is a [Z].
    - A Python [float] is a dyadic number [fnum * 2 ^ fexp] produced by an
      explicit round-to-nearest-even to 53 bits; the operations that raise
      ([int / int]) return in the error monad [result].
    - A [datetime] is a [Z]: microseconds since the epoch.
    - A [networkx.DiGraph] is a pair of insertion-ordered association lists,
      as its [_node] and [_pred]/[_succ] dictionaries are. *)

From Stdlib Require Import Ascii String DecimalString DecimalPos DecimalZ.
From Stdlib Require Import ZArith List Bool Lia.
From Stdlib Require Import Permutation Sorted.
Import ListNotations.

Open Scope Z_scope.

(* ===================================================================== *)
(** * Python values *)
(* ===================================================================== *)

(** ** Exceptions and the error monad *)

Inductive exn : Type :=
| OverflowError
| ZeroDivisionError
| ValueError
| IndexError
| KeyError
| RuntimeError
| OutOfFuel.  (* no exception of Python: a bounded loop of the model ran out *)

Definition result (A : Type) : Type := (exn + A)%type.

Definition ret {A} (a : A) : result A := inr a.
Definition raise {A} (e : exn) : result A := inl e.
Definition bind {A B} (m : result A) (k : A -> result B) : result B :=
  match m with
  | inl e => inl e
  | inr a => k a
  end.

Notation "x <- m ;; k" := (bind m (fun x => k))
  (at level 61, m at next level, right associativity).
Notation "' pat <- m ;; k" :=
  (bind m (fun x => match x with pat => k end))
  (at level 61, pat pattern, m at next level, right associativity).

(** ** Strings *)

Definition str : Type := list ascii.

Definition lit (s : string) : str := list_ascii_of_string s.

Definition code (c : ascii) : Z := Z.of_N (N_of_ascii c).

Definition in_range (lo hi : Z) (c : ascii) : bool :=
  (lo <=? code c) && (code c <=? hi).

(** [str.isspace] and the class [\s]: U+0009..U+000D, U+001C..U+001F,
    U+0020, U+0085 and U+00A0 are the white space below U+0100. *)
Definition isspace (c : ascii) : bool :=
  in_range 9 13 c || in_range 28 31 c || (code c =? 32)
  || (code c =? 133) || (code c =? 160).

(** Line boundaries of [str.splitlines]: U+000A..U+000D, U+001C..U+001E and
    U+0085 (U+2028 and U+2029 lie outside the range). *)
Definition islinebreak (c : ascii) : bool :=
  in_range 10 13 c || in_range 28 30 c || (code c =? 133).

(** The class [\d]: the decimal digits below U+0100 are 0..9. *)
Definition isdigit (c : ascii) : bool := in_range 48 57 c.

(** [.] without DOTALL: anything but a line feed. *)
Definition isdot (c : ascii) : bool := negb (code c =? 10).

(** Simple lower-casing, as the regex engine applies it under IGNORECASE. *)
Definition lower (c : ascii) : ascii :=
  if in_range 65 90 c || (in_range 192 222 c && negb (code c =? 215))
  then ascii_of_N (N_of_ascii c + 32)
  else c.

Definition eqb_str (a b : str) : bool :=
  if list_eq_dec ascii_dec a b then true else false.

(** [s.startswith(p)] *)
Fixpoint startswith (s p : str) {struct p} : bool :=
  match p, s with
  | [], _ => true
  | _ :: _, [] => false
  | a :: p', b :: s' => Ascii.eqb a b && startswith s' p'
  end.

(** [s.endswith(p)] *)
Definition endswith (s p : str) : bool := startswith (rev s) (rev p).

(** [p in s] *)
Fixpoint contains (s p : str) : bool :=
  startswith s p ||
  match s with
  | [] => false
  | _ :: s' => contains s' p
  end.

(** [s.lstrip()], [s.rstrip()], [s.strip()] *)
Fixpoint lstrip (s : str) : str :=
  match s with
  | c :: s' => if isspace c then lstrip s' else s
  | [] => []
  end.

Definition rstrip (s : str) : str := rev (lstrip (rev s)).

Definition strip (s : str) : str := rstrip (lstrip s).

(** Truth value of a string or of a list: non-empty. *)
Definition nonempty {A} (s : list A) : bool :=
  match s with [] => false | _ :: _ => true end.

(** [s[:-k]] for a positive [k]: everything but the last [k] characters,
    the empty string when there are fewer. *)
Definition drop_last (k : nat) (s : str) : str :=
  firstn (length s - k) s.

(** [s.splitlines()]: a CR immediately followed by LF is one boundary, and no
    empty line is produced after a final boundary. *)
Fixpoint splitlines (s : str) : list str :=
  match s with
  | [] => []
  | c :: rest =>
      if islinebreak c then
        [] :: match rest with
              | d :: rest' =>
                  if (code c =? 13) && (code d =? 10)
                  then splitlines rest' else splitlines rest
              | [] => []
              end
      else
        match splitlines rest with
        | [] => [[c]]
        | l :: ls => (c :: l) :: ls
        end
  end.

(** [sep.join(ls)] *)
Fixpoint join (sep : str) (ls : list str) : str :=
  match ls with
  | [] => []
  | [l] => l
  | l :: ls' => l ++ sep ++ join sep ls'
  end.

(** [int(s)] on a run of decimal digits. *)
Definition digit_val (c : ascii) : Z := code c - 48.

Definition int_of_str (s : str) : Z :=
  fold_left (fun acc c => 10 * acc + digit_val c) s 0.

(** [str(n)], also what an f-string prints for an [int]. *)
Definition str_of_int (n : Z) : str :=
  lit (NilZero.string_of_int (Z.to_int n)).

(* ===================================================================== *)
(** * Regular expressions *)
(* ===================================================================== *)

(** The fragment of [re] that [START_FINISH_RE] uses, with the matching
    order of a backtracking engine: a greedy repetition tries the longest run
    first, a lazy one the shortest, and [search] tries the start positions
    from left to right and keeps the first match. *)

Module Re.

Inductive regex : Type :=
| Eps                                     (* the empty pattern *)
| Chr (p : ascii -> bool)                 (* one character of a class *)
| Rep (p : ascii -> bool) (greedy : bool) (* [p*] and [p*?] *)
| Cat (r1 r2 : regex)
| Cap (r : regex).                        (* a capturing group *)

Section Matcher.
Context {A : Type}.

Fixpoint rep_greedy (p : ascii -> bool) (s : str)
    (k : str -> option A) : option A :=
  match s with
  | c :: s' =>
      if p c then
        match rep_greedy p s' k with
        | Some a => Some a
        | None => k s
        end
      else k s
  | [] => k []
  end.

Fixpoint rep_lazy (p : ascii -> bool) (s : str)
    (k : str -> option A) : option A :=
  match k s with
  | Some a => Some a
  | None =>
      match s with
      | c :: s' => if p c then rep_lazy p s' k else None
      | [] => None
      end
  end.

(** [exec r s gs k]: match [r] at the head of [s]; [gs] are the groups
    closed so far and [k] is what remains to be matched. *)
Fixpoint exec (r : regex) (s : str) (gs : list str)
    (k : str -> list str -> option A) : option A :=
  match r with
  | Eps => k s gs
  | Chr p =>
      match s with
      | c :: s' => if p c then k s' gs else None
      | [] => None
      end
  | Rep p true => rep_greedy p s (fun s' => k s' gs)
  | Rep p false => rep_lazy p s (fun s' => k s' gs)
  | Cat r1 r2 => exec r1 s gs (fun s1 gs1 => exec r2 s1 gs1 k)
  | Cap r1 =>
      exec r1 s gs
        (fun s1 gs1 =>
           k s1 (gs1 ++ [firstn (length s - length s1) s]))
  end.
End Matcher.

(** [r.search(s)]: the groups of the leftmost match. *)
Fixpoint search (r : regex) (s : str) : option (list str) :=
  match exec r s [] (fun _ gs => Some gs) with
  | Some gs => Some gs
  | None =>
      match s with
      | [] => None
      | _ :: s' => search r s'
      end
  end.

(** Pattern syntax. *)
Fixpoint concat (rs : list regex) : regex :=
  match rs with
  | [] => Eps
  | r :: rs' => Cat r (concat rs')
  end.

(** A literal character under IGNORECASE. *)
Definition ichar (c : ascii) : regex :=
  Chr (fun d => Ascii.eqb (lower d) (lower c)).

Definition iword (w : string) : list regex := map ichar (lit w).

Definition star (p : ascii -> bool) : regex := Rep p true.
Definition plus (p : ascii -> bool) : regex := Cat (Chr p) (Rep p true).
Definition lazy_star (p : ascii -> bool) : regex := Rep p false.

End Re.

(** [re.compile(r"starts\s+at\s*(\d+)\s*ms.*?finishes\s+at\s*(\d+)\s*ms",
    re.IGNORECASE)] *)
Definition START_FINISH_RE : Re.regex :=
  Re.concat
    (Re.iword "starts" ++ [Re.plus isspace] ++ Re.iword "at"
     ++ [Re.star isspace; Re.Cap (Re.plus isdigit); Re.star isspace]
     ++ Re.iword "ms"
     ++ [Re.lazy_star isdot]
     ++ Re.iword "finishes" ++ [Re.plus isspace] ++ Re.iword "at"
     ++ [Re.star isspace; Re.Cap (Re.plus isdigit); Re.star isspace]
     ++ Re.iword "ms").

(* ===================================================================== *)
(** * Binary64 arithmetic *)
(* ===================================================================== *)

(** A finite [float] is [fnum * 2 ^ fexp].  [round a b] is the binary64
    nearest to the rational [a / b], ties to even: 53 bits for a normal
    number, a multiple of [2 ^ -1074] below [2 ^ -1022].  The exponent is
    not bounded above here; [finite] tells whether the value is below
    [2 ^ 1024], and the operations that raise on overflow test it. *)

Module Float.

Record float : Type := mk { fnum : Z; fexp : Z }.

Definition zero : float := mk 0 0.

(** [x / y] rounded to the nearest integer, ties to even ([0 <= x],
    [0 < y]). *)
Definition rne (x y : Z) : Z :=
  let q := x / y in
  match 2 * (x mod y) ?= y with
  | Lt => q
  | Gt => q + 1
  | Eq => if Z.even q then q else q + 1
  end.

(** [2 ^ d <= a / b] *)
Definition pow2_le (d a b : Z) : bool :=
  if 0 <=? d then b * 2 ^ d <=? a else b <=? a * 2 ^ (- d).

(** [floor (log2 (a / b))] for positive [a] and [b]. *)
Definition ilog2 (a b : Z) : Z :=
  let d := Z.log2 a - Z.log2 b in
  if pow2_le d a b then d else d - 1.

Definition emin : Z := -1074.

Definition round_pos (a b : Z) : float :=
  let e := Z.max (ilog2 a b - 52) emin in
  mk (if 0 <=? e then rne a (b * 2 ^ e) else rne (a * 2 ^ (- e)) b) e.

(** The binary64 nearest to [a / b], for [0 < b]. *)
Definition round (a b : Z) : float :=
  if a =? 0 then zero
  else
    let f := round_pos (Z.abs a) b in
    mk (Z.sgn a * fnum f) (fexp f).

Definition finite (x : float) : bool :=
  if 0 <=? fexp x then Z.abs (fnum x) * 2 ^ fexp x <? 2 ^ 1024 else true.

(** [a / b] on two [int]s: correctly rounded, [ZeroDivisionError] on a zero
    divisor, [OverflowError] when the quotient rounds to no finite
    binary64. *)
Definition true_div (a b : Z) : result float :=
  if b =? 0 then raise ZeroDivisionError
  else
    let x := round (a * Z.sgn b) (Z.abs b) in
    if finite x then ret x else raise OverflowError.

(** [float(n)] for the length of a list, which is below [2 ^ 63]. *)
Definition of_len (n : nat) : float := round (Z.of_nat n) 1.

(** [x * y], correctly rounded. *)
Definition mul (x y : float) : float :=
  let m := fnum x * fnum y in
  let e := fexp x + fexp y in
  if 0 <=? e then round (m * 2 ^ e) 1 else round m (2 ^ (- e)).

(** [math.ceil(x)] *)
Definition ceil (x : float) : Z :=
  if 0 <=? fexp x then fnum x * 2 ^ fexp x
  else - ((- fnum x) / 2 ^ (- fexp x)).

(** [int(x)]: truncation towards zero. *)
Definition trunc (x : float) : Z :=
  if 0 <=? fexp x then fnum x * 2 ^ fexp x
  else Z.quot (fnum x) (2 ^ (- fexp x)).

(** [n < x] and [x <= n] for an [int] [n]: exact comparisons. *)
Definition int_ltb (n : Z) (x : float) : bool :=
  if 0 <=? fexp x then n <? fnum x * 2 ^ fexp x
  else n * 2 ^ (- fexp x) <? fnum x.

Definition leb_int (x : float) (n : Z) : bool :=
  if 0 <=? fexp x then fnum x * 2 ^ fexp x <=? n
  else fnum x <=? n * 2 ^ (- fexp x).

(** The literal [0.95]. *)
Definition lit_0_95 : float := round 95 100.

End Float.

(* ===================================================================== *)
(** * Lists of integers *)
(* ===================================================================== *)

Definition len {A} (l : list A) : Z := Z.of_nat (length l).

(** [sum(l)] *)
Definition sum (l : list Z) : Z := fold_left Z.add l 0.

(** [max(l)]: [ValueError] on an empty list. *)
Definition py_max (l : list Z) : result Z :=
  match l with
  | [] => raise ValueError
  | x :: l' => ret (fold_left Z.max l' x)
  end.

(** [l.index(x)]: position of the first occurrence, [ValueError] if none. *)
Fixpoint index_from (i : Z) (l : list Z) (x : Z) : result Z :=
  match l with
  | [] => raise ValueError
  | y :: l' => if y =? x then ret i else index_from (i + 1) l' x
  end.

Definition py_index (l : list Z) (x : Z) : result Z := index_from 0 l x.

(** [l[i]]: a negative index counts from the end, [IndexError] outside. *)
Definition getitem (l : list Z) (i : Z) : result Z :=
  let j := if i <? 0 then i + len l else i in
  if (0 <=? j) && (j <? len l) then ret (nth (Z.to_nat j) l 0)
  else raise IndexError.

(** [sorted(l, key=key)]: a stable sort, here by insertion. *)
Section Sorted.
Context {A : Type} (key : A -> Z).

Fixpoint insert (x : A) (l : list A) : list A :=
  match l with
  | [] => [x]
  | y :: l' => if key x <=? key y then x :: l else y :: insert x l'
  end.

Fixpoint sorted (l : list A) : list A :=
  match l with
  | [] => []
  | x :: l' => insert x (sorted l')
  end.
End Sorted.

(* ===================================================================== *)
(** * The statistical annotator *)
(* ===================================================================== *)

(** ** The scan of the lines (the same text in both files) *)

Record scan_state : Type := mkScan {
  durations : list Z;
  earliest : option Z;
  latest : option Z;
  ann_lines : list str
}.

Definition scan_init : scan_state := mkScan [] None None [].

(** [line.startswith('[') and 'starts at' in line and 'finishes at' in line] *)
Definition is_edge_line (line : str) : bool :=
  startswith line (lit "[")
  && contains line (lit "starts at")
  && contains line (lit "finishes at").

(** [m.group(i)] *)
Definition group (m : list str) (i : nat) : str := nth (i - 1) m [].

(** The three ways a matched line is rewritten. *)
Definition rewrite_line (line : str) (dur : Z) : str :=
  if endswith (rstrip line) (lit "].") then
    drop_last 2 line ++ lit ", duration=" ++ str_of_int dur ++ lit " ms]."
  else if endswith (rstrip line) (lit "]") then
    drop_last 1 line ++ lit ", duration=" ++ str_of_int dur ++ lit " ms]"
  else
    line ++ lit " (duration=" ++ str_of_int dur ++ lit " ms)".

(** The start and finish values of a line, when it is an edge line on which
    the pattern is found. *)
Definition match_line (line : str) : option (Z * Z) :=
  if is_edge_line line then
    match Re.search START_FINISH_RE line with
    | Some m => Some (int_of_str (group m 1), int_of_str (group m 2))
    | None => None
    end
  else None.

(** One iteration of [for raw in ...]. *)
Definition scan_line (st : scan_state) (raw : str) : scan_state :=
  let line := raw in
  match match_line line with
  | Some (s, f) =>
      let dur := Z.max 0 (f - s) in
      mkScan (durations st ++ [dur])
        (Some (match earliest st with None => s | Some e => Z.min e s end))
        (Some (match latest st with None => f | Some l => Z.max l f end))
        (ann_lines st ++ [rewrite_line line dur])
  | None =>
      mkScan (durations st) (earliest st) (latest st) (ann_lines st ++ [line])
  end.

Definition scan (lines : list str) : scan_state :=
  fold_left scan_line lines scan_init.

(** ** The aggregates *)

Record features : Type := mkFeatures {
  num_edges : Z;
  total_latency_ms : Z;
  max_edge_latency_ms : Z;
  mean_edge_latency_ms : Z;
  p95_edge_latency_ms : Z;
  max_edge_ratio : Float.float;
  bottleneck_index : Z
}.

(** [max(0, min(len(vs)-1, math.ceil(0.95 * len(vs)) - 1)) if vs else 0] *)
Definition p95_index (vs : list Z) : Z :=
  match vs with
  | [] => 0
  | _ :: _ =>
      Z.max 0
        (Z.min (len vs - 1)
           (Float.ceil (Float.mul Float.lit_0_95 (Float.of_len (length vs)))
            - 1))
  end.

(** The statements from [mx = ...] to [b_idx = ...], in their order. *)
Definition aggregate (durations : list Z) (total : Z) : result features :=
  let num_edges := len durations in
  mx <- (if nonempty durations then py_max durations else ret 0) ;;
  avg <- (if nonempty durations
          then x <- Float.true_div (sum durations) (len durations) ;;
               ret (Float.trunc x)
          else ret 0) ;;
  let vs := sorted (fun d => d) durations in
  let idx := p95_index vs in
  p95 <- (if nonempty vs then getitem vs idx else ret 0) ;;
  max_ratio <- (if 0 <? total then Float.true_div mx total
                else ret Float.zero) ;;
  b_idx <- (if nonempty durations then py_index durations mx else ret (-1)) ;;
  ret (mkFeatures num_edges total mx avg p95 max_ratio b_idx).

(** The local variables at the end of the function: the features, the
    durations in encounter order and the annotated lines. *)
Record annotation : Type := mkAnnotation {
  stats : features;
  edge_durations : list Z;
  lines_out : list str
}.

(** Truth value of an optional [int]: [None] and [0] are false. *)
Definition truthy (o : option Z) : bool :=
  match o with
  | None => false
  | Some v => negb (v =? 0)
  end.

Definition nl : ascii := "010"%char.

(** [f"{x:.4f}"] for a non-negative [x]: the decimal with four places nearest
    to [x], ties to even. *)
Definition format_4f (x : Float.float) : str :=
  let r := if 0 <=? Float.fexp x
           then Float.fnum x * 10000 * 2 ^ Float.fexp x
           else Float.rne (Float.fnum x * 10000) (2 ^ (- Float.fexp x)) in
  let frac := str_of_int (r mod 10000) in
  str_of_int (r / 10000) ++ lit "."
  ++ repeat "0"%char (4 - length frac) ++ frac.

(** The seven [key=value] lines under the title, each with its line feed.
    The five characters of the title lie above U+00FF; the literal keeps
    them as the bytes of their UTF-8 encoding. *)
Definition header (fs : features) : str :=
  lit "# 统计特征" ++ [nl]
  ++ lit "num_edges=" ++ str_of_int (num_edges fs) ++ [nl]
  ++ lit "total_latency_ms=" ++ str_of_int (total_latency_ms fs) ++ [nl]
  ++ lit "max_edge_latency_ms=" ++ str_of_int (max_edge_latency_ms fs) ++ [nl]
  ++ lit "mean_edge_latency_ms=" ++ str_of_int (mean_edge_latency_ms fs) ++ [nl]
  ++ lit "p95_edge_latency_ms=" ++ str_of_int (p95_edge_latency_ms fs) ++ [nl]
  ++ lit "max_edge_ratio=" ++ format_4f (max_edge_ratio fs) ++ [nl]
  ++ lit "bottleneck_index=" ++ str_of_int (bottleneck_index fs) ++ [nl].

(** ** [trace_evol.py] *)

Module TraceEvol.

(** [max(0, latest - earliest) if (earliest and latest and
    latest >= earliest) else sum(durations)] *)
Definition total (st : scan_state) : Z :=
  match earliest st, latest st with
  | Some e, Some l =>
      if truthy (Some e) && truthy (Some l) && (e <=? l)
      then Z.max 0 (l - e)
      else sum (durations st)
  | _, _ => sum (durations st)
  end.

(** The body of the function from the loop down to [b_idx = ...]. *)
Definition annotate_lines (lines : list str) : result annotation :=
  let st := scan lines in
  fs <- aggregate (durations st) (total st) ;;
  ret (mkAnnotation fs (durations st) (ann_lines st)).

Definition annotate (txt : str) : result annotation :=
  annotate_lines (splitlines txt).

(** The dictionary that is returned. *)
Record trace_stats : Type := mkTraceStats {
  d_durations : list Z;
  d_max_edge : Z;
  d_bottleneck_index : Z;
  d_max_edge_ratio : Float.float;
  d_cooked_user : str;
  d_num_edges : Z;
  d_total_latency_ms : Z
}.

Definition parse_trace_and_stats (txt : str) : result trace_stats :=
  a <- annotate txt ;;
  let cooked_input := (header (stats a) ++ [nl]) ++ join [nl] (lines_out a) in
  ret (mkTraceStats (edge_durations a)
         (max_edge_latency_ms (stats a))
         (bottleneck_index (stats a))
         (max_edge_ratio (stats a))
         cooked_input
         (num_edges (stats a))
         (total_latency_ms (stats a))).

End TraceEvol.

(** ** [build_balanced_testset.py] *)

Module BalancedTestset.

(** [max(0, latest - earliest) if (earliest is not None and latest is not
    None and latest >= earliest) else sum(durations)] *)
Definition total (st : scan_state) : Z :=
  match earliest st, latest st with
  | Some e, Some l =>
      if e <=? l then Z.max 0 (l - e) else sum (durations st)
  | _, _ => sum (durations st)
  end.

(** [[l for l in txt.splitlines() if l.strip()]] *)
Definition kept_lines (txt : str) : list str :=
  filter (fun l => nonempty (strip l)) (splitlines txt).

(** The body of the function from the loop down to [b_idx = ...]. *)
Definition annotate_lines (lines : list str) : result annotation :=
  let st := scan lines in
  fs <- aggregate (durations st) (total st) ;;
  ret (mkAnnotation fs (durations st) (ann_lines st)).

Definition annotate (txt : str) : result annotation :=
  annotate_lines (kept_lines txt).

(** The text that is returned. *)
Definition parse_trace_and_stats (txt : str) : result str :=
  a <- annotate txt ;;
  ret (header (stats a) ++ [nl] ++ join [nl] (lines_out a)).

End BalancedTestset.

(* ===================================================================== *)
(** * Spans and the dependency graph ([transform4.py]) *)
(* ===================================================================== *)

(** The fields of the dataclass that the three functions read.  An identifier
    or an operation name that is [None] is [None] here. *)
Record Span : Type := mkSpan {
  span_id : str;
  parent_span_id : option str;
  start_time : Z;                 (* microseconds *)
  service_name : str;
  operation_name : option str
}.

(** ** [networkx.DiGraph] *)

Inductive edge_type : Type := parent | time.

(** [_node]: node to attribute dictionary, here the value under ['span'] when
    there is one; [_succ]/[_pred]: the edges with their ['type'], in the order
    in which they were first added. *)
Record DiGraph : Type := mkGraph {
  nodes : list (str * option Span);
  edges : list ((str * str) * edge_type)
}.

Definition empty_graph : DiGraph := mkGraph [] [].

Definition node_ids (g : DiGraph) : list str := map fst (nodes g).

(** [n in graph.nodes] *)
Definition has_node (g : DiGraph) (n : str) : bool :=
  existsb (eqb_str n) (node_ids g).

Definition eqb_edge (e e' : str * str) : bool :=
  eqb_str (fst e) (fst e') && eqb_str (snd e) (snd e').

(** Assignment to a key of a dictionary: in place when the key is there, at
    the end otherwise. *)
Fixpoint dict_set {K V} (eqb : K -> K -> bool) (d : list (K * V))
    (k : K) (v : V) : list (K * V) :=
  match d with
  | [] => [(k, v)]
  | (k', v') :: d' =>
      if eqb k k' then (k, v) :: d' else (k', v') :: dict_set eqb d' k v
  end.

Fixpoint dict_get {K V} (eqb : K -> K -> bool) (d : list (K * V))
    (k : K) : option V :=
  match d with
  | [] => None
  | (k', v') :: d' => if eqb k k' then Some v' else dict_get eqb d' k
  end.

(** [graph.add_node(n, span=sp)] *)
Definition add_node (g : DiGraph) (n : str) (sp : Span) : DiGraph :=
  mkGraph (dict_set eqb_str (nodes g) n (Some sp)) (edges g).

(** A node that [add_edge] meets for the first time gets no attribute. *)
Definition touch_node (ns : list (str * option Span)) (n : str)
  : list (str * option Span) :=
  if existsb (eqb_str n) (map fst ns) then ns else ns ++ [(n, None)].

(** [graph.add_edge(u, v, type=t)] *)
Definition add_edge (g : DiGraph) (u v : str) (t : edge_type) : DiGraph :=
  mkGraph (touch_node (touch_node (nodes g) u) v)
          (dict_set eqb_edge (edges g) (u, v) t).

(** [graph.predecessors(n)] and [graph.successors(n)], in dictionary order. *)
Definition predecessors (g : DiGraph) (n : str) : list str :=
  map (fun e => fst (fst e))
      (filter (fun e => eqb_str (snd (fst e)) n) (edges g)).

Definition successors (g : DiGraph) (n : str) : list str :=
  map (fun e => snd (fst e))
      (filter (fun e => eqb_str (fst (fst e)) n) (edges g)).


(** ** [networkx.topological_sort] *)

(** Kahn's algorithm by generations.  [indegree_map] holds the nodes that
    still wait for a predecessor; a generation is the list of the nodes whose
    count has just reached zero, in the order in which it did.  [None] is
    [NetworkXUnfeasible]. *)
Module Topo.

Definition in_degree (g : DiGraph) (n : str) : Z := len (predecessors g n).

Definition indegree_map (g : DiGraph) : list (str * Z) :=
  filter (fun vd => 0 <? snd vd)
         (map (fun n => (n, in_degree g n)) (node_ids g)).

Definition zero_indegree (g : DiGraph) : list str :=
  filter (fun n => in_degree g n =? 0) (node_ids g).

Fixpoint dict_del (d : list (str * Z)) (k : str) : list (str * Z) :=
  match d with
  | [] => []
  | (k', v) :: d' => if eqb_str k k' then d' else (k', v) :: dict_del d' k
  end.

(** [indegree_map[child] -= 1], then the move to [zero_indegree] when the
    count is zero.  A child that is not in the map is the library's
    [RuntimeError]. *)
Definition visit_child (st : result (list (str * Z) * list str))
    (child : str) : result (list (str * Z) * list str) :=
  '(im, zero) <- st ;;
  match dict_get eqb_str im child with
  | None => raise RuntimeError
  | Some d =>
      if d - 1 =? 0 then ret (dict_del im child, zero ++ [child])
      else ret (dict_set eqb_str im child (d - 1), zero)
  end.

(** [for node in this_generation: for child in G.neighbors(node): ...] *)
Definition visit_generation (g : DiGraph) (im : list (str * Z))
    (this_generation : list str) : result (list (str * Z) * list str) :=
  fold_left visit_child (flat_map (successors g) this_generation)
            (ret (im, [])).

(** The [while zero_indegree] loop; [fuel] bounds the number of
    generations. *)
Fixpoint generations (fuel : nat) (g : DiGraph) (im : list (str * Z))
    (zero : list str) : result (option (list (list str))) :=
  match zero with
  | [] => ret (if nonempty im then None else Some [])
  | _ :: _ =>
      match fuel with
      | O => raise OutOfFuel
      | S fuel' =>
          '(im', zero') <- visit_generation g im zero ;;
          rest <- generations fuel' g im' zero' ;;
          ret (match rest with
               | Some gens => Some (zero :: gens)
               | None => None
               end)
      end
  end.

(** [list(nx.topological_sort(g))]: [ret None] stands for
    [NetworkXUnfeasible], which the caller catches. *)
Definition topological_sort (g : DiGraph) : result (option (list str)) :=
  r <- generations (length (nodes g)) g (indegree_map g) (zero_indegree g) ;;
  ret (match r with
       | Some gens => Some (List.concat gens)
       | None => None
       end).

End Topo.

(** ** [get_communication_type] *)

(** [s.upper()] and [s.lower()] on the letters that the tests look for; the
    sharp s upper-cases to two letters. *)
Definition upper_char (c : ascii) : str :=
  if in_range 97 122 c then [ascii_of_N (N_of_ascii c - 32)]
  else if code c =? 223 then lit "SS"
  else [c].

Definition upper (s : str) : str := flat_map upper_char s.

Definition lower_str (s : str) : str := map lower s.

Definition get_communication_type (operation_name : option str) : str :=
  match operation_name with
  | None => lit "UNKNOWN"
  | Some op =>
      if contains (upper op) (lit "HTTP") then lit "HTTP"
      else if contains (lower_str op) (lit "grpc") then lit "GRPC"
      else if contains (upper op) (lit "DB") || contains (upper op) (lit "SQL")
      then lit "DATABASE"
      else lit "RPC"
  end.

(** ** [format_edge] *)

(** The fields of the rendered record.  The two timing fields go through
    [datetime.timestamp()] and are left out: no property below reads them. *)
Record EdgeRecord : Type := mkEdgeRecord {
  edge_id : str;
  source : str;
  destination : str;
  communication_type : str
}.


(** ** [build_dependency_graph] *)

(** [(b - a).total_seconds()]: the microseconds divided by [10 ** 6]. *)
Definition total_seconds (microseconds : Z) : Float.float :=
  Float.round microseconds 1000000.

(** [0 < time_gap <= 2] *)
Definition related (current_span next_span : Span) : bool :=
  let time_gap := total_seconds (start_time next_span - start_time current_span) in
  Float.int_ltb 0 time_gap && Float.leb_int time_gap 2.

(** [span.parent_span_id and span.parent_span_id in graph.nodes] *)
Definition parent_known (g : DiGraph) (span : Span) : bool :=
  match parent_span_id span with
  | None => false
  | Some p => nonempty p && has_node g p
  end.

Definition add_span_node (g : DiGraph) (span : Span) : DiGraph :=
  add_node g (span_id span) span.

Definition add_parent_edge (g : DiGraph) (span : Span) : DiGraph :=
  match parent_span_id span with
  | Some p =>
      if parent_known g span then add_edge g p (span_id span) parent else g
  | None => g
  end.

(** The loop over [range(len(sorted_spans) - 1)]. *)
Fixpoint add_time_edges (g : DiGraph) (sorted_spans : list Span) : DiGraph :=
  match sorted_spans with
  | current_span :: ((next_span :: _) as rest) =>
      add_time_edges
        (if related current_span next_span
         then add_edge g (span_id current_span) (span_id next_span) time
         else g)
        rest
  | _ => g
  end.

Definition build_dependency_graph (spans : list Span) : DiGraph :=
  let g0 := fold_left add_span_node spans empty_graph in
  let g1 := fold_left add_parent_edge spans g0 in
  add_time_edges g1 (sorted start_time spans).

(** ** [generate_sequence] *)




(** ** [extract_spans] *)

(** A [Span] object with its [children_span_list]; the record [Span] holds
    the scalar fields. *)
Inductive SpanTree : Type :=
| SpanNode (fields : Span) (children_span_list : list SpanTree).

Definition fields (t : SpanTree) : Span :=
  match t with SpanNode s _ => s end.

Definition children_span_list (t : SpanTree) : list SpanTree :=
  match t with SpanNode _ cs => cs end.

(** [spans] is the list that the calls share: [None] is the default of the
    outermost call, and the list that a call returns is the one it was given,
    extended in place. *)
Fixpoint extract_spans (span : SpanTree) (spans : option (list SpanTree))
  : list SpanTree :=
  let spans := match spans with None => [] | Some l => l end in
  match span with
  | SpanNode _ children =>
      fold_left
        (fun spans child_span => extract_spans child_span (Some spans))
        children (spans ++ [span])
  end.

(** ** The text of an edge ([format_edge], continued) *)



(** The f-string of the [return]. *)
Definition edge_text (r : EdgeRecord) (start_time finish_time : Z) : str :=
  lit "[Edge ID is " ++ edge_id r
  ++ lit ", Source is " ++ source r
  ++ lit ", Destination is " ++ destination r
  ++ lit ", Type is " ++ communication_type r
  ++ lit ", Communication starts at " ++ str_of_int start_time
  ++ lit " ms, Communication finishes at " ++ str_of_int finish_time
  ++ lit " ms].".


(** ** [main] of [transform4.py] *)

(** What the five [f.write] calls put in the file of one trace. *)
Definition trace_file (trace_id : str) (sequence_lines : list str) : str :=
  (lit "Trace ID is " ++ trace_id ++ [nl])
  ++ (lit "<Trace Sequence>" ++ [nl])
  ++ flat_map (fun line => line ++ [nl]) sequence_lines
  ++ (lit "</Trace Sequence>" ++ [nl])
  ++ (repeat "="%char 80 ++ [nl]).

(** ** [build_sharegpt] ([trace_evol.py]) *)

(** The texts of this function are Chinese; as in [header], a literal keeps
    the characters above U+00FF as the bytes of their UTF-8 encoding, on
    which equality, concatenation and the search of one literal in another
    are those of the strings. *)

Definition QUESTION_POOL : list str :=
  [lit "请判断该调用链是否异常，只输出“正常”或“异常”。";
   lit "根据统计特征与调用序列，判断该请求是否异常（仅输出两个字）。";
   lit "请依据瓶颈与延迟特征，判断是否异常（正常/异常）。";
   lit "只输出分类结果：正常 或 异常。";
   lit "判断：正常 还是 异常？（不要输出其它内容）"].

(** [x < y] on two [float]s: the two dyadic numbers compared exactly. *)
Definition float_ltb (x y : Float.float) : bool :=
  let e := Z.min (Float.fexp x) (Float.fexp y) in
  Float.fnum x * 2 ^ (Float.fexp x - e)
  <? Float.fnum y * 2 ^ (Float.fexp y - e).

(** The literals [0.9] and [0.5]. *)
Definition lit_0_9 : Float.float := Float.round 9 10.
Definition lit_0_5 : Float.float := Float.round 1 2.

(** [f"{x:.1f}"] for a non-negative [x]: the decimal with one place nearest
    to [x], ties to even. *)
Definition format_1f (x : Float.float) : str :=
  let r := if 0 <=? Float.fexp x
           then Float.fnum x * 10 * 2 ^ Float.fexp x
           else Float.rne (Float.fnum x * 10) (2 ^ (- Float.fexp x)) in
  str_of_int (r / 10) ++ lit "." ++ str_of_int (r mod 10).

(** [f"{ratio*100:.1f}"] *)
Definition percent (ratio : Float.float) : str :=
  format_1f (Float.mul ratio (Float.round 100 1)).

Record message : Type := mkMessage { from : str; value : str }.

Record sharegpt : Type := mkShareGPT { conversations : list message }.

Definition analysis_len (st : TraceEvol.trace_stats) : str :=
  if TraceEvol.d_num_edges st <=? 2
  then lit "链路节点数 num_edges=" ++ str_of_int (TraceEvol.d_num_edges st)
       ++ lit "，链路过短。"
  else lit "链路节点数 num_edges=" ++ str_of_int (TraceEvol.d_num_edges st)
       ++ lit "，结构完整。".

Definition analysis_ratio (st : TraceEvol.trace_stats) : str :=
  let ratio := TraceEvol.d_max_edge_ratio st in
  if float_ltb lit_0_9 ratio
  then lit "发现第 " ++ str_of_int (TraceEvol.d_bottleneck_index st)
       ++ lit " 条调用耗时占比高达 " ++ percent ratio
       ++ lit "%，存在显著的单点耗时。"
  else if float_ltb lit_0_5 ratio
  then lit "存在主要耗时节点，占比 " ++ percent ratio ++ lit "%。"
  else lit "各节点耗时分布相对均匀。".

(** The text of the assistant, from [if label == ...] on. *)
Definition explanation (st : TraceEvol.trace_stats) (label : str) : str :=
  if eqb_str label (lit "异常") then
    let reason :=
      if TraceEvol.d_num_edges st <=? 2
      then lit "结合极短链路特征，判定为异常中断。"
      else lit "尽管链路完整，但结合高延迟与瓶颈特征，判定为性能异常。" in
    lit "分析：" ++ [nl]
    ++ lit "1. " ++ analysis_len st ++ [nl]
    ++ lit "2. " ++ analysis_ratio st ++ [nl]
    ++ lit "3. " ++ reason ++ [nl]
    ++ lit "====结论====" ++ [nl] ++ lit "异常"
  else
    let reason := lit "该长耗时节点属于核心业务逻辑，符合预期，整体链路正常。" in
    lit "分析：" ++ [nl]
    ++ lit "1. " ++ analysis_len st ++ [nl]
    ++ lit "2. " ++ analysis_ratio st ++ [nl]
    ++ lit "3. " ++ reason ++ [nl]
    ++ lit "====结论====" ++ [nl] ++ lit "正常".

(** [choice] is the index that [random.choice(QUESTION_POOL)] draws; it is
    drawn after the text has been parsed. *)
Definition build_sharegpt (choice : nat) (sample_txt label : str)
  : result sharegpt :=
  st <- TraceEvol.parse_trace_and_stats sample_txt ;;
  let q := nth choice QUESTION_POOL [] in
  let system_prompt :=
    lit "你是一个专家级调用链分析师。请先分析Trace的特征，最后给出“正常”或“异常”的结论。" in
  let user_content := TraceEvol.d_cooked_user st in
  ret (mkShareGPT
         [mkMessage (lit "system") system_prompt;
          mkMessage (lit "user") (user_content ++ [nl] ++ q);
          mkMessage (lit "assistant") (explanation st label)]).

(** ** The files that the scripts read *)

(** A path names a directory, with the names that [os.listdir] returns in
    the order in which it returns them, or a file, with its text when it can
    be read and decoded ([None] when [open] or [read] raises).  A directory
    is one that can be listed. *)
Inductive entry : Type :=
| Dir (names : list str)
| File (text : option str).

(** The file system: [None] where there is nothing. *)
Definition FileSystem : Type := str -> option entry.

Inductive io_error : Type :=
| FileNotFoundError
| NotADirectoryError
| IsADirectoryError
| UnicodeDecodeError.

(** [os.path.isdir(d)] and [os.path.exists(d)] *)
Definition isdir (fs : FileSystem) (d : str) : bool :=
  match fs d with Some (Dir _) => true | _ => false end.


(** [os.listdir(d)] *)
Definition listdir (fs : FileSystem) (d : str) : io_error + list str :=
  match fs d with
  | Some (Dir names) => inr names
  | Some (File _) => inl NotADirectoryError
  | None => inl FileNotFoundError
  end.

(** [open(p, "r", encoding="utf-8").read()] *)
Definition read_text (fs : FileSystem) (p : str) : io_error + str :=
  match fs p with
  | Some (File (Some text)) => inr text
  | Some (File None) => inl UnicodeDecodeError
  | Some (Dir _) => inl IsADirectoryError
  | None => inl FileNotFoundError
  end.

(** [os.path.join(a, b)] of [posixpath] *)
Definition path_join (a b : str) : str :=
  if startswith b (lit "/") then b
  else if negb (nonempty a) || endswith a (lit "/") then a ++ b
  else a ++ lit "/" ++ b.

(** [a <= b] on two strings: the order of the code points, a proper prefix
    first. *)
Fixpoint str_leb (a b : str) : bool :=
  match a, b with
  | [], _ => true
  | _ :: _, [] => false
  | x :: a', y :: b' =>
      if code x <? code y then true
      else if code y <? code x then false
      else str_leb a' b'
  end.

(** [sorted(l)] on strings: a stable sort, here by insertion. *)
Fixpoint insert_str (x : str) (l : list str) : list str :=
  match l with
  | [] => [x]
  | y :: l' => if str_leb x y then x :: l else y :: insert_str x l'
  end.

Fixpoint sorted_str (l : list str) : list str :=
  match l with
  | [] => []
  | x :: l' => insert_str x (sorted_str l')
  end.

(** ** [iter_txt_files] *)

(** The paths that the generator yields, in its order. *)
Definition iter_txt_files (fs : FileSystem) (dirs : list str) : list str :=
  flat_map
    (fun d =>
       if isdir fs d then
         match listdir fs d with
         | inr names =>
             map (path_join d)
                 (filter (fun fn => endswith (lower_str fn) (lit ".txt"))
                         (sorted_str names))
         | inl _ => []
         end
       else [])
    dirs.

(** ** [main] of [trace_evol.py] *)

Definition MAX_PER_CLASS : Z := 500.

(** [INPUT_DIRS], in the order of its two keys. *)
Definition INPUT_DIRS (BASE_DIR : str) : list (str * list str) :=
  [(lit "正常", [path_join BASE_DIR (lit "data/raw/total/normal")]);
   (lit "异常", [path_join BASE_DIR (lit "data/raw/total/abnormal")])].

(** The state of the first loop: the records, the number of values that the
    generator of random numbers has given, and the paths of the warnings
    that were printed. *)
Record run_state : Type := mkRun {
  recs : list sharegpt;
  drawn : nat;
  warned : list str
}.

(** One turn of [for p in iter_txt_files(dirs)], with the count [c].  After
    the [break] nothing changes any more.  [draws k] is the value of the
    [k]-th call of [random.choice]. *)
Definition visit (fs : FileSystem) (draws : nat -> nat) (label : str)
    (acc : run_state * Z) (p : str) : run_state * Z :=
  let '(st, c) := acc in
  if MAX_PER_CLASS <=? c then acc
  else
    match read_text fs p with
    | inr text =>
        let txt := strip text in
        match build_sharegpt (draws (drawn st)) txt label with
        | inr r => (mkRun (recs st ++ [r]) (S (drawn st)) (warned st), c + 1)
        | inl _ => (mkRun (recs st) (drawn st) (warned st ++ [p]), c)
        end
    | inl _ => (mkRun (recs st) (drawn st) (warned st ++ [p]), c)
    end.

(** [for label, dirs in INPUT_DIRS.items()] *)
Definition collect_label (fs : FileSystem) (draws : nat -> nat)
    (st : run_state) (item : str * list str) : run_state :=
  let '(label, dirs) := item in
  fst (fold_left (visit fs draws label) (iter_txt_files fs dirs) (st, 0)).

Definition collect (fs : FileSystem) (draws : nat -> nat)
    (input_dirs : list (str * list str)) : run_state :=
  fold_left (collect_label fs draws) input_dirs (mkRun [] O []).

(** The test of the last loop, and the count that it prints. *)
Definition valid_ending (output_text : str) : bool :=
  contains output_text (lit "====结论====" ++ [nl] ++ lit "正常")
  || contains output_text (lit "====结论====" ++ [nl] ++ lit "异常").

(** [r["conversations"][-1]["value"]] *)
Definition last_value (r : sharegpt) : result str :=
  match rev (conversations r) with
  | m :: _ => ret (value m)
  | [] => raise IndexError
  end.

Definition count_valid (recs : list sharegpt) : result Z :=
  fold_left
    (fun acc r =>
       valid_endings <- acc ;;
       output_text <- last_value r ;;
       ret (if valid_ending output_text
            then valid_endings + 1 else valid_endings))
    recs (ret 0).

(** ** [main] of [build_balanced_testset.py] *)


Definition SYSTEM_PROMPT : str :=
  lit "你是一个专家级调用链分析师。请根据给定的 Trace 统计数据，逻辑推理并判断其是“正常”还是“异常”。" ++ [nl]
  ++ [nl]
  ++ lit "【判断标准】" ++ [nl]
  ++ lit "1. **完整性检查**：正常的 Trace 必须包含完整的调用链路（num_edges >= 9）。如果 num_edges < 9，属于链路中断（异常）。" ++ [nl]
  ++ lit "2. **时延检查**：正常的业务处理耗时通常在 **500ms 到 2000ms** 之间。" ++ [nl]
  ++ lit "   - 如果 total_latency_ms < 500ms：通常意味着请求未完成即报错返回（异常）。" ++ [nl]
  ++ lit "   - 如果 total_latency_ms > 2000ms：通常意味着系统严重超时（异常）。" ++ [nl]
  ++ [nl]
  ++ lit "【输出要求】" ++ [nl]
  ++ lit "请一步步思考，将数据的数值与上述标准进行比对，最后输出结论。" ++ [nl]
  ++ lit "结论行必须严格为：“====结论====" ++ [nl]
  ++ lit "正常” 或 “====结论====" ++ [nl]
  ++ lit "异常”。".

(** The dictionary of one sample. *)
Record sample : Type := mkSample {
  s_instruction : str;
  s_input : str;
  s_output : str;
  s_label : str;
  s_id : str
}.

(** [os.path.basename(p)] of [posixpath]: what follows the last slash. *)
Fixpoint until_slash (s : str) : str :=
  match s with
  | [] => []
  | c :: s' => if Ascii.eqb c "/"%char then [] else c :: until_slash s'
  end.

Definition basename (p : str) : str := rev (until_slash (rev p)).

(** The f-string of [input_text]. *)
Definition input_text (cooked_content : str) : str :=
  lit "=== Trace Data Start ===" ++ [nl]
  ++ cooked_content ++ [nl]
  ++ lit "=== Trace Data End ===" ++ [nl; nl]
  ++ lit "请根据 System Prompt 中的标准，分析上述数据的 num_edges 和 total_latency_ms，并给出结论。".


(** The body of the [try]: [None] when it raises. *)
Definition make_sample (fs : FileSystem) (label_name fp : str)
  : option sample :=
  match read_text fs fp with
  | inr text =>
      let raw := strip text in
      match BalancedTestset.parse_trace_and_stats raw with
      | inr cooked_content =>
          Some (mkSample SYSTEM_PROMPT (input_text cooked_content) []
                         label_name (basename fp))
      | inl _ => None
      end
  | inl _ => None
  end.

(** The samples and the paths of the errors that were printed. *)
Record balanced_state : Type := mkBalanced {
  all_samples : list sample;
  failed : list str
}.

Definition add_sample (fs : FileSystem) (label_name : str)
    (st : balanced_state) (fp : str) : balanced_state :=
  match make_sample fs label_name fp with
  | Some s => mkBalanced (all_samples st ++ [s]) (failed st)
  | None => mkBalanced (all_samples st) (failed st ++ [fp])
  end.






(* ===================================================================== *)
(** * The vocabulary of the properties and the inputs of the examples *)
(* ===================================================================== *)

Definition cr : ascii := "013"%char.

(** The line that the loop appends for [line], and what the line adds to
    [durations]. *)
Definition annotated_line (line : str) : str :=
  match match_line line with
  | Some (s, f) => rewrite_line line (Z.max 0 (f - s))
  | None => line
  end.

Definition matched (line : str) : bool :=
  match match_line line with Some _ => true | None => false end.

Definition observed (lines : list str) : list (Z * Z) :=
  flat_map (fun l => match match_line l with Some p => [p] | None => [] end)
           lines.

Definition duration_of (p : Z * Z) : Z := Z.max 0 (snd p - fst p).

Definition fold_opt (op : Z -> Z -> Z) (o : option Z) (vs : list Z)
  : option Z :=
  fold_left (fun o v => Some (match o with None => v | Some w => op w v end))
            vs o.

(** [consumes P r]: [r] has no group and reads only characters in [P];
    [captures P r]: every group of [r] is such a pattern. *)
Fixpoint consumes (P : ascii -> Prop) (r : Re.regex) : Prop :=
  match r with
  | Re.Eps => True
  | Re.Chr q | Re.Rep q _ => forall c, q c = true -> P c
  | Re.Cat r1 r2 => consumes P r1 /\ consumes P r2
  | Re.Cap _ => False
  end.

Fixpoint captures (P : ascii -> Prop) (r : Re.regex) : Prop :=
  match r with
  | Re.Cap r1 => consumes P r1
  | Re.Cat r1 r2 => captures P r1 /\ captures P r2
  | _ => True
  end.

Definition is_digit (c : ascii) : Prop := isdigit c = true.

Definition earliest_of (es : list (Z * Z)) : option Z :=
  fold_opt Z.min None (map fst es).

Definition latest_of (es : list (Z * Z)) : option Z :=
  fold_opt Z.max None (map snd es).

Definition max_of (ds : list Z) : Z :=
  match ds with [] => 0 | x :: r => fold_left Z.max r x end.

(** The mean is the one computation of the function that can raise. *)
Definition mean_overflows (ds : list Z) : bool :=
  nonempty ds && negb (Float.finite (Float.round (sum ds) (len ds))).

(** The values of the seven fields. *)
Definition features_of (ds : list Z) (total : Z) : features :=
  let vs := sorted (fun d => d) ds in
  mkFeatures
    (len ds)
    total
    (max_of ds)
    (match ds with
     | [] => 0
     | _ :: _ => Float.trunc (Float.round (sum ds) (len ds))
     end)
    (nth (Z.to_nat (p95_index vs)) vs 0)
    (if 0 <? total then Float.round (max_of ds) total else Float.zero)
    (match py_index ds (max_of ds) with inr i => i | inl _ => -1 end).

Definition edge_durations_of (lines : list str) : list Z :=
  map duration_of (observed lines).

(** The wall-clock span of the observed values: latest finish minus earliest
    start, floored at 0. *)
Definition span_of (es : list (Z * Z)) : Z :=
  match earliest_of es, latest_of es with
  | Some e, Some l => Z.max 0 (l - e)
  | _, _ => 0
  end.

(** The two edges of the specification's example: one from 0 to 100, one from
    50 to 80. *)
Definition two_edges : str :=
  lit "[Edge ID is a, Source is Client, Destination is front, Type is HTTP, Communication starts at 0 ms, Communication finishes at 100 ms]."
  ++ [nl]
  ++ lit "[Edge ID is b, Source is front, Destination is db, Type is DATABASE, Communication starts at 50 ms, Communication finishes at 80 ms].".

(** The test of [if l.strip()]. *)
Definition kept (l : str) : bool := nonempty (strip l).

(** What the specification calls a matching line: it begins with a bracket
    and the pattern is found in it. *)
Definition bracketed_match (line : str) : bool :=
  startswith line (lit "[")
  && match Re.search START_FINISH_RE line with Some _ => true | None => false end.


(** The two edges 0..100 and 50..80 with an empty line between them. *)
Definition two_edges_apart : str :=
  lit "[Edge ID is a, Communication starts at 0 ms, Communication finishes at 100 ms]."
  ++ [nl; nl]
  ++ lit "[Edge ID is b, Communication starts at 50 ms, Communication finishes at 80 ms].".

(** The number of lines and the total of a run, when it returns. *)
Definition line_count (r : result annotation) : option nat :=
  match r with
  | inr a => Some (length (lines_out a))
  | inl _ => None
  end.

Definition total_of (r : result annotation) : option Z :=
  match r with
  | inr a => Some (total_latency_ms (stats a))
  | inl _ => None
  end.

(** A text with two matched lines, none starting at 0, and an empty line. *)
Definition two_late_edges : str :=
  lit "[Edge ID is a, Communication starts at 10 ms, Communication finishes at 100 ms]."
  ++ [nl; nl]
  ++ lit "[Edge ID is b, Communication starts at 50 ms, Communication finishes at 80 ms].".

(** For an annotator [run]: every line of the text that is not a bracketed
    match is in the output, unchanged, at the position it has in the text. *)
Definition passes_through (run : str -> result annotation) : Prop :=
  forall txt a i line,
    run txt = inr a ->
    nth_error (splitlines txt) i = Some line ->
    bracketed_match line = false ->
    nth_error (lines_out a) i = Some line.

(** Two lines with an empty line between them. *)
Definition three_lines : str := lit "a" ++ [nl; nl] ++ lit "b".

Definition stats_of (r : result annotation) : result features :=
  match r with
  | inr a => inr (stats a)
  | inl e => inl e
  end.

(** A header line, an edge line and a line that looks like an edge but has no
    finish value. *)
Definition mixed_lines : str :=
  lit "Trace ID is t1" ++ [nl]
  ++ lit "[Edge ID is a, Communication starts at 5 ms, Communication finishes at 9 ms]."
  ++ [nl]
  ++ lit "[Edge ID is b, Communication starts at 7 ms]".

(** The rewriting as the specification words it: the tests are on the line
    itself. *)
Definition rewrite_as_specified (line : str) (dur : Z) : str :=
  if endswith line (lit "].") then
    drop_last 2 line ++ lit ", duration=" ++ str_of_int dur ++ lit " ms]."
  else if endswith line (lit "]") then
    drop_last 1 line ++ lit ", duration=" ++ str_of_int dur ++ lit " ms]"
  else
    line ++ lit " (duration=" ++ str_of_int dur ++ lit " ms)".

(** An edge from 1 to 6 whose line ends with a blank after the full stop. *)
Definition trailing_blank_line : str :=
  lit "[Edge ID is a, Communication starts at 1 ms, Communication finishes at 6 ms]. ".




(** [ceil(0.95 * N)] on the rationals. *)
Definition ceil_95_percent (N : Z) : Z := - ((- (95 * N)) / 100).

Definition key_le {A} (key : A -> Z) (x y : A) : Prop := key x <= key y.

Definition p95_of (r : result features) : option Z :=
  match r with
  | inr fs => Some (p95_edge_latency_ms fs)
  | inl _ => None
  end.


(** One assignment [d[k] = v]. *)
Definition assign {K V} (eqb : K -> K -> bool) (d : list (K * V))
    (kv : K * V) : list (K * V) :=
  dict_set eqb d (fst kv) (snd kv).

Definition node_assignments (spans : list Span) : list (str * option Span) :=
  map (fun s => (span_id s, Some s)) spans.

(** The parent edge that a span adds, given the identifiers of the nodes. *)
Definition parent_assignment (ids : list str) (s : Span)
  : list ((str * str) * edge_type) :=
  match parent_span_id s with
  | Some p =>
      if nonempty p && existsb (eqb_str p) ids
      then [((p, span_id s), parent)] else []
  | None => []
  end.

Definition parent_assignments (ids : list str) (spans : list Span)
  : list ((str * str) * edge_type) :=
  flat_map (parent_assignment ids) spans.

(** The time edges that a sorted list adds. *)
Fixpoint time_assignments (ss : list Span) : list ((str * str) * edge_type) :=
  match ss with
  | c :: ((n :: _) as rest) =>
      (if related c n then [((span_id c, span_id n), time)] else [])
      ++ time_assignments rest
  | _ => []
  end.

Definition built_nodes (spans : list Span) : list (str * option Span) :=
  fold_left (assign eqb_str) (node_assignments spans) [].

Definition built_ids (spans : list Span) : list str :=
  map fst (built_nodes spans).

Definition edge_assignments (spans : list Span)
  : list ((str * str) * edge_type) :=
  parent_assignments (built_ids spans) spans
  ++ time_assignments (sorted start_time spans).

(** [u] and [v] are the identifiers of two consecutive spans of [ss] whose
    starts are more than 0 and at most 2 seconds apart. *)
Definition time_pair (ss : list Span) (u v : str) : Prop :=
  exists i c n,
    nth_error ss i = Some c /\ nth_error ss (S i) = Some n
    /\ span_id c = u /\ span_id n = v
    /\ 0 < start_time n - start_time c <= 2000000.

(** What the specification asks of an edge from a declared parent: that it
    be there. *)
Definition parent_edge_present : Prop :=
  forall spans s p,
    NoDup (map span_id spans) ->
    In s spans -> parent_span_id s = Some p -> In p (map span_id spans) ->
    exists t,
      dict_get eqb_edge (edges (build_dependency_graph spans)) (p, span_id s)
      = Some t.

(** A root whose identifier is the empty string, and its child ten seconds
    later. *)
Definition unnamed_root : Span := mkSpan [] None 0 (lit "front") None.

Definition child_of_unnamed : Span :=
  mkSpan (lit "c") (Some []) 10000000 (lit "db") None.

(** A root, a child half a second later, and a span whose parent is not in
    the list. *)
Definition span_root : Span := mkSpan (lit "r") None 0 (lit "front") None.

Definition span_child : Span :=
  mkSpan (lit "c") (Some (lit "r")) 500000 (lit "cart") (Some (lit "grpc.Get")).

Definition span_orphan : Span :=
  mkSpan (lit "o") (Some (lit "zz")) 9000000 (lit "db") (Some (lit "SELECT sql")).






(** The position of the first [x] in [l]. *)
Fixpoint pos (l : list str) (x : str) : nat :=
  match l with
  | [] => O
  | y :: l' => if eqb_str x y then O else S (pos l' x)
  end.













(** The example of the specification: [B] is the child of [A] and starts one
    second before it, so the parent edge from [A] to [B] and the time edge
    from [B] to [A] close a cycle. *)
Definition cycle_a : Span :=
  mkSpan (lit "A") None 1000000 (lit "front") (Some (lit "HTTP GET")).

Definition cycle_b : Span :=
  mkSpan (lit "B") (Some (lit "A")) 0 (lit "cart") None.




(** ** Span trees *)

(** A span, then the spans below each of its children, child by child. *)
Fixpoint preorder (t : SpanTree) : list SpanTree :=
  match t with
  | SpanNode _ cs => t :: flat_map preorder cs
  end.







(** ** Edges as text *)

(** [w] occurs in [s], in some letter case. *)
Definition mentions (w : string) (s : str) : bool :=
  contains (lower_str s) (lit w).

(** The next character, if any, is not in the class. *)
Definition stops (p : ascii -> bool) (s : str) : Prop :=
  match s with c :: _ => p c = false | [] => True end.

(** The second half of the pattern, from [finishes] on. *)
Definition finish_part : Re.regex :=
  Re.concat
    (Re.iword "finishes" ++ [Re.plus isspace] ++ Re.iword "at"
     ++ [Re.star isspace; Re.Cap (Re.plus isdigit); Re.star isspace]
     ++ Re.iword "ms").

(** The text of an edge up to the blank before [starts], and from [starts]
    on. *)
Definition edge_head (r : EdgeRecord) : str :=
  lit "[Edge ID is" ++ " "%char :: edge_id r
  ++ ","%char :: lit " Source is" ++ " "%char :: source r
  ++ ","%char :: lit " Destination is" ++ " "%char :: destination r
  ++ ","%char :: lit " Type is" ++ " "%char :: communication_type r
  ++ ","%char :: lit " Communication".

Definition edge_tail (D1 D2 : str) : str :=
  lit "starts at " ++ D1 ++ lit " ms, Communication finishes at "
  ++ D2 ++ lit " ms" ++ lit "].".

(** No field of the record holds the word [starts]. *)
Definition plain (r : EdgeRecord) : Prop :=
  mentions "starts" (edge_id r) = false
  /\ mentions "starts" (source r) = false
  /\ mentions "starts" (destination r) = false
  /\ mentions "starts" (communication_type r) = false.

(** The text of an edge before its closing bracket and full stop. *)
Definition edge_body (r : EdgeRecord) (s f : Z) : str :=
  drop_last 2 (edge_text r s f).

(** ** Files of traces *)

(** No character of [s] is a line boundary. *)
Definition one_line (s : str) : bool :=
  forallb (fun c => negb (islinebreak c)) s.

(** An edge as it is written: the record and the two times. *)
Definition written_edge : Type := (EdgeRecord * (Z * Z))%type.

Definition edge_line (e : written_edge) : str :=
  edge_text (fst e) (fst (snd e)) (snd (snd e)).

Definition edge_duration (e : written_edge) : Z :=
  Z.max 0 (snd (snd e) - fst (snd e)).

Definition edge_line_annotated (e : written_edge) : str :=
  edge_body (fst e) (fst (snd e)) (snd (snd e))
  ++ lit ", duration=" ++ str_of_int (edge_duration e) ++ lit " ms].".

(** The fields of the edge hold neither the word [starts] nor a line
    boundary, and its times are not negative. *)
Definition readable (e : written_edge) : Prop :=
  plain (fst e)
  /\ one_line (edge_id (fst e)) = true
  /\ one_line (source (fst e)) = true
  /\ one_line (destination (fst e)) = true
  /\ one_line (communication_type (fst e)) = true
  /\ 0 <= fst (snd e) /\ 0 <= snd (snd e).

(** The lines around the edges. *)
Definition frame_top (trace_id : str) : list str :=
  [lit "Trace ID is " ++ trace_id; lit "<Trace Sequence>"].

Definition frame_bottom : list str :=
  [lit "</Trace Sequence>"; repeat "="%char 80].

Definition file_lines (trace_id : str) (edges : list written_edge) : list str :=
  frame_top trace_id ++ map edge_line edges ++ frame_bottom.

(** Two edges, from 1500 to 1502 and from 1600 to 1640. *)
Definition example_edges : list written_edge :=
  [(mkEdgeRecord (lit "c") (lit "front") (lit "cart") (lit "GRPC"),
    (1500, 1502));
   (mkEdgeRecord (lit "g") (lit "cart") (lit "db") (lit "DATABASE"),
    (1600, 1640))].

(** What [trace_evol.py] makes of the file of these two edges. *)
Definition example_annotation : annotation :=
  Eval vm_compute in
    match TraceEvol.annotate
            (strip (trace_file (lit "t1") (map edge_line example_edges)))
    with
    | inr a => a
    | inl _ => mkAnnotation (features_of [] 0) [] []
    end.

(** What [build_balanced_testset.py] makes of the two edges of the example:
    the durations are 100 and 30. *)
Definition two_edges_annotation : annotation :=
  Eval vm_compute in
    match BalancedTestset.annotate two_edges with
    | inr a => a
    | inl _ => mkAnnotation (features_of [] 0) [] []
    end.

(** One of the two copies of the annotator. *)
Definition annotator (run : str -> result annotation) : Prop :=
  run = TraceEvol.annotate \/ run = BalancedTestset.annotate.

(** The lines that a copy scans. *)
Definition scanned (run : str -> result annotation) (txt : str) (lines : list str)
  : Prop :=
  (run = TraceEvol.annotate /\ lines = splitlines txt)
  \/ (run = BalancedTestset.annotate /\ lines = BalancedTestset.kept_lines txt).

(** The header of a text in which no edge is found. *)
Definition no_edge_header : str :=
  lit "# 统计特征" ++ [nl]
  ++ lit "num_edges=0" ++ [nl]
  ++ lit "total_latency_ms=0" ++ [nl]
  ++ lit "max_edge_latency_ms=0" ++ [nl]
  ++ lit "mean_edge_latency_ms=0" ++ [nl]
  ++ lit "p95_edge_latency_ms=0" ++ [nl]
  ++ lit "max_edge_ratio=0.0000" ++ [nl]
  ++ lit "bottleneck_index=-1" ++ [nl].

(** The line before the verdict. *)
Definition verdict_line : str := lit "====结论====" ++ [nl].

(** What [trace_evol.py] returns for the two edges 10..100 and 50..80 with
    an empty line between them. *)
Definition two_late_edges_stats : TraceEvol.trace_stats :=
  Eval vm_compute in
    match TraceEvol.parse_trace_and_stats two_late_edges with
    | inr st => st
    | inl _ => TraceEvol.mkTraceStats [] 0 0 Float.zero [] 0 0
    end.

(** The file can be read and its text parsed. *)
Definition usable (fs : FileSystem) (p : str) : bool :=
  match read_text fs p with
  | inr text =>
      match TraceEvol.parse_trace_and_stats (strip text) with
      | inr _ => true
      | inl _ => false
      end
  | inl _ => false
  end.

(** The test of [iter_txt_files] on a name. *)
Definition is_txt (fn : str) : bool := endswith (lower_str fn) (lit ".txt").

(** A directory with three names, one of them in capitals, and a file. *)
Definition example_fs : FileSystem :=
  fun p =>
    if eqb_str p (lit "in") then Some (Dir [lit "b.txt"; lit "notes.md"; lit "A.TXT"])
    else if eqb_str p (lit "in/A.TXT") then Some (File (Some two_late_edges))
    else if eqb_str p (lit "in/b.txt") then Some (File None)
    else None.

Definition count_usable (fs : FileSystem) (paths : list str) : Z :=
  len (filter (usable fs) paths).

Definition unusable (fs : FileSystem) (p : str) : bool := negb (usable fs p).

(** [r] is what [build_sharegpt] returns for the text of some file of
    [paths] and this label. *)
Definition built_from (fs : FileSystem) (label : str) (paths : list str)
    (r : sharegpt) : Prop :=
  exists choice p text,
    In p paths /\ read_text fs p = inr text
    /\ build_sharegpt choice (strip text) label = inr r.

(** The last message of the record passes the test of the last loop. *)
Definition well_ended (r : sharegpt) : Prop :=
  exists output_text,
    last_value r = inr output_text /\ valid_ending output_text = true.



(** The sample of the one file of the example that can be read. *)
Definition example_sample : sample :=
  Eval vm_compute in
    match make_sample example_fs (lit "异常") (lit "in/A.TXT") with
    | Some s => s
    | None => mkSample [] [] [] [] []
    end.


(* ===================================================================== *)
(** * The embedding on small inputs *)
(* ===================================================================== *)

Example splitlines_plain :
  splitlines (lit "a" ++ [nl] ++ lit "b") = [lit "a"; lit "b"].
Proof. reflexivity. Qed.

Example splitlines_final_boundary : splitlines (lit "a" ++ [nl]) = [lit "a"].
Proof. reflexivity. Qed.

Example splitlines_crlf :
  splitlines (lit "a" ++ [cr; nl; nl] ++ lit "b") = [lit "a"; []; lit "b"].
Proof. reflexivity. Qed.

Example splitlines_lfcr :
  splitlines (lit "a" ++ [nl; cr] ++ lit "b") = [lit "a"; []; lit "b"].
Proof. reflexivity. Qed.

Example int_of_str_leading_zeros : int_of_str (lit "00120") = 120.
Proof. reflexivity. Qed.

Example str_of_int_minus_one : str_of_int (-1) = lit "-1".
Proof. reflexivity. Qed.

Example rstrip_ex : rstrip (lit " ab]. ") = lit " ab].".
Proof. reflexivity. Qed.

Example search_record :
  Re.search START_FINISH_RE
    (lit "[Edge ID is 1, Communication starts at 0 ms, Communication finishes at 100 ms].")
  = Some [lit "0"; lit "100"].
Proof. reflexivity. Qed.

Example search_ignorecase_lazy :
  Re.search START_FINISH_RE
    (lit "[STARTS  AT12MS finishes at 3 ms finishes at 100ms")
  = Some [lit "12"; lit "3"].
Proof. reflexivity. Qed.

Example search_backtracks :
  Re.search START_FINISH_RE
    (lit "starts at ms starts at 5 ms x finishes at  ms finishes at 7 ms")
  = Some [lit "5"; lit "7"].
Proof. reflexivity. Qed.

Example search_none :
  Re.search START_FINISH_RE (lit "starts at 5 m finishes at 7 ms") = None.
Proof. reflexivity. Qed.

Example lit_0_95_value :
  Float.lit_0_95 = Float.mk 8556839292003942 (-53).
Proof. reflexivity. Qed.

Example one_third :
  Float.true_div 1 3 = inr (Float.mk 6004799503160661 (-54)).
Proof. reflexivity. Qed.

Example largest_finite :
  Float.true_div (2 ^ 1024 - 2 ^ 970 - 1) 1 = inr (Float.mk (2 ^ 53 - 1) 971).
Proof. vm_compute. reflexivity. Qed.

Example first_overflow :
  Float.true_div (2 ^ 1024 - 2 ^ 970) 1 = inl OverflowError.
Proof. vm_compute. reflexivity. Qed.

Example subnormal_tie :
  Float.true_div 3 (2 ^ 1075) = inr (Float.mk 2 (-1074)).
Proof. vm_compute. reflexivity. Qed.

Example format_4f_tie : format_4f (Float.mk 1 (-5)) = lit "0.0312".
Proof. reflexivity. Qed.

Example communication_types :
  map get_communication_type
      [None; Some (lit "http GET"); Some (lit "Grpc.Call");
       Some (lit "mysql"); Some (lit "run")]
  = [lit "UNKNOWN"; lit "HTTP"; lit "GRPC"; lit "DATABASE"; lit "RPC"].
Proof. reflexivity. Qed.

(** The root, its child half a second later and the orphan nine seconds
    later: the time edge takes the place of the parent edge. *)
Example build_three_spans :
  edges (build_dependency_graph [span_root; span_orphan; span_child])
  = [((lit "r", lit "c"), time)].
Proof. vm_compute. reflexivity. Qed.

Example sort_three_spans :
  Topo.topological_sort
    (build_dependency_graph [span_root; span_orphan; span_child])
  = inr (Some [lit "r"; lit "o"; lit "c"]).
Proof. vm_compute. reflexivity. Qed.

Example sort_cycle :
  Topo.topological_sort (build_dependency_graph [cycle_a; cycle_b])
  = inr None.
Proof. vm_compute. reflexivity. Qed.

(* ===================================================================== *)
(** * Properties *)
(* ===================================================================== *)

(** ** Strings *)

Lemma isspace_bracket : isspace "["%char = false.
Proof. reflexivity. Qed.

Lemma lstrip_nil_iff (s : str) : lstrip s = [] <-> forallb isspace s = true.
Proof.
  induction s as [|c s IH]; simpl; [tauto|].
  destruct (isspace c); simpl; [exact IH|]. split; discriminate.
Qed.

Lemma lstrip_forallb (s : str) :
  forallb isspace (lstrip s) = true -> forallb isspace s = true.
Proof.
  induction s as [|c s IH]; simpl; [auto|].
  destruct (isspace c) eqn:E; simpl; [exact IH|].
  rewrite E. discriminate.
Qed.

Lemma forallb_rev {A} (p : A -> bool) (l : list A) :
  forallb p (rev l) = forallb p l.
Proof.
  induction l as [|x l IH]; simpl; [reflexivity|].
  rewrite forallb_app, IH. simpl. rewrite andb_true_r. apply andb_comm.
Qed.

(** A line is kept by [if l.strip()] exactly when some character of it is not
    white space. *)
Lemma strip_nonempty (s : str) :
  nonempty (strip s) = negb (forallb isspace s).
Proof.
  unfold strip, rstrip.
  destruct (forallb isspace s) eqn:E; simpl.
  - apply lstrip_nil_iff in E. rewrite E. reflexivity.
  - destruct (rev (lstrip (rev (lstrip s)))) eqn:R; [|reflexivity].
    exfalso. apply (f_equal (@rev ascii)) in R. rewrite rev_involutive in R.
    simpl in R. apply lstrip_nil_iff in R. rewrite forallb_rev in R.
    apply lstrip_forallb in R. congruence.
Qed.

Lemma startswith_bracket_nonblank (s : str) :
  startswith s (lit "[") = true -> forallb isspace s = false.
Proof.
  destruct s as [|c s]; [discriminate|].
  cbn [lit list_ascii_of_string startswith].
  rewrite andb_true_r. intros H. apply Ascii.eqb_eq in H. subst c.
  reflexivity.
Qed.


(** ** The scan *)

Lemma scan_line_fields (st : scan_state) (line : str) :
  durations (scan_line st line)
    = durations st ++ map duration_of (observed [line])
  /\ earliest (scan_line st line)
    = fold_opt Z.min (earliest st) (map fst (observed [line]))
  /\ latest (scan_line st line)
    = fold_opt Z.max (latest st) (map snd (observed [line]))
  /\ ann_lines (scan_line st line) = ann_lines st ++ [annotated_line line].
Proof.
  unfold scan_line, observed, annotated_line, fold_opt. simpl.
  destruct (match_line line) as [[s f]|]; simpl;
    rewrite ?app_nil_r; repeat split; reflexivity.
Qed.

Lemma observed_app (l1 l2 : list str) :
  observed (l1 ++ l2) = observed l1 ++ observed l2.
Proof. apply flat_map_app. Qed.

Lemma scan_from_fields (lines : list str) : forall st,
  durations (fold_left scan_line lines st)
    = durations st ++ map duration_of (observed lines)
  /\ earliest (fold_left scan_line lines st)
    = fold_opt Z.min (earliest st) (map fst (observed lines))
  /\ latest (fold_left scan_line lines st)
    = fold_opt Z.max (latest st) (map snd (observed lines))
  /\ ann_lines (fold_left scan_line lines st)
    = ann_lines st ++ map annotated_line lines.
Proof.
  induction lines as [|l lines IH]; intros st; cbn [fold_left].
  - simpl. rewrite !app_nil_r. repeat split; reflexivity.
  - destruct (IH (scan_line st l)) as (Hd & He & Hl & Ha).
    destruct (scan_line_fields st l) as (Hd1 & He1 & Hl1 & Ha1).
    rewrite Hd, He, Hl, Ha, Hd1, He1, Hl1, Ha1.
    change (l :: lines) with ([l] ++ lines).
    rewrite observed_app, !map_app. unfold fold_opt.
    rewrite !fold_left_app, <- !app_assoc. repeat split; reflexivity.
Qed.

Lemma scan_fields (lines : list str) :
  durations (scan lines) = map duration_of (observed lines)
  /\ earliest (scan lines) = fold_opt Z.min None (map fst (observed lines))
  /\ latest (scan lines) = fold_opt Z.max None (map snd (observed lines))
  /\ ann_lines (scan lines) = map annotated_line lines.
Proof. exact (scan_from_fields lines scan_init). Qed.

(** ** What the pattern captures *)

Section RegexSound.
Context {A : Type}.

Lemma rep_greedy_sound (P : ascii -> Prop) q
    (Hq : forall c, q c = true -> P c) (s : str) :
  forall (k : str -> option A) a,
    Re.rep_greedy q s k = Some a ->
    exists pre s1, s = pre ++ s1 /\ Forall P pre /\ k s1 = Some a.
Proof.
  induction s as [|c s IH]; intros k a H; simpl in H.
  - exists [], []. auto.
  - destruct (q c) eqn:Eq.
    + destruct (Re.rep_greedy q s k) as [b|] eqn:Er.
      * injection H as <-. destruct (IH k b Er) as (pre & s1 & -> & Hp & Hk).
        exists (c :: pre), s1. auto.
      * exists [], (c :: s). auto.
    + exists [], (c :: s). auto.
Qed.

Lemma rep_lazy_sound (P : ascii -> Prop) q
    (Hq : forall c, q c = true -> P c) (s : str) :
  forall (k : str -> option A) a,
    Re.rep_lazy q s k = Some a ->
    exists pre s1, s = pre ++ s1 /\ Forall P pre /\ k s1 = Some a.
Proof.
  induction s as [|c s IH]; intros k a H; simpl in H.
  - destruct (k []) eqn:Ek; [|discriminate]. injection H as <-.
    exists [], []. auto.
  - destruct (k (c :: s)) as [b|] eqn:Ek.
    + injection H as <-. exists [], (c :: s). auto.
    + destruct (q c) eqn:Eq; [|discriminate].
      destruct (IH k a H) as (pre & s1 & -> & Hp & Hk).
      exists (c :: pre), s1. auto.
Qed.

Lemma exec_consumes (P : ascii -> Prop) (r : Re.regex) : consumes P r ->
  forall s gs (k : str -> list str -> option A) a,
    Re.exec r s gs k = Some a ->
    exists pre s1, s = pre ++ s1 /\ Forall P pre /\ k s1 gs = Some a.
Proof.
  induction r as [|q|q g|r1 IH1 r2 IH2|r IH]; simpl; intros Hr s gs k a H.
  - exists [], s. auto.
  - destruct s as [|c s]; [discriminate|].
    destruct (q c) eqn:Eq; [|discriminate].
    exists [c], s. auto.
  - destruct g.
    + apply (rep_greedy_sound P q Hr) in H. exact H.
    + apply (rep_lazy_sound P q Hr) in H. exact H.
  - destruct Hr as [H1 H2].
    destruct (IH1 H1 _ _ _ _ H) as (p1 & s1 & -> & Hp1 & Hk1).
    destruct (IH2 H2 _ _ _ _ Hk1) as (p2 & s2 & -> & Hp2 & Hk2).
    exists (p1 ++ p2), s2. rewrite <- app_assoc.
    repeat split; auto. apply Forall_app; auto.
  - contradiction.
Qed.

Lemma exec_captures (P : ascii -> Prop) (r : Re.regex) : captures P r ->
  forall s gs (k : str -> list str -> option A) a,
    Forall (Forall P) gs ->
    Re.exec r s gs k = Some a ->
    exists s1 gs1, Forall (Forall P) gs1 /\ k s1 gs1 = Some a.
Proof.
  induction r as [|q|q g|r1 IH1 r2 IH2|r IH]; simpl; intros Hr s gs k a Hg H.
  - eauto.
  - destruct s as [|c s]; [discriminate|].
    destruct (q c); [eauto|discriminate].
  - destruct g.
    + apply (rep_greedy_sound (fun _ => True) q (fun _ _ => I)) in H.
      destruct H as (? & s1 & _ & _ & H). eauto.
    + apply (rep_lazy_sound (fun _ => True) q (fun _ _ => I)) in H.
      destruct H as (? & s1 & _ & _ & H). eauto.
  - destruct Hr as [H1 H2].
    destruct (IH1 H1 _ _ _ _ Hg H) as (s1 & gs1 & Hg1 & Hk1).
    apply (IH2 H2 _ _ _ _ Hg1 Hk1).
  - apply (exec_consumes P r Hr) in H.
    destruct H as (pre & s1 & -> & Hp & Hk).
    exists s1, (gs ++ [pre]). split.
    + apply Forall_app. auto.
    + rewrite length_app, Nat.add_sub, firstn_app, Nat.sub_diag in Hk.
      rewrite firstn_all, firstn_O, app_nil_r in Hk. exact Hk.
Qed.
End RegexSound.

Lemma search_captures (P : ascii -> Prop) (r : Re.regex) (s : str) gs :
  captures P r -> Re.search r s = Some gs -> Forall (Forall P) gs.
Proof.
  intros Hr. induction s as [|c s IH]; simpl.
  - destruct (Re.exec r [] [] _) as [g|] eqn:E; [|discriminate].
    intros [= <-].
    destruct (exec_captures P r Hr _ _ _ _ (Forall_nil _) E)
      as (? & ? & ? & [= <-]). assumption.
  - destruct (Re.exec r (c :: s) [] _) as [g|] eqn:E; [|exact IH].
    intros [= <-].
    destruct (exec_captures P r Hr _ _ _ _ (Forall_nil _) E)
      as (? & ? & ? & [= <-]). assumption.
Qed.

Lemma START_FINISH_RE_captures : captures is_digit START_FINISH_RE.
Proof. cbv [START_FINISH_RE]. simpl. repeat split; auto. Qed.

Lemma digit_val_range (c : ascii) : is_digit c -> 0 <= digit_val c <= 9.
Proof.
  unfold is_digit, isdigit, in_range, digit_val.
  rewrite andb_true_iff, !Z.leb_le. lia.
Qed.

Lemma int_of_str_nonneg (s : str) : Forall is_digit s -> 0 <= int_of_str s.
Proof.
  unfold int_of_str. intros HF.
  assert (G : forall acc, 0 <= acc ->
            0 <= fold_left (fun acc c => 10 * acc + digit_val c) s acc).
  { induction HF as [|c s Hc Hs IH]; intros acc Hacc; cbn [fold_left];
      [assumption|].
    apply IH. pose proof (digit_val_range c Hc). lia. }
  apply G. lia.
Qed.

Lemma match_line_nonneg (line : str) (s f : Z) :
  match_line line = Some (s, f) -> 0 <= s /\ 0 <= f.
Proof.
  unfold match_line. destruct (is_edge_line line); [|discriminate].
  destruct (Re.search START_FINISH_RE line) as [m|] eqn:E; [|discriminate].
  intros [= <- <-].
  pose proof (search_captures _ _ _ _ START_FINISH_RE_captures E) as Hm.
  assert (G : forall i, Forall is_digit (nth i m [])).
  { intros i. destruct (nth_in_or_default i m []) as [Hin | ->]; [|constructor].
    rewrite Forall_forall in Hm. auto. }
  split; apply int_of_str_nonneg, G.
Qed.

Lemma match_line_bracket (line : str) (p : Z * Z) :
  match_line line = Some p ->
  startswith line (lit "[") = true
  /\ Re.search START_FINISH_RE line <> None.
Proof.
  unfold match_line, is_edge_line.
  destruct (startswith line (lit "[")); [|discriminate].
  destruct (Re.search START_FINISH_RE line); [|rewrite !Tauto.if_same; discriminate].
  split; [reflexivity|discriminate].
Qed.

(** ** Minimum, maximum and sum *)

Lemma fold_opt_some op v vs : fold_opt op (Some v) vs = Some (fold_left op vs v).
Proof.
  revert v. induction vs as [|x vs IH]; intros v; [reflexivity|].
  unfold fold_opt in *. cbn [fold_left]. apply IH.
Qed.

Lemma fold_opt_none op vs :
  fold_opt op None vs
  = match vs with [] => None | v :: r => Some (fold_left op r v) end.
Proof.
  destruct vs as [|v r]; [reflexivity|].
  unfold fold_opt. cbn [fold_left]. apply (fold_opt_some op v r).
Qed.

Lemma fold_min_spec vs : forall v,
  fold_left Z.min vs v <= v
  /\ Forall (fun x => fold_left Z.min vs v <= x) vs
  /\ In (fold_left Z.min vs v) (v :: vs).
Proof.
  induction vs as [|x vs IH]; intros v; cbn [fold_left].
  - repeat split; [lia|constructor|left; reflexivity].
  - destruct (IH (Z.min v x)) as (H1 & H2 & H3). repeat split.
    + lia.
    + constructor; [lia|exact H2].
    + destruct H3 as [H3|H3]; [|right; right; exact H3].
      rewrite <- H3. destruct (Z.min_spec v x) as [[_ ->]|[_ ->]];
        [left|right; left]; reflexivity.
Qed.

Lemma fold_max_spec vs : forall v,
  v <= fold_left Z.max vs v
  /\ Forall (fun x => x <= fold_left Z.max vs v) vs
  /\ In (fold_left Z.max vs v) (v :: vs).
Proof.
  induction vs as [|x vs IH]; intros v; cbn [fold_left].
  - repeat split; [lia|constructor|left; reflexivity].
  - destruct (IH (Z.max v x)) as (H1 & H2 & H3). repeat split.
    + lia.
    + constructor; [lia|exact H2].
    + destruct H3 as [H3|H3]; [|right; right; exact H3].
      rewrite <- H3. destruct (Z.max_spec v x) as [[_ ->]|[_ ->]];
        [right; left|left]; reflexivity.
Qed.

Lemma sum_from (l : list Z) : forall acc, fold_left Z.add l acc = acc + sum l.
Proof.
  unfold sum. induction l as [|x l IH]; intros acc; cbn [fold_left]; [lia|].
  rewrite IH, (IH (0 + x)). lia.
Qed.

Lemma sum_cons (x : Z) (l : list Z) : sum (x :: l) = x + sum l.
Proof. unfold sum at 1. cbn [fold_left]. rewrite sum_from. lia. Qed.

Lemma sum_nonneg (l : list Z) : Forall (fun d => 0 <= d) l -> 0 <= sum l.
Proof.
  induction 1 as [|x l Hx _ IH]; [reflexivity|]. rewrite sum_cons. lia.
Qed.

Lemma sum_ge_each (l : list Z) :
  Forall (fun d => 0 <= d) l -> Forall (fun d => d <= sum l) l.
Proof.
  induction 1 as [|x l Hx Hl IH]; constructor; rewrite sum_cons.
  - pose proof (sum_nonneg l Hl). lia.
  - eapply Forall_impl; [|exact IH]. simpl. intros; lia.
Qed.

Lemma sum_zero (l : list Z) : Forall (fun d => d = 0) l -> sum l = 0.
Proof.
  induction 1 as [|x l Hx _ IH]; [reflexivity|]. rewrite sum_cons. lia.
Qed.

(** ** The observed values *)

(** The earliest start is a lower bound of the starts, is one of them, and is
    there as soon as one line matched; the same for the latest finish. *)
Lemma observed_nonneg (lines : list str) :
  Forall (fun p => 0 <= fst p /\ 0 <= snd p) (observed lines).
Proof.
  unfold observed. apply Forall_flat_map, Forall_forall. intros l _.
  destruct (match_line l) as [[s f]|] eqn:E; constructor; [|constructor].
  exact (match_line_nonneg l s f E).
Qed.

Lemma duration_of_nonneg (es : list (Z * Z)) :
  Forall (fun d => 0 <= d) (map duration_of es).
Proof.
  apply Forall_map, Forall_forall. intros p _. unfold duration_of. lia.
Qed.

Lemma extremes_spec (es : list (Z * Z)) :
  match es with
  | [] => earliest_of es = None /\ latest_of es = None
  | _ :: _ =>
      exists e l, earliest_of es = Some e /\ latest_of es = Some l
        /\ In e (map fst es) /\ In l (map snd es)
        /\ Forall (fun p => e <= fst p /\ snd p <= l) es
  end.
Proof.
  unfold earliest_of, latest_of. rewrite !fold_opt_none.
  destruct es as [|[s f] es]; cbn [map fst snd]; [split; reflexivity|].
  destruct (fold_min_spec (map fst es) s) as (A1 & A2 & A3).
  destruct (fold_max_spec (map snd es) f) as (B1 & B2 & B3).
  eexists _, _. repeat split; try eassumption.
  constructor; [cbn; lia|].
  rewrite Forall_map in A2, B2. rewrite Forall_forall in *.
  intros p Hp. split; [apply A2|apply B2]; exact Hp.
Qed.

Lemma durations_within (es : list (Z * Z)) (e l : Z) :
  Forall (fun p => e <= fst p /\ snd p <= l) es ->
  Forall (fun d => 0 <= d <= Z.max 0 (l - e)) (map duration_of es).
Proof.
  intros H. apply Forall_map. eapply Forall_impl; [|exact H].
  intros [s f]. unfold duration_of. cbn. lia.
Qed.

(** ** The aggregates *)

Lemma length_insert {A} (key : A -> Z) (x : A) (l : list A) :
  length (insert key x l) = S (length l).
Proof.
  induction l as [|y l IH]; simpl; [reflexivity|].
  destruct (key x <=? key y); simpl; congruence.
Qed.

Lemma length_sorted {A} (key : A -> Z) (l : list A) :
  length (sorted key l) = length l.
Proof.
  induction l as [|x l IH]; simpl; [reflexivity|].
  rewrite length_insert. congruence.
Qed.

Lemma p95_index_range (vs : list Z) :
  vs <> [] -> 0 <= p95_index vs < len vs.
Proof.
  destruct vs as [|v vs]; [congruence|]. intros _.
  unfold p95_index, len. cbn [length]. lia.
Qed.

Lemma getitem_in_range (l : list Z) (i : Z) :
  0 <= i < len l -> getitem l i = ret (nth (Z.to_nat i) l 0).
Proof.
  intros H. unfold getitem.
  replace (i <? 0) with false by lia.
  replace ((0 <=? i) && (i <? len l)) with true by lia. reflexivity.
Qed.

Lemma index_from_found (l : list Z) (x : Z) : In x l ->
  forall k, exists i, index_from k l x = ret i /\ k <= i < k + len l.
Proof.
  unfold len. induction l as [|y l IH]; intros Hin k; [contradiction|].
  cbn [index_from length]. destruct (y =? x) eqn:E.
  - exists k. split; [reflexivity|lia].
  - destruct Hin as [->|Hin]; [lia|].
    destruct (IH Hin (k + 1)) as (i & Hi & Hr). exists i. split; [exact Hi|lia].
Qed.

Lemma max_of_spec (ds : list Z) : ds <> [] ->
  In (max_of ds) ds /\ Forall (fun d => d <= max_of ds) ds.
Proof.
  destruct ds as [|x r]; [congruence|]. intros _. unfold max_of.
  destruct (fold_max_spec r x) as (H1 & H2 & H3). split; [exact H3|].
  constructor; assumption.
Qed.

Lemma finite_round_le_one (a b : Z) :
  0 <= a <= b -> 0 < b -> Float.finite (Float.round a b) = true.
Proof.
  intros Ha Hb. unfold Float.round. destruct (a =? 0) eqn:E; [reflexivity|].
  unfold Float.finite, Float.round_pos. cbn [Float.fexp].
  assert (HL : Float.ilog2 (Z.abs a) b <= 0).
  { unfold Float.ilog2.
    assert (Z.log2 (Z.abs a) <= Z.log2 b) by (apply Z.log2_le_mono; lia).
    destruct (Float.pow2_le _ _ _); lia. }
  replace (0 <=? Z.max (Float.ilog2 (Z.abs a) b - 52) Float.emin) with false;
    [reflexivity|].
  unfold Float.emin. lia.
Qed.

Lemma true_div_pos (a b : Z) : 0 < b ->
  Float.true_div a b
  = if Float.finite (Float.round a b) then ret (Float.round a b)
    else raise OverflowError.
Proof.
  intros Hb. unfold Float.true_div.
  replace (b =? 0) with false by lia.
  rewrite Z.sgn_pos, Z.mul_1_r, Z.abs_eq by lia. reflexivity.
Qed.

Lemma aggregate_spec (ds : list Z) (total : Z) :
  Forall (fun d => 0 <= d) ds ->
  (0 < total -> max_of ds <= total) ->
  aggregate ds total
  = if mean_overflows ds then raise OverflowError
    else ret (features_of ds total).
Proof.
  intros Hds Htot. unfold aggregate, mean_overflows, features_of.
  destruct ds as [|d ds'] eqn:Eds.
  - cbn. destruct (0 <? total) eqn:Et; [|reflexivity].
    apply Z.ltb_lt in Et. rewrite true_div_pos by exact Et. reflexivity.
  - rewrite <- Eds in *. assert (Hne : ds <> []) by (subst; discriminate).
    replace (nonempty ds) with true by (subst; reflexivity).
    assert (Hlen : 0 < len ds) by (subst; unfold len; cbn [length]; lia).
    destruct (max_of_spec ds Hne) as [Hin Hmax].
    assert (Hpy : py_max ds = ret (max_of ds)) by (subst; reflexivity).
    rewrite Hpy. cbn [bind ret].
    rewrite true_div_pos by exact Hlen. cbn [andb].
    destruct (Float.finite (Float.round (sum ds) (len ds))); cbn [bind ret raise negb];
      [|reflexivity].
    set (vs := sorted (fun d => d) ds).
    assert (Hvs : vs <> []).
    { intros E. apply (f_equal (@length Z)) in E. unfold vs in E.
      rewrite length_sorted in E. subst ds. discriminate. }
    replace (nonempty vs) with true by (destruct vs; [congruence|reflexivity]).
    rewrite getitem_in_range by (apply p95_index_range; exact Hvs).
    cbn [bind ret].
    assert (Hratio :
      (if 0 <? total then Float.true_div (max_of ds) total else ret Float.zero)
      = ret (if 0 <? total then Float.round (max_of ds) total else Float.zero)).
    { destruct (0 <? total) eqn:Et; [|reflexivity].
      apply Z.ltb_lt in Et. rewrite true_div_pos by exact Et.
      rewrite finite_round_le_one; [reflexivity| |exact Et].
      split; [|auto]. rewrite Forall_forall in Hds. apply Hds, Hin. }
    rewrite Hratio. cbn [bind ret].
    destruct (index_from_found ds (max_of ds) Hin 0) as (i & Hi & _).
    unfold py_index. rewrite Hi. cbn [bind ret]. subst ds. reflexivity.
Qed.

(** ** The two totals *)

Lemma all_zero_when_reversed (es : list (Z * Z)) (e l : Z) :
  Forall (fun p => e <= fst p /\ snd p <= l) es -> l < e ->
  sum (map duration_of es) = 0.
Proof.
  intros H Hlt. apply sum_zero.
  apply durations_within in H. eapply Forall_impl; [|exact H].
  simpl. intros; lia.
Qed.

Lemma scan_state_spec (lines : list str) :
  durations (scan lines) = edge_durations_of lines
  /\ earliest (scan lines) = earliest_of (observed lines)
  /\ latest (scan lines) = latest_of (observed lines)
  /\ ann_lines (scan lines) = map annotated_line lines.
Proof. exact (scan_fields lines). Qed.

Lemma BalancedTestset_total_spec (lines : list str) :
  BalancedTestset.total (scan lines) = span_of (observed lines).
Proof.
  unfold BalancedTestset.total, span_of.
  destruct (scan_state_spec lines) as (-> & -> & -> & _).
  pose proof (extremes_spec (observed lines)) as HX.
  destruct (observed lines) as [|p es] eqn:E.
  - destruct HX as [-> _]. unfold edge_durations_of. rewrite E. reflexivity.
  - destruct HX as (e & l & -> & -> & _ & _ & HF).
    destruct (e <=? l) eqn:El; [reflexivity|].
    apply Z.leb_gt in El. unfold edge_durations_of. rewrite E.
    rewrite (all_zero_when_reversed _ e l HF El). lia.
Qed.

Lemma TraceEvol_total_spec (lines : list str) :
  earliest_of (observed lines) <> Some 0 ->
  TraceEvol.total (scan lines) = span_of (observed lines).
Proof.
  intros Hz. rewrite <- BalancedTestset_total_spec.
  unfold BalancedTestset.total, TraceEvol.total, truthy.
  destruct (scan_state_spec lines) as (-> & -> & -> & _).
  pose proof (extremes_spec (observed lines)) as HX.
  pose proof (observed_nonneg lines) as HN.
  destruct (observed lines) as [|p es] eqn:E.
  - destruct HX as [-> _]. reflexivity.
  - destruct HX as (e & l & He & Hl & Hine & Hinl & HF).
    rewrite He, Hl in *.
    assert (e <> 0) by congruence.
    replace (e =? 0) with false by lia. cbn [negb andb].
    destruct (l =? 0) eqn:El0; [|reflexivity]. cbn [negb andb].
    apply Z.eqb_eq in El0. subst l.
    assert (0 <= e).
    { rewrite in_map_iff in Hine. destruct Hine as (q & <- & Hq).
      rewrite Forall_forall in HN. apply HN, Hq. }
    replace (e <=? 0) with false by lia. reflexivity.
Qed.

Lemma max_of_le_sum (ds : list Z) :
  Forall (fun d => 0 <= d) ds -> max_of ds <= sum ds.
Proof.
  intros H. destruct ds as [|d ds'] eqn:E; [reflexivity|]. rewrite <- E in *.
  assert (Hne : ds <> []) by (subst; discriminate).
  destruct (max_of_spec ds Hne) as [Hin _].
  pose proof (sum_ge_each ds H) as HS. rewrite Forall_forall in HS.
  apply HS, Hin.
Qed.

Lemma max_of_le_span (es : list (Z * Z)) :
  max_of (map duration_of es) <= span_of es.
Proof.
  unfold span_of. pose proof (extremes_spec es) as HX.
  destruct es as [|p es'] eqn:E.
  - destruct HX as [-> _]. cbn. lia.
  - rewrite <- E in *. destruct HX as (e & l & -> & -> & _ & _ & HF).
    assert (Hne : map duration_of es <> []) by (subst; discriminate).
    destruct (max_of_spec _ Hne) as [Hin _].
    apply durations_within in HF. rewrite Forall_forall in HF.
    apply HF, Hin.
Qed.

Lemma total_is_sum_or_span (lines : list str) :
  (TraceEvol.total (scan lines) = sum (edge_durations_of lines)
   \/ TraceEvol.total (scan lines) = span_of (observed lines)).
Proof.
  unfold TraceEvol.total.
  destruct (scan_state_spec lines) as (Hd & He & Hl & _).
  rewrite Hd, He, Hl. unfold span_of.
  destruct (earliest_of (observed lines)) as [e|]; [|left; reflexivity].
  destruct (latest_of (observed lines)) as [l|]; [|left; reflexivity].
  destruct (_ && _); [right|left]; reflexivity.
Qed.

(** ** The two annotators, in closed form *)

Lemma TraceEvol_annotate_lines_spec (lines : list str) :
  TraceEvol.annotate_lines lines
  = if mean_overflows (edge_durations_of lines) then raise OverflowError
    else ret (mkAnnotation
                (features_of (edge_durations_of lines)
                             (TraceEvol.total (scan lines)))
                (edge_durations_of lines)
                (map annotated_line lines)).
Proof.
  unfold TraceEvol.annotate_lines.
  destruct (scan_state_spec lines) as (Hd & _ & _ & Ha).
  rewrite aggregate_spec.
  - rewrite Hd, Ha. destruct (mean_overflows _); reflexivity.
  - rewrite Hd. apply duration_of_nonneg.
  - intros _. rewrite Hd.
    destruct (total_is_sum_or_span lines) as [-> | ->].
    + apply max_of_le_sum, duration_of_nonneg.
    + apply max_of_le_span.
Qed.

Lemma BalancedTestset_annotate_lines_spec (lines : list str) :
  BalancedTestset.annotate_lines lines
  = if mean_overflows (edge_durations_of lines) then raise OverflowError
    else ret (mkAnnotation
                (features_of (edge_durations_of lines)
                             (span_of (observed lines)))
                (edge_durations_of lines)
                (map annotated_line lines)).
Proof.
  unfold BalancedTestset.annotate_lines.
  destruct (scan_state_spec lines) as (Hd & _ & _ & Ha).
  rewrite aggregate_spec.
  - rewrite Hd, Ha, BalancedTestset_total_spec.
    destruct (mean_overflows _); reflexivity.
  - rewrite Hd. apply duration_of_nonneg.
  - intros _. rewrite Hd, BalancedTestset_total_spec. apply max_of_le_span.
Qed.

(** From [annotate txt = inr a] to the closed form of [a]. *)
Ltac returned_evol H :=
  unfold TraceEvol.annotate in H;
  rewrite TraceEvol_annotate_lines_spec in H;
  destruct (mean_overflows _); [discriminate H|];
  injection H as <-.

Ltac returned_balanced H :=
  unfold BalancedTestset.annotate in H;
  rewrite BalancedTestset_annotate_lines_spec in H;
  destruct (mean_overflows _); [discriminate H|];
  injection H as <-.

(* ===================================================================== *)
(** * The annotator: total latency *)
(* ===================================================================== *)

(** In [build_balanced_testset.py] the total is the wall-clock span of the
    observed values as soon as one line matched, and 0 (the empty sum)
    otherwise. *)
Lemma BalancedTestset_total_latency (txt : str) (b : annotation) :
  BalancedTestset.annotate txt = inr b ->
  total_latency_ms (stats b) = span_of (observed (BalancedTestset.kept_lines txt))
  /\ (observed (BalancedTestset.kept_lines txt) = [] ->
      total_latency_ms (stats b) = sum (edge_durations b)).
Proof.
  intros H. returned_balanced H. cbn.
  split; [reflexivity|]. unfold edge_durations_of. intros ->. reflexivity.
Qed.

(** In [trace_evol.py] the same holds as long as the earliest start is not
    0. *)
Lemma TraceEvol_total_latency (txt : str) (a : annotation) :
  earliest_of (observed (splitlines txt)) <> Some 0 ->
  TraceEvol.annotate txt = inr a ->
  total_latency_ms (stats a) = span_of (observed (splitlines txt)).
Proof.
  intros Hz H. returned_evol H. cbn.
  apply TraceEvol_total_spec, Hz.
Qed.

(** C1, on the code of [trace_evol.py]: for the two edges 0..100 and 50..80
    both a start and a finish were observed, the latest finish minus the
    earliest start is 100, and [total_latency_ms] is 130, the sum of the
    durations, because the earliest start 0 counts as false in the test.
    The copy in [build_balanced_testset.py] returns 100. *)
Theorem C1_trace_evol_total_of_two_edges :
  observed (splitlines two_edges) = [(0, 100); (50, 80)]
  /\ span_of (observed (splitlines two_edges)) = 100
  /\ (exists a, TraceEvol.annotate two_edges = inr a
                /\ total_latency_ms (stats a) = 130)
  /\ (exists d, TraceEvol.parse_trace_and_stats two_edges = inr d
                /\ TraceEvol.d_total_latency_ms d = 130)
  /\ (exists b, BalancedTestset.annotate two_edges = inr b
                /\ total_latency_ms (stats b) = 100).
Proof.
  split; [reflexivity|]. split; [reflexivity|].
  split; [|split]; eexists; (split; [vm_compute; reflexivity|reflexivity]).
Qed.

(* ===================================================================== *)
(** * The annotator: the lines *)
(* ===================================================================== *)

Lemma matched_bracketed (line : str) :
  matched line = true -> bracketed_match line = true.
Proof.
  unfold matched, bracketed_match.
  destruct (match_line line) as [p|] eqn:E; [|discriminate]. intros _.
  destruct (match_line_bracket line p E) as [-> H].
  destruct (Re.search _ _); [reflexivity|congruence].
Qed.

Lemma matched_kept (line : str) : matched line = true -> kept line = true.
Proof.
  intros H. apply matched_bracketed in H. unfold bracketed_match in H.
  apply andb_true_iff in H. destruct H as [H _].
  unfold kept. rewrite strip_nonempty.
  rewrite (startswith_bracket_nonblank line H). reflexivity.
Qed.

Lemma observed_filter (f : str -> bool) (lines : list str) :
  (forall l, matched l = true -> f l = true) ->
  observed (filter f lines) = observed lines.
Proof.
  intros Hf. unfold observed.
  induction lines as [|l lines IH]; [reflexivity|]. cbn [filter flat_map].
  destruct (f l) eqn:E; cbn [flat_map]; rewrite IH; [reflexivity|].
  specialize (Hf l). unfold matched in Hf.
  destruct (match_line l); [|reflexivity].
  rewrite Hf in E by reflexivity. discriminate.
Qed.




Lemma annotated_line_unmatched (line : str) :
  bracketed_match line = false -> annotated_line line = line.
Proof.
  intros H. unfold annotated_line.
  destruct (match_line line) as [p|] eqn:E; [|reflexivity].
  assert (matched line = true) by (unfold matched; rewrite E; reflexivity).
  apply matched_bracketed in H0. congruence.
Qed.

(* ===================================================================== *)
(** * The two annotators compared *)
(* ===================================================================== *)


(** On the same text the totals are 130 and 100. *)
Lemma two_edges_apart_totals :
  total_of (TraceEvol.annotate two_edges_apart) = Some 130
  /\ total_of (BalancedTestset.annotate two_edges_apart) = Some 100.
Proof. split; vm_compute; reflexivity. Qed.



(* ===================================================================== *)
(** * The annotator: lines that do not match *)
(* ===================================================================== *)

(** C5 as stated fails for [build_balanced_testset.py]: the empty second line
    of [three_lines] is dropped, and the third line takes its place. *)
Lemma C5_counterexample : ~ passes_through BalancedTestset.annotate.
Proof.
  intros H.
  assert (E : exists a, BalancedTestset.annotate three_lines = inr a
                        /\ nth_error (lines_out a) 1 = Some (lit "b")).
  { eexists. split; vm_compute; reflexivity. }
  destruct E as (a & Ea & Eb).
  specialize (H three_lines a 1%nat [] Ea eq_refl eq_refl).
  rewrite H in Eb. discriminate Eb.
Qed.

Lemma nth_error_annotated (lines : list str) (i : nat) (line : str) :
  nth_error lines i = Some line ->
  bracketed_match line = false ->
  nth_error (map annotated_line lines) i = Some line.
Proof.
  intros Hn Hb. rewrite nth_error_map, Hn. cbn.
  rewrite (annotated_line_unmatched line Hb). reflexivity.
Qed.

Lemma length_observed (lines : list str) :
  length (observed lines) = length (filter matched lines).
Proof.
  unfold observed, matched. induction lines as [|l lines IH]; [reflexivity|].
  cbn [flat_map filter]. rewrite length_app, IH.
  destruct (match_line l); reflexivity.
Qed.

Lemma TraceEvol_stats_of_observed (l1 l2 : list str) :
  observed l1 = observed l2 ->
  stats_of (TraceEvol.annotate_lines l1) = stats_of (TraceEvol.annotate_lines l2).
Proof.
  intros H. rewrite !TraceEvol_annotate_lines_spec.
  assert (Ht : TraceEvol.total (scan l1) = TraceEvol.total (scan l2)).
  { unfold TraceEvol.total.
    destruct (scan_state_spec l1) as (-> & -> & -> & _).
    destruct (scan_state_spec l2) as (-> & -> & -> & _).
    unfold edge_durations_of. rewrite H. reflexivity. }
  unfold edge_durations_of. rewrite H, Ht.
  destruct (mean_overflows _); reflexivity.
Qed.

Lemma BalancedTestset_stats_of_observed (l1 l2 : list str) :
  observed l1 = observed l2 ->
  stats_of (BalancedTestset.annotate_lines l1)
  = stats_of (BalancedTestset.annotate_lines l2).
Proof.
  intros H. rewrite !BalancedTestset_annotate_lines_spec.
  unfold edge_durations_of. rewrite H.
  destruct (mean_overflows _); reflexivity.
Qed.

(** C5, amended.  In [trace_evol.py] every line that is not a bracketed match
    is in the output unchanged and at its position.  In
    [build_balanced_testset.py] the lines of white space are dropped first,
    and every other line that is not a bracketed match is in the output
    unchanged, at its position among the lines that are kept.  In both, the
    features are those of the text without the lines that are not bracketed
    matches, [num_edges] is the number of lines on which the match of the
    code succeeded, and each of these is a bracketed match. *)
Theorem C5_unmatched_lines_pass_through :
  passes_through TraceEvol.annotate
  /\ (forall txt b i line,
        BalancedTestset.annotate txt = inr b ->
        nth_error (BalancedTestset.kept_lines txt) i = Some line ->
        bracketed_match line = false ->
        nth_error (lines_out b) i = Some line)
  /\ (forall txt a,
        TraceEvol.annotate txt = inr a ->
        length (lines_out a) = length (splitlines txt)
        /\ num_edges (stats a) = len (filter matched (splitlines txt)))
  /\ (forall txt b,
        BalancedTestset.annotate txt = inr b ->
        length (lines_out b) = length (BalancedTestset.kept_lines txt)
        /\ num_edges (stats b) = len (filter matched (splitlines txt)))
  /\ (forall lines,
        stats_of (TraceEvol.annotate_lines (filter bracketed_match lines))
        = stats_of (TraceEvol.annotate_lines lines))
  /\ (forall lines,
        stats_of (BalancedTestset.annotate_lines (filter bracketed_match lines))
        = stats_of (BalancedTestset.annotate_lines lines))
  /\ (forall line, matched line = true -> bracketed_match line = true).
Proof.
  split; [|split; [|split; [|split; [|split; [|split]]]]].
  - intros txt a i line Ha Hn Hb. returned_evol Ha.
    cbn [lines_out]. apply nth_error_annotated; assumption.
  - intros txt b i line Hb Hn Hm. returned_balanced Hb.
    cbn [lines_out]. apply nth_error_annotated; assumption.
  - intros txt a Ha. returned_evol Ha.
    cbn [lines_out stats]. unfold features_of. cbn [num_edges].
    split; [apply length_map|].
    unfold len, edge_durations_of. rewrite length_map, length_observed.
    reflexivity.
  - intros txt b Hb. returned_balanced Hb.
    cbn [lines_out stats]. unfold features_of. cbn [num_edges].
    split; [apply length_map|].
    unfold len, edge_durations_of, BalancedTestset.kept_lines. fold kept.
    rewrite (observed_filter kept _ matched_kept).
    rewrite length_map, length_observed. reflexivity.
  - intros lines. apply TraceEvol_stats_of_observed.
    apply observed_filter, matched_bracketed.
  - intros lines. apply BalancedTestset_stats_of_observed.
    apply observed_filter, matched_bracketed.
  - exact matched_bracketed.
Qed.

Lemma C5_unmatched_lines_pass_through_witness :
  exists a,
    TraceEvol.annotate mixed_lines = inr a
    /\ nth_error (lines_out a) 2
       = Some (lit "[Edge ID is b, Communication starts at 7 ms]")
    /\ num_edges (stats a) = 1.
Proof.
  destruct C5_unmatched_lines_pass_through as (Hp & _ & Hn & _).
  assert (E : line_count (TraceEvol.annotate mixed_lines) = Some 3%nat)
    by (vm_compute; reflexivity).
  destruct (TraceEvol.annotate mixed_lines) as [e|a] eqn:Ea;
    [discriminate E|].
  exists a. split; [reflexivity|]. split.
  - apply (Hp mixed_lines a 2%nat _ Ea); reflexivity.
  - destruct (Hn mixed_lines a Ea) as [_ ->]. reflexivity.
Defined.

(* ===================================================================== *)
(** * The annotator: how a matched line is rewritten *)
(* ===================================================================== *)

Lemma rstrip_no_trailing_space (pre : str) (c : ascii) :
  isspace c = false -> rstrip (pre ++ [c]) = pre ++ [c].
Proof.
  intros H. unfold rstrip. rewrite rev_app_distr. cbn [rev app lstrip].
  rewrite H. cbn [rev]. rewrite rev_involutive. reflexivity.
Qed.

(** A matched line adds [max(0, finish - start)] to the durations, and when
    it does not end in white space it is rewritten as specified. *)
Lemma scan_line_matched (st : scan_state) (line : str) (s f : Z) :
  match_line line = Some (s, f) ->
  durations (scan_line st line) = durations st ++ [Z.max 0 (f - s)]
  /\ ann_lines (scan_line st line)
     = ann_lines st ++ [rewrite_line line (Z.max 0 (f - s))]
  /\ (rstrip line = line ->
      rewrite_line line (Z.max 0 (f - s))
      = rewrite_as_specified line (Z.max 0 (f - s))).
Proof.
  intros H. unfold scan_line. rewrite H. cbn [durations ann_lines].
  repeat split. unfold rewrite_line, rewrite_as_specified. intros ->.
  reflexivity.
Qed.

(** C6, on the code: the line matches with start 1 and finish 6 and ends
    neither with "]." nor with "]", so it should get " (duration=5 ms)"
    appended; the code tests the line without its trailing white space but
    cuts the line itself, and writes "...finishes at 6 ms], duration=5 ms]."
    instead. *)
Theorem C6_trailing_blank_rewritten_wrongly :
  match_line trailing_blank_line = Some (1, 6)
  /\ endswith trailing_blank_line (lit "].") = false
  /\ endswith trailing_blank_line (lit "]") = false
  /\ durations (scan [trailing_blank_line]) = [5]
  /\ ann_lines (scan [trailing_blank_line])
     = [lit "[Edge ID is a, Communication starts at 1 ms, Communication finishes at 6 ms], duration=5 ms]."]
  /\ rewrite_as_specified trailing_blank_line 5
     = lit "[Edge ID is a, Communication starts at 1 ms, Communication finishes at 6 ms].  (duration=5 ms)".
Proof. repeat split; vm_compute; reflexivity. Qed.

(* ===================================================================== *)
(** * Rounding *)
(* ===================================================================== *)

Lemma rne_cases (x y : Z) :
  0 < y ->
  (Float.rne x y = x / y /\ 2 * (x mod y) <= y)
  \/ (Float.rne x y = x / y + 1 /\ y <= 2 * (x mod y)).
Proof.
  intros Hy. unfold Float.rne.
  destruct (Z.compare_spec (2 * (x mod y)) y) as [E|E|E].
  - destruct (Z.even (x / y)); [left|right]; split; lia.
  - left. split; lia.
  - right. split; lia.
Qed.

(** The rounded quotient is within one half of the quotient. *)
Lemma rne_bounds (x y : Z) :
  0 < y ->
  2 * y * Float.rne x y - y <= 2 * x <= 2 * y * Float.rne x y + y.
Proof.
  intros Hy. pose proof (Z.div_mod x y ltac:(lia)) as Hx.
  pose proof (Z.mod_pos_bound x y Hy) as Hr.
  destruct (rne_cases x y Hy) as [[-> H]|[-> H]]; nia.
Qed.

(** Rounding does not cross an integer. *)
Lemma rne_le (k x y : Z) : 0 < y -> x <= k * y -> Float.rne x y <= k.
Proof.
  intros Hy Hk. pose proof (Z.div_mod x y ltac:(lia)) as Hx.
  pose proof (Z.mod_pos_bound x y Hy) as Hr.
  assert (Hq : x / y <= k) by (apply Z.div_le_upper_bound; lia).
  unfold Float.rne.
  destruct (Z.compare_spec (2 * (x mod y)) y) as [E|E|E];
    [destruct (Z.even (x / y))| |]; try lia; nia.
Qed.

Lemma rne_ge (k x y : Z) : 0 < y -> k * y <= x -> k <= Float.rne x y.
Proof.
  intros Hy Hk.
  assert (Hq : k <= x / y) by (apply Z.div_le_lower_bound; lia).
  destruct (rne_cases x y Hy) as [[-> _]|[-> _]]; lia.
Qed.

Lemma rne_exact (k : Z) : Float.rne k 1 = k.
Proof.
  unfold Float.rne. rewrite Z.mod_1_r, Z.div_1_r. reflexivity.
Qed.

Lemma rne_scale (x y k : Z) :
  0 < y -> 0 < k -> Float.rne (x * k) (y * k) = Float.rne x y.
Proof.
  intros Hy Hk. unfold Float.rne.
  rewrite Z.div_mul_cancel_r by lia.
  rewrite Z.mul_mod_distr_r by lia.
  destruct (Z.compare_spec (2 * (x mod y * k)) (y * k)),
    (Z.compare_spec (2 * (x mod y)) y); try reflexivity; nia.
Qed.


(** The exponent that [ilog2] finds. *)
Lemma ilog2_spec (a b : Z) :
  0 < a -> 0 < b ->
  Float.pow2_le (Float.ilog2 a b) a b = true
  /\ Float.pow2_le (Float.ilog2 a b + 1) a b = false.
Proof.
  intros Ha Hb. unfold Float.ilog2.
  pose proof (Z.log2_spec a Ha) as [Ha1 Ha2].
  pose proof (Z.log2_spec b Hb) as [Hb1 Hb2].
  pose proof (Z.log2_nonneg a) as Hla. pose proof (Z.log2_nonneg b) as Hlb.
  set (la := Z.log2 a) in *. set (lb := Z.log2 b) in *.
  rewrite <- Z.add_1_r in Ha2, Hb2.
  assert (Hup : Float.pow2_le (la - lb + 1) a b = false).
  { unfold Float.pow2_le. destruct (0 <=? la - lb + 1) eqn:Es.
    - apply Z.leb_gt. apply Z.leb_le in Es.
      assert (2 ^ (la + 1) = 2 ^ (la - lb + 1) * 2 ^ lb).
      { rewrite <- Z.pow_add_r by lia. f_equal. lia. }
      assert (0 < 2 ^ (la - lb + 1)) by (apply Z.pow_pos_nonneg; lia).
      nia.
    - apply Z.leb_gt. apply Z.leb_gt in Es.
      assert (2 ^ lb = 2 ^ (la + 1) * 2 ^ (- (la - lb + 1))).
      { rewrite <- Z.pow_add_r by lia. f_equal. lia. }
      assert (0 < 2 ^ (- (la - lb + 1))) by (apply Z.pow_pos_nonneg; lia).
      nia. }
  assert (Hdown : Float.pow2_le (la - lb - 1) a b = true).
  { unfold Float.pow2_le. destruct (0 <=? la - lb - 1) eqn:Es.
    - apply Z.leb_le. apply Z.leb_le in Es.
      assert (2 ^ la = 2 ^ (la - lb - 1) * 2 ^ (lb + 1)).
      { rewrite <- Z.pow_add_r by lia. f_equal. lia. }
      assert (0 < 2 ^ (la - lb - 1)) by (apply Z.pow_pos_nonneg; lia).
      nia.
    - apply Z.leb_le. apply Z.leb_gt in Es.
      assert (2 ^ (lb + 1) = 2 ^ la * 2 ^ (- (la - lb - 1))).
      { rewrite <- Z.pow_add_r by lia. f_equal. lia. }
      assert (0 < 2 ^ (- (la - lb - 1))) by (apply Z.pow_pos_nonneg; lia).
      nia. }
  destruct (Float.pow2_le (la - lb) a b) eqn:E.
  - split; assumption.
  - split; [assumption|].
    replace (la - lb - 1 + 1) with (la - lb) by lia. assumption.
Qed.

Lemma pow2_split (p q : Z) : 0 <= p -> 0 <= q -> 2 ^ (p + q) = 2 ^ p * 2 ^ q.
Proof. intros. apply Z.pow_add_r; assumption. Qed.

Lemma pow2_pos (p : Z) : 0 <= p -> 0 < 2 ^ p.
Proof. intros. apply Z.pow_pos_nonneg; lia. Qed.

(** A quotient in [2^L, 2^(L+1)) with [L < 52] is scaled by [2^(52-L)] and
    rounded to an integer in [2^52, 2^53]. *)
Lemma round_pos_small (a b : Z) :
  0 < a -> 0 < b ->
  Float.emin <= Float.ilog2 a b - 52 -> Float.ilog2 a b < 52 ->
  let s := 52 - Float.ilog2 a b in
  Float.round_pos a b = Float.mk (Float.rne (a * 2 ^ s) b) (- s)
  /\ b * 2 ^ 52 <= a * 2 ^ s < b * 2 ^ 53.
Proof.
  intros Ha Hb Hmin Hlt s.
  destruct (ilog2_spec a b Ha Hb) as [Hlo Hhi].
  unfold Float.round_pos. set (L := Float.ilog2 a b) in *.
  rewrite Z.max_l by lia.
  replace (0 <=? L - 52) with false by lia.
  replace (- (L - 52)) with s by (unfold s; lia).
  replace (L - 52) with (- s) by (unfold s; lia).
  split; [reflexivity|].
  assert (Hs : 0 < s) by (unfold s; lia).
  pose proof (pow2_pos s ltac:(lia)) as Hps.
  unfold Float.pow2_le in Hlo, Hhi.
  destruct (0 <=? L) eqn:EL.
  - apply Z.leb_le in EL, Hlo.
    replace (0 <=? L + 1) with true in Hhi by lia. apply Z.leb_gt in Hhi.
    assert (E1 : 2 ^ 52 = 2 ^ L * 2 ^ s)
      by (rewrite <- pow2_split by lia; f_equal; unfold s; lia).
    assert (E2 : 2 ^ 53 = 2 ^ (L + 1) * 2 ^ s)
      by (rewrite <- pow2_split by lia; f_equal; unfold s; lia).
    rewrite E1, E2. split; nia.
  - apply Z.leb_gt in EL. apply Z.leb_le in Hlo.
    assert (E1 : 2 ^ s = 2 ^ (- L) * 2 ^ 52)
      by (rewrite <- pow2_split by lia; f_equal; unfold s; lia).
    split; [rewrite E1; nia|].
    destruct (0 <=? L + 1) eqn:EL1.
    + apply Z.leb_le in EL1. apply Z.leb_gt in Hhi.
      assert (HL : L = -1) by lia.
      replace (L + 1) with 0 in Hhi by lia. rewrite Z.pow_0_r in Hhi.
      replace s with 53 by (unfold s; lia). nia.
    + apply Z.leb_gt in EL1, Hhi.
      assert (E2 : 2 ^ s = 2 ^ (- (L + 1)) * 2 ^ 53)
        by (rewrite <- pow2_split by lia; f_equal; unfold s; lia).
      rewrite E2. nia.
Qed.

(** A quotient in [2^L, 2^(L+1)) with [52 <= L] is rounded to a multiple of
    [2^(L-52)]. *)
Lemma round_pos_large (a b : Z) :
  0 < a -> 0 < b -> 52 <= Float.ilog2 a b ->
  let e := Float.ilog2 a b - 52 in
  Float.round_pos a b = Float.mk (Float.rne a (b * 2 ^ e)) e
  /\ b * 2 ^ e * 2 ^ 52 <= a < b * 2 ^ e * 2 ^ 53.
Proof.
  intros Ha Hb Hge e.
  destruct (ilog2_spec a b Ha Hb) as [Hlo Hhi].
  unfold Float.round_pos. set (L := Float.ilog2 a b) in *.
  rewrite Z.max_l by (unfold Float.emin; lia).
  fold e. replace (0 <=? e) with true by (unfold e; lia).
  split; [reflexivity|].
  unfold Float.pow2_le in Hlo, Hhi.
  replace (0 <=? L) with true in Hlo by lia.
  replace (0 <=? L + 1) with true in Hhi by lia.
  apply Z.leb_le in Hlo. apply Z.leb_gt in Hhi.
  assert (E1 : 2 ^ L = 2 ^ e * 2 ^ 52)
    by (rewrite <- pow2_split by (unfold e; lia); f_equal; unfold e; lia).
  assert (E2 : 2 ^ (L + 1) = 2 ^ e * 2 ^ 53)
    by (rewrite <- pow2_split by (unfold e; lia); f_equal; unfold e; lia).
  rewrite E1 in Hlo. rewrite E2 in Hhi. split; nia.
Qed.

(** ** When a quotient of integers is a finite binary64 *)



(* ===================================================================== *)
(** * The annotator: when it returns *)
(* ===================================================================== *)









(* ===================================================================== *)
(** * The annotator: the 95th percentile *)
(* ===================================================================== *)

Lemma ceil_div_unique (M t K : Z) :
  0 < t -> (K - 1) * t < M <= K * t -> - ((- M) / t) = K.
Proof.
  intros Ht H. rewrite <- (Z.div_unique (- M) t (- K) (K * t - M)); lia.
Qed.

Lemma ceil_95_percent_spec (N : Z) :
  19 * N <= 20 * ceil_95_percent N /\ 20 * (ceil_95_percent N - 1) <= 19 * N - 1.
Proof.
  unfold ceil_95_percent.
  pose proof (Z.div_mod (- (95 * N)) 100 ltac:(lia)) as H.
  pose proof (Z.mod_pos_bound (- (95 * N)) 100 ltac:(lia)) as Hr.
  lia.
Qed.

(** [float(n)] is exact for a length up to [2 ^ 48]. *)
Lemma of_len_small (n : nat) :
  1 <= Z.of_nat n <= 2 ^ 48 ->
  exists s, 0 <= s /\ Float.of_len n = Float.mk (Z.of_nat n * 2 ^ s) (- s).
Proof.
  intros [Hn1 Hn2]. set (N := Z.of_nat n) in *.
  unfold Float.of_len, Float.round. fold N.
  replace (N =? 0) with false by lia.
  rewrite Z.sgn_pos, Z.abs_eq, Z.mul_1_l by lia.
  destruct (ilog2_spec N 1 ltac:(lia) ltac:(lia)) as [Hlo Hhi].
  set (L := Float.ilog2 N 1) in *.
  assert (HL0 : 0 <= L).
  { destruct (Z_lt_le_dec L 0) as [Hneg|]; [|assumption]. exfalso.
    unfold Float.pow2_le in Hhi. destruct (0 <=? L + 1) eqn:E.
    - apply Z.leb_le in E. apply Z.leb_gt in Hhi.
      replace (L + 1) with 0 in Hhi by lia. simpl in Hhi. lia.
    - apply Z.leb_gt in E, Hhi.
      pose proof (pow2_pos (- (L + 1)) ltac:(lia)). nia. }
  assert (HL1 : L <= 48).
  { destruct (Z_lt_le_dec 48 L) as [Hbig|]; [|lia]. exfalso.
    unfold Float.pow2_le in Hlo. replace (0 <=? L) with true in Hlo by lia.
    apply Z.leb_le in Hlo.
    assert (2 ^ 49 <= 2 ^ L) by (apply Z.pow_le_mono_r; lia).
    assert (2 ^ 48 < 2 ^ 49) by (vm_compute; reflexivity). lia. }
  destruct (round_pos_small N 1 ltac:(lia) ltac:(lia)) as [Hr _].
  { fold L. unfold Float.emin. lia. }
  { fold L. lia. }
  fold L in Hr. cbv zeta in Hr. exists (52 - L). split; [lia|].
  rewrite Hr, rne_exact. cbn [Float.fnum Float.fexp]. reflexivity.
Qed.

(** The product [0.95 * len] and its ceiling agree with the rationals up to a
    length of [2 ^ 48]. *)
Lemma ceil_mul_0_95 (n : nat) :
  1 <= Z.of_nat n <= 2 ^ 48 ->
  Float.ceil (Float.mul Float.lit_0_95 (Float.of_len n))
  = ceil_95_percent (Z.of_nat n).
Proof.
  intros Hn. destruct (of_len_small n Hn) as (s1 & Hs1 & ->).
  destruct Hn as [Hn1 Hn2]. set (N := Z.of_nat n) in *.
  rewrite lit_0_95_value. unfold Float.mul. cbn [Float.fnum Float.fexp].
  set (c := 8556839292003942).
  replace (0 <=? -53 + - s1) with false by lia.
  replace (- (-53 + - s1)) with (53 + s1) by lia.
  rewrite pow2_split by lia.
  pose proof (pow2_pos s1 Hs1) as Hp1. set (p1 := 2 ^ s1) in *.
  assert (Hc1 : 2 ^ 52 < c) by (vm_compute; reflexivity).
  assert (Hc2 : 20 * c = 19 * 2 ^ 53 - 8) by (vm_compute; reflexivity).
  assert (H53 : 2 ^ 53 = 9007199254740992) by reflexivity.
  set (a := c * (N * p1)). set (b := 2 ^ 53 * p1).
  assert (Ha : 0 < a) by (unfold a; nia).
  assert (Hb : 0 < b) by (unfold b; nia).
  unfold Float.round. replace (a =? 0) with false by lia.
  rewrite Z.sgn_pos, Z.abs_eq by lia.
  destruct (ilog2_spec a b Ha Hb) as [Hlo Hhi].
  set (L := Float.ilog2 a b) in *.
  assert (HL0 : -1 <= L).
  { destruct (Z_lt_le_dec L (-1)) as [Hneg|]; [|assumption]. exfalso.
    unfold Float.pow2_le in Hhi. replace (0 <=? L + 1) with false in Hhi by lia.
    apply Z.leb_gt in Hhi.
    assert (2 ^ 1 <= 2 ^ (- (L + 1))) by (apply Z.pow_le_mono_r; lia).
    unfold a, b in Hhi. nia. }
  assert (HL1 : L <= 47).
  { destruct (Z_lt_le_dec 47 L) as [Hbig|]; [|lia]. exfalso.
    unfold Float.pow2_le in Hlo. replace (0 <=? L) with true in Hlo by lia.
    apply Z.leb_le in Hlo.
    assert (2 ^ 48 <= 2 ^ L) by (apply Z.pow_le_mono_r; lia).
    unfold a, b in Hlo. nia. }
  destruct (round_pos_small a b Ha Hb) as [Hr [Hb1 Hb2]].
  { fold L. unfold Float.emin. lia. }
  { fold L. lia. }
  fold L in Hr, Hb1, Hb2. cbv zeta in Hr.
  set (s2 := 52 - L) in *.
  assert (Hs2 : 0 < s2) by (unfold s2; lia).
  pose proof (pow2_pos s2 ltac:(lia)) as Ht. set (t := 2 ^ s2) in *.
  rewrite Hr. cbn [Float.fnum Float.fexp]. rewrite Z.mul_1_l.
  unfold Float.ceil. cbn [Float.fnum Float.fexp].
  replace (0 <=? - s2) with false by lia.
  rewrite Z.opp_involutive. fold t.
  replace (a * t) with (c * (N * t) * p1) by (unfold a; ring).
  unfold b. rewrite rne_scale by lia.
  set (w := N * t).
  assert (Hw1 : 2 ^ 105 <= c * w).
  { assert (E : 2 ^ 53 * 2 ^ 52 = 2 ^ 105) by reflexivity.
    unfold a, b in Hb1. unfold w. nia. }
  assert (Hw2 : w <= 2 ^ 48 * t) by (unfold w; nia).
  set (M := Float.rne (c * w) (2 ^ 53)).
  pose proof (rne_bounds (c * w) (2 ^ 53) ltac:(lia)) as HM. fold M in HM.
  destruct (ceil_95_percent_spec N) as [HK1 HK2].
  set (K := ceil_95_percent N) in *.
  assert (HKt1 : 19 * w <= 20 * (K * t)) by (unfold w; nia).
  assert (HKt2 : 20 * (K * t) - 20 * t <= 19 * w - t) by (unfold w; nia).
  assert (Hup : M <= K * t).
  { apply rne_le; [lia|]. set (kt := K * t) in *. lia. }
  apply ceil_div_unique; [exact Ht|]. split; [|exact Hup].
  assert (E105 : 2 ^ 105 = 40564819207303340847894502572032) by reflexivity.
  assert (E48 : 2 ^ 48 = 281474976710656) by reflexivity.
  set (kt := K * t) in *. replace ((K - 1) * t) with (kt - t) by (unfold kt; ring).
  unfold c in *. lia.
Qed.

(** ** [sorted] is a stable ascending sort *)

Section SortedFacts.
Context {A : Type} (key : A -> Z).

Lemma insert_perm (x : A) (l : list A) : Permutation (insert key x l) (x :: l).
Proof.
  induction l as [|y l IH]; cbn [insert]; [reflexivity|].
  destruct (key x <=? key y); [reflexivity|].
  rewrite IH. apply perm_swap.
Qed.

Lemma sorted_perm (l : list A) : Permutation (sorted key l) l.
Proof.
  induction l as [|x l IH]; cbn [sorted]; [reflexivity|].
  rewrite insert_perm. constructor. exact IH.
Qed.

Lemma insert_sorted (x : A) (l : list A) :
  StronglySorted (key_le key) l -> StronglySorted (key_le key) (insert key x l).
Proof.
  induction 1 as [|y l Hl IH Hy]; cbn [insert].
  - repeat constructor.
  - destruct (key x <=? key y) eqn:E.
    + apply Z.leb_le in E. constructor; [constructor; assumption|].
      constructor; [exact E|].
      eapply Forall_impl; [|exact Hy]. unfold key_le. intros; lia.
    + apply Z.leb_gt in E. constructor; [exact IH|].
      rewrite (insert_perm x l). constructor; [unfold key_le; lia|exact Hy].
Qed.

Lemma sorted_sorted (l : list A) : StronglySorted (key_le key) (sorted key l).
Proof.
  induction l as [|x l IH]; cbn [sorted]; [constructor|].
  apply insert_sorted, IH.
Qed.

(** Elements with the same key keep their order. *)
Lemma insert_stable (k : Z) (x : A) (l : list A) :
  StronglySorted (key_le key) l ->
  filter (fun y => key y =? k) (insert key x l)
  = filter (fun y => key y =? k) (x :: l).
Proof.
  induction 1 as [|y l Hl IH Hy]; cbn [insert]; [reflexivity|].
  destruct (key x <=? key y) eqn:E; [reflexivity|].
  apply Z.leb_gt in E. cbn [filter]. rewrite IH. cbn [filter].
  destruct (key x =? k) eqn:Ex, (key y =? k) eqn:Ey; try reflexivity.
  lia.
Qed.

Lemma sorted_stable (k : Z) (l : list A) :
  filter (fun y => key y =? k) (sorted key l)
  = filter (fun y => key y =? k) l.
Proof.
  induction l as [|x l IH]; cbn [sorted]; [reflexivity|].
  rewrite insert_stable by apply sorted_sorted.
  cbn [filter]. rewrite IH. reflexivity.
Qed.
End SortedFacts.

(** An ascending list is determined by its elements. *)
Lemma ascending_unique (l1 : list Z) : forall l2,
  StronglySorted Z.le l1 -> StronglySorted Z.le l2 -> Permutation l1 l2 ->
  l1 = l2.
Proof.
  induction l1 as [|x l1 IH]; intros l2 H1 H2 HP.
  - apply Permutation_nil in HP. congruence.
  - destruct l2 as [|y l2];
      [apply Permutation_sym, Permutation_nil in HP; discriminate|].
    inversion H1 as [|? ? S1 F1]; subst. inversion H2 as [|? ? S2 F2]; subst.
    assert (x = y).
    { assert (In y (x :: l1))
        by (eapply Permutation_in; [apply Permutation_sym, HP|left; reflexivity]).
      assert (In x (y :: l2))
        by (eapply Permutation_in; [exact HP|left; reflexivity]).
      rewrite Forall_forall in F1, F2.
      destruct H as [->|Hy]; [reflexivity|].
      destruct H0 as [->|Hx]; [reflexivity|].
      specialize (F1 y Hy). specialize (F2 x Hx). lia. }
    subst y. f_equal. apply IH; try assumption.
    eapply Permutation_cons_inv, HP.
Qed.

Lemma sorted_ascending (ds vs : list Z) :
  StronglySorted Z.le vs -> Permutation vs ds -> sorted (fun d => d) ds = vs.
Proof.
  intros HS HP. apply ascending_unique.
  - apply (sorted_sorted (fun d => d)).
  - exact HS.
  - rewrite sorted_perm. symmetry. exact HP.
Qed.

(** The field [p95_edge_latency_ms] of what [aggregate] returns. *)
Lemma aggregate_p95 (ds : list Z) (total : Z) (fs : features) :
  aggregate ds total = inr fs ->
  let vs := sorted (fun d => d) ds in
  p95_edge_latency_ms fs
  = match vs with
    | [] => 0
    | _ :: _ => nth (Z.to_nat (p95_index vs)) vs 0
    end.
Proof.
  intros H vs. unfold aggregate in H. fold vs in H.
  destruct (if nonempty ds then py_max ds else ret 0) as [e|mx];
    [discriminate|]. cbn [bind] in H.
  destruct (if nonempty ds then _ else ret 0) as [e|avg];
    [discriminate|]. cbn [bind] in H.
  assert (Hp : (if nonempty vs then getitem vs (p95_index vs) else ret 0)
               = ret (match vs with
                      | [] => 0
                      | _ :: _ => nth (Z.to_nat (p95_index vs)) vs 0
                      end)).
  { destruct vs as [|v vs'] eqn:E; [reflexivity|]. rewrite <- E.
    cbn [nonempty]. replace (nonempty vs) with true by (rewrite E; reflexivity).
    apply getitem_in_range, p95_index_range. rewrite E. discriminate. }
  rewrite Hp in H. cbn [bind ret] in H.
  destruct (if 0 <? total then _ else _) as [e|r]; [discriminate|].
  cbn [bind] in H.
  destruct (if nonempty ds then _ else _) as [e|bi]; [discriminate|].
  cbn [bind ret] in H. injection H as <-. reflexivity.
Qed.

Lemma p95_nearest_rank (ds vs : list Z) (total : Z) (fs : features) :
  ds <> [] -> len ds <= 2 ^ 48 ->
  StronglySorted Z.le vs -> Permutation vs ds ->
  aggregate ds total = inr fs ->
  let N := len ds in
  let idx := Z.max 0 (Z.min (N - 1) (ceil_95_percent N - 1)) in
  p95_edge_latency_ms fs = nth (Z.to_nat idx) vs 0.
Proof.
  intros Hne Hlen HS HP Hagg N idx.
  rewrite (aggregate_p95 ds total fs Hagg).
  rewrite (sorted_ascending ds vs HS HP).
  assert (Hl : length vs = length ds) by (apply Permutation_length, HP).
  assert (HN : 1 <= Z.of_nat (length ds) <= 2 ^ 48).
  { unfold len in Hlen. split; [|exact Hlen].
    destruct ds; [congruence|]. cbn [length]. lia. }
  assert (Hidx : vs <> [] -> p95_index vs = idx).
  { unfold p95_index. destruct vs as [|v vs']; [congruence|]. intros _.
    unfold len. rewrite Hl. rewrite (ceil_mul_0_95 _ HN). reflexivity. }
  destruct vs as [|v vs']; [|rewrite Hidx by discriminate; reflexivity].
  destruct ds; [congruence|discriminate].
Qed.

(** Without durations the percentile is 0. *)
Lemma p95_no_durations (total : Z) (fs : features) :
  aggregate [] total = inr fs -> p95_edge_latency_ms fs = 0.
Proof. intros H. rewrite (aggregate_p95 [] total fs H). reflexivity. Qed.

(** C9: for a non-empty list of [N] durations (at most [2 ^ 48] of them, the
    range on which the binary64 product [0.95 * N] has the ceiling of the
    rational one), [p95_edge_latency_ms] is the element of the ascending sort
    at index [ceil(0.95 * N) - 1] clamped to [0, N - 1]; it is 0 without
    durations; it is 40 for [10, 20, 30, 40] and 50 for [50]. *)
Theorem C9_p95_nearest_rank :
  (forall (ds vs : list Z) (total : Z) (fs : features),
     ds <> [] -> len ds <= 2 ^ 48 ->
     StronglySorted Z.le vs -> Permutation vs ds ->
     aggregate ds total = inr fs ->
     let N := len ds in
     let idx := Z.max 0 (Z.min (N - 1) (ceil_95_percent N - 1)) in
     p95_edge_latency_ms fs = nth (Z.to_nat idx) vs 0)
  /\ (forall total fs,
        aggregate [] total = inr fs -> p95_edge_latency_ms fs = 0)
  /\ p95_of (aggregate [10; 20; 30; 40] 100) = Some 40
  /\ p95_of (aggregate [50] 50) = Some 50.
Proof.
  split; [exact p95_nearest_rank|]. split; [exact p95_no_durations|].
  split; vm_compute; reflexivity.
Qed.

Lemma C9_p95_nearest_rank_witness :
  exists fs, aggregate [40; 10; 30; 20] 100 = inr fs
             /\ p95_edge_latency_ms fs = 40.
Proof.
  assert (E : exists fs, aggregate [40; 10; 30; 20] 100 = inr fs)
    by (eexists; vm_compute; reflexivity).
  destruct E as [fs Hfs]. exists fs. split; [exact Hfs|].
  destruct C9_p95_nearest_rank as [H _].
  rewrite (H [40; 10; 30; 20] [10; 20; 30; 40] 100 fs).
  - reflexivity.
  - discriminate.
  - vm_compute. discriminate.
  - repeat constructor; lia.
  - apply Permutation_sym.
    change [40; 10; 30; 20] with ([40] ++ [10; 30; 20]).
    etransitivity; [apply Permutation_app_comm|]. cbn [app].
    apply perm_skip, perm_swap.
  - exact Hfs.
Defined.

(* ===================================================================== *)
(** * The builder: the time gap *)
(* ===================================================================== *)

Lemma rne_nonneg (x y : Z) : 0 <= x -> 0 < y -> 0 <= Float.rne x y.
Proof. intros. apply rne_ge; lia. Qed.

(** The test [0 < time_gap <= 2] on the binary64 number of seconds decides
    whether the gap in microseconds is positive and at most two million. *)
Lemma gap_test_iff (d : Z) :
  Float.int_ltb 0 (total_seconds d) && Float.leb_int (total_seconds d) 2 = true
  <-> 0 < d <= 2000000.
Proof.
  unfold total_seconds, Float.round.
  destruct (Z.eqb_spec d 0) as [->|Hd0].
  { cbn. split; [discriminate|lia]. }
  destruct (Z_lt_le_dec d 0) as [Hneg|Hpos].
  - (* a negative gap *)
    rewrite Z.sgn_neg by lia.
    assert (Hm : 0 <= Float.fnum (Float.round_pos (Z.abs d) 1000000)).
    { unfold Float.round_pos. cbn [Float.fnum].
      set (e := Z.max (Float.ilog2 (Z.abs d) 1000000 - 52) Float.emin).
      destruct (0 <=? e) eqn:E.
      - apply Z.leb_le in E. pose proof (pow2_pos _ E).
        apply rne_nonneg; nia.
      - apply Z.leb_gt in E. pose proof (pow2_pos (- e) ltac:(lia)).
        apply rne_nonneg; nia. }
    set (x := Float.round_pos (Z.abs d) 1000000) in *.
    replace (Float.int_ltb 0 _) with false; [cbn; split; [discriminate|lia]|].
    symmetry. unfold Float.int_ltb. cbn [Float.fnum Float.fexp].
    destruct (0 <=? Float.fexp x) eqn:E.
    + apply Z.leb_le in E. pose proof (pow2_pos _ E). apply Z.ltb_ge. nia.
    + apply Z.ltb_ge. lia.
  - assert (Hd : 0 < d) by lia. clear Hd0 Hpos.
    rewrite Z.sgn_pos, Z.abs_eq by lia.
    set (b := 1000000).
    assert (Hb : 0 < b) by reflexivity.
    destruct (ilog2_spec d b Hd Hb) as [Hlo Hhi].
    destruct (Z_lt_le_dec (Float.ilog2 d b) 52) as [Hlt|Hge].
    + (* fewer than 2^52 seconds *)
      assert (HL : -20 <= Float.ilog2 d b).
      { destruct (Z_lt_le_dec (Float.ilog2 d b) (-20)) as [Hs|]; [|assumption].
        exfalso. unfold Float.pow2_le in Hhi. set (L := Float.ilog2 d b) in *.
        replace (0 <=? L + 1) with false in Hhi by lia. apply Z.leb_gt in Hhi.
        assert (2 ^ 20 <= 2 ^ (- (L + 1))) by (apply Z.pow_le_mono_r; lia).
        assert (b < 2 ^ 20) by reflexivity. nia. }
      destruct (round_pos_small d b Hd Hb) as [Hr [Hb1 Hb2]];
        [unfold Float.emin; lia|exact Hlt|].
      cbv zeta in Hr. rewrite Hr. clear Hr.
      set (s := 52 - Float.ilog2 d b) in *.
      assert (Hs : 0 < s <= 72) by (unfold s; lia).
      pose proof (pow2_pos s ltac:(lia)) as Ht. set (t := 2 ^ s) in *.
      set (m := Float.rne (d * t) b).
      assert (Hm1 : 2 ^ 52 <= m) by (apply rne_ge; lia).
      assert (E52 : 2 ^ 52 = 4503599627370496) by reflexivity.
      unfold Float.int_ltb, Float.leb_int. cbn [Float.fnum Float.fexp].
      rewrite Z.mul_1_l. replace (0 <=? - s) with false by lia.
      rewrite Z.opp_involutive. fold t.
      replace (0 * t <? m) with true by lia. cbn [andb].
      rewrite Z.leb_le. split.
      * intros Hle. split; [exact Hd|].
        destruct (Z_lt_le_dec 2000000 d) as [Hbig|]; [exfalso|assumption].
        destruct (Z_lt_le_dec s 51) as [Hs51|Hs51].
        -- assert (2 ^ s <= 2 ^ 50) by (apply Z.pow_le_mono_r; lia).
           assert (2 ^ 50 = 1125899906842624) by reflexivity. fold t in H. lia.
        -- assert (2 ^ 51 <= 2 ^ s) by (apply Z.pow_le_mono_r; lia).
           assert (2 ^ 51 = 2251799813685248) by reflexivity. fold t in H.
           assert (2 * t + 1 <= m) by (apply rne_ge; unfold b; nia).
           lia.
      * intros [_ Hle]. apply rne_le; [exact Hb|]. unfold b. nia.
    + (* at least 2^52 seconds *)
      destruct (round_pos_large d b Hd Hb Hge) as [Hr [Hb1 Hb2]].
      cbv zeta in Hr. rewrite Hr. clear Hr.
      set (e := Float.ilog2 d b - 52) in *.
      assert (He : 0 <= e) by (unfold e; lia).
      pose proof (pow2_pos e He) as Ht. set (t := 2 ^ e) in *.
      set (m := Float.rne d (b * t)).
      assert (Hm1 : 2 ^ 52 <= m) by (apply rne_ge; lia).
      assert (E52 : 2 ^ 52 = 4503599627370496) by reflexivity.
      unfold Float.int_ltb, Float.leb_int. cbn [Float.fnum Float.fexp].
      rewrite Z.mul_1_l. replace (0 <=? e) with true by lia. fold t.
      replace (m * t <=? 2) with false by nia.
      rewrite andb_false_r. split; [discriminate|]. intros [_ Hle].
      unfold b in *. nia.
Qed.

Lemma related_iff (current_span next_span : Span) :
  related current_span next_span = true
  <-> 0 < start_time next_span - start_time current_span <= 2000000.
Proof. unfold related. apply gap_test_iff. Qed.

(* ===================================================================== *)
(** * Dictionaries *)
(* ===================================================================== *)

Lemma eqb_str_spec (a b : str) : eqb_str a b = true <-> a = b.
Proof.
  unfold eqb_str. destruct (list_eq_dec ascii_dec a b); split;
    congruence.
Qed.

Lemma eqb_edge_spec (e e' : str * str) : eqb_edge e e' = true <-> e = e'.
Proof.
  unfold eqb_edge. rewrite andb_true_iff, !eqb_str_spec.
  destruct e, e'; cbn. split; [intros [-> ->]; reflexivity|].
  intros [= -> ->]. split; reflexivity.
Qed.

Section Dict.
Context {K V : Type} (eqb : K -> K -> bool).
Hypothesis eqb_spec : forall a b, eqb a b = true <-> a = b.

Lemma eqb_refl (k : K) : eqb k k = true.
Proof. apply eqb_spec. reflexivity. Qed.

Lemma eqb_neq (a b : K) : a <> b -> eqb a b = false.
Proof.
  intros H. destruct (eqb a b) eqn:E; [|reflexivity].
  apply eqb_spec in E. contradiction.
Qed.

Lemma existsb_eqb (k : K) (l : list K) : existsb (eqb k) l = true <-> In k l.
Proof.
  rewrite existsb_exists. split.
  - intros (x & Hx & E). apply eqb_spec in E. subst. exact Hx.
  - intros H. exists k. split; [exact H|apply eqb_refl].
Qed.

Lemma dict_get_set (d : list (K * V)) (k k' : K) (v : V) :
  dict_get eqb (dict_set eqb d k v) k'
  = if eqb k' k then Some v else dict_get eqb d k'.
Proof.
  induction d as [|[k0 v0] d IH]; cbn [dict_set dict_get].
  - reflexivity.
  - destruct (eqb k k0) eqn:E; cbn [dict_get].
    + apply eqb_spec in E. subst k0. destruct (eqb k' k); reflexivity.
    + rewrite IH. destruct (eqb k' k0) eqn:E0; [|reflexivity].
      apply eqb_spec in E0. subst k0.
      destruct (eqb k' k) eqn:E1; [|reflexivity].
      apply eqb_spec in E1. subst k'. rewrite eqb_refl in E. discriminate.
Qed.

Lemma dict_keys_set (d : list (K * V)) (k : K) (v : V) :
  map fst (dict_set eqb d k v)
  = if existsb (eqb k) (map fst d) then map fst d else map fst d ++ [k].
Proof.
  induction d as [|[k0 v0] d IH]; cbn [dict_set map fst existsb app].
  - reflexivity.
  - destruct (eqb k k0) eqn:E; cbn [orb map fst].
    + apply eqb_spec in E. subst k0. reflexivity.
    + rewrite IH. destruct (existsb (eqb k) (map fst d)); reflexivity.
Qed.

Lemma dict_get_In (d : list (K * V)) (k : K) :
  In k (map fst d) <-> exists v, dict_get eqb d k = Some v.
Proof.
  induction d as [|[k0 v0] d IH]; cbn [dict_get map fst In].
  - split; [contradiction|intros [v Hv]; discriminate].
  - destruct (eqb k k0) eqn:E.
    + apply eqb_spec in E. subst k0. split; eauto.
    + rewrite IH. split; [intros [H|H]; [|exact H]|intros H; right; exact H].
      subst k0. rewrite eqb_refl in E. discriminate.
Qed.

Lemma dict_get_Some_In (d : list (K * V)) (k : K) (v : V) :
  dict_get eqb d k = Some v -> In (k, v) d.
Proof.
  induction d as [|[k0 v0] d IH]; cbn [dict_get]; [discriminate|].
  destruct (eqb k k0) eqn:E.
  - apply eqb_spec in E. subst k0. intros [= ->]. left. reflexivity.
  - intros H. right. exact (IH H).
Qed.


(** A run of assignments. *)
Lemma assign_keys (kvs : list (K * V)) : forall d k,
  In k (map fst (fold_left (assign eqb) kvs d))
  <-> In k (map fst d) \/ In k (map fst kvs).
Proof.
  induction kvs as [|[k0 v0] kvs IH]; intros d k; cbn [fold_left map In].
  - tauto.
  - rewrite IH. unfold assign at 1. cbn [fst snd]. rewrite dict_keys_set.
    destruct (existsb (eqb k0) (map fst d)) eqn:E.
    + apply existsb_eqb in E. split; [tauto|].
      intros [H|[H|H]]; auto. subst. auto.
    + rewrite in_app_iff. cbn [In]. tauto.
Qed.


Lemma assign_keys_fresh (kvs : list (K * V)) : forall d,
  NoDup (map fst d ++ map fst kvs) ->
  map fst (fold_left (assign eqb) kvs d) = map fst d ++ map fst kvs.
Proof.
  induction kvs as [|[k0 v0] kvs IH]; intros d H; cbn [fold_left map fst].
  - rewrite app_nil_r. reflexivity.
  - cbn [map fst] in H.
    assert (Hk : existsb (eqb k0) (map fst d) = false).
    { destruct (existsb (eqb k0) (map fst d)) eqn:E; [|reflexivity].
      apply existsb_eqb in E. apply NoDup_remove_2 in H.
      exfalso. apply H. apply in_or_app. left. exact E. }
    rewrite IH.
    + unfold assign. cbn [fst snd]. rewrite dict_keys_set, Hk, <- app_assoc.
      reflexivity.
    + unfold assign. cbn [fst snd]. rewrite dict_keys_set, Hk, <- app_assoc.
      exact H.
Qed.

Lemma assign_get_absent (kvs : list (K * V)) : forall d k,
  ~ In k (map fst kvs) ->
  dict_get eqb (fold_left (assign eqb) kvs d) k = dict_get eqb d k.
Proof.
  induction kvs as [|[k0 v0] kvs IH]; intros d k H; cbn [fold_left];
    [reflexivity|].
  cbn [map fst In] in H. rewrite IH by tauto.
  unfold assign. cbn [fst snd]. rewrite dict_get_set, eqb_neq; [reflexivity|].
  intros ->. tauto.
Qed.

Lemma assign_get_cases (kvs : list (K * V)) : forall d k v,
  dict_get eqb (fold_left (assign eqb) kvs d) k = Some v ->
  In (k, v) kvs \/ (~ In k (map fst kvs) /\ dict_get eqb d k = Some v).
Proof.
  induction kvs as [|[k0 v0] kvs IH]; intros d k v H; cbn [fold_left] in H.
  - right. split; [intros []|exact H].
  - destruct (IH _ _ _ H) as [Hin|[Hnin Hget]]; [left; right; exact Hin|].
    unfold assign in Hget. cbn [fst snd] in Hget. rewrite dict_get_set in Hget.
    destruct (eqb k k0) eqn:E.
    + apply eqb_spec in E. subst k0. injection Hget as <-. left. left.
      reflexivity.
    + right. split; [|exact Hget]. cbn [map fst In]. intros [->|Hk]; [|tauto].
      rewrite eqb_refl in E. discriminate.
Qed.

Lemma assign_get_all (kvs : list (K * V)) (k : K) (v : V) : forall d,
  In k (map fst kvs) ->
  (forall v', In (k, v') kvs -> v' = v) ->
  dict_get eqb (fold_left (assign eqb) kvs d) k = Some v.
Proof.
  intros d Hin Hall.
  assert (Hk : In k (map fst (fold_left (assign eqb) kvs d)))
    by (apply assign_keys; right; exact Hin).
  apply dict_get_In in Hk. destruct Hk as [v' Hv'].
  destruct (assign_get_cases kvs d k v' Hv') as [H|[H _]]; [|contradiction].
  rewrite Hv'. f_equal. apply Hall, H.
Qed.
End Dict.

(* ===================================================================== *)
(** * The builder as three runs of assignments *)
(* ===================================================================== *)

Lemma has_node_iff (g : DiGraph) (n : str) :
  has_node g n = true <-> In n (node_ids g).
Proof. unfold has_node. apply (existsb_eqb eqb_str eqb_str_spec). Qed.

Lemma touch_node_present (ns : list (str * option Span)) (n : str) :
  In n (map fst ns) -> touch_node ns n = ns.
Proof.
  intros H. unfold touch_node.
  apply (existsb_eqb eqb_str eqb_str_spec) in H. rewrite H. reflexivity.
Qed.

Lemma add_edge_present (g : DiGraph) (u v : str) (t : edge_type) :
  In u (node_ids g) -> In v (node_ids g) ->
  add_edge g u v t
  = mkGraph (nodes g) (assign eqb_edge (edges g) ((u, v), t)).
Proof.
  intros Hu Hv. unfold add_edge, node_ids in *.
  rewrite (touch_node_present _ u Hu), (touch_node_present _ v Hv).
  reflexivity.
Qed.

Lemma nodes_phase (spans : list Span) : forall g,
  fold_left add_span_node spans g
  = mkGraph (fold_left (assign eqb_str) (node_assignments spans) (nodes g))
            (edges g).
Proof.
  induction spans as [|s spans IH]; intros g; cbn [fold_left node_assignments map].
  - destruct g; reflexivity.
  - rewrite IH. reflexivity.
Qed.

Lemma parents_phase (spans : list Span) : forall g,
  (forall s, In s spans -> In (span_id s) (node_ids g)) ->
  fold_left add_parent_edge spans g
  = mkGraph (nodes g)
      (fold_left (assign eqb_edge)
         (parent_assignments (node_ids g) spans) (edges g)).
Proof.
  induction spans as [|s spans IH]; intros g Hids;
    cbn [fold_left parent_assignments flat_map].
  - destruct g; reflexivity.
  - rewrite fold_left_app.
    assert (Hstep : add_parent_edge g s
              = mkGraph (nodes g)
                  (fold_left (assign eqb_edge)
                     (parent_assignment (node_ids g) s) (edges g))).
    { unfold add_parent_edge, parent_assignment, parent_known, has_node.
      destruct (parent_span_id s) as [p|]; [|destruct g; reflexivity].
      destruct (nonempty p && existsb (eqb_str p) (node_ids g)) eqn:E;
        [|destruct g; reflexivity].
      apply andb_true_iff in E. destruct E as [_ E].
      apply (existsb_eqb eqb_str eqb_str_spec) in E.
      rewrite add_edge_present; [reflexivity|exact E|].
      apply Hids. left. reflexivity. }
    rewrite Hstep. rewrite IH; [reflexivity|].
    intros s' Hs'. apply Hids. right. exact Hs'.
Qed.

Lemma add_time_edges_cons (g : DiGraph) (c n : Span) (rest : list Span) :
  add_time_edges g (c :: n :: rest)
  = add_time_edges
      (if related c n then add_edge g (span_id c) (span_id n) time else g)
      (n :: rest).
Proof. reflexivity. Qed.

Lemma time_assignments_cons (c n : Span) (rest : list Span) :
  time_assignments (c :: n :: rest)
  = (if related c n then [((span_id c, span_id n), time)] else [])
    ++ time_assignments (n :: rest).
Proof. reflexivity. Qed.

Lemma times_phase (ss : list Span) : forall g,
  (forall s, In s ss -> In (span_id s) (node_ids g)) ->
  add_time_edges g ss
  = mkGraph (nodes g)
      (fold_left (assign eqb_edge) (time_assignments ss) (edges g)).
Proof.
  induction ss as [|c ss IH]; intros g Hids.
  - destruct g; reflexivity.
  - destruct ss as [|n ss'].
    + destruct g; reflexivity.
    + rewrite add_time_edges_cons, time_assignments_cons, fold_left_app.
      assert (Hstep :
        (if related c n then add_edge g (span_id c) (span_id n) time else g)
        = mkGraph (nodes g)
            (fold_left (assign eqb_edge)
               (if related c n then [((span_id c, span_id n), time)] else [])
               (edges g))).
      { destruct (related c n); [|destruct g; reflexivity].
        rewrite add_edge_present; [reflexivity| |];
          apply Hids; [left|right; left]; reflexivity. }
      rewrite Hstep. rewrite IH; [reflexivity|].
      intros s Hs. apply Hids. right. exact Hs.
Qed.

Lemma built_ids_iff (spans : list Span) (n : str) :
  In n (built_ids spans) <-> In n (map span_id spans).
Proof.
  unfold built_ids, built_nodes.
  rewrite (assign_keys eqb_str eqb_str_spec). cbn [map In].
  unfold node_assignments. rewrite map_map. cbn [fst]. tauto.
Qed.

(** The graph that [build_dependency_graph] returns. *)
Lemma build_dependency_graph_spec (spans : list Span) :
  build_dependency_graph spans
  = mkGraph (built_nodes spans)
            (fold_left (assign eqb_edge) (edge_assignments spans) []).
Proof.
  unfold build_dependency_graph. rewrite nodes_phase. cbn [nodes edges empty_graph].
  fold (built_nodes spans).
  rewrite parents_phase.
  2:{ intros s Hs. unfold node_ids. cbn [nodes]. apply built_ids_iff.
      apply in_map. exact Hs. }
  cbn [nodes edges]. rewrite times_phase.
  2:{ intros s Hs. unfold node_ids. cbn [nodes]. apply built_ids_iff.
      apply in_map. eapply Permutation_in; [apply sorted_perm|exact Hs]. }
  cbn [nodes edges]. unfold edge_assignments. rewrite fold_left_app.
  reflexivity.
Qed.

(* ===================================================================== *)
(** * The builder: time edges *)
(* ===================================================================== *)

Lemma time_assignments_In (ss : list Span) (u v : str) (t : edge_type) :
  In ((u, v), t) (time_assignments ss) <-> t = time /\ time_pair ss u v.
Proof.
  induction ss as [|c ss IH].
  - cbn. split; [contradiction|].
    intros (_ & i & c & n & H & _). destruct i; discriminate.
  - destruct ss as [|n ss'].
    + cbn. split; [contradiction|].
      intros (_ & i & c' & n & _ & H & _). destruct i; discriminate.
    + rewrite time_assignments_cons, in_app_iff, IH. split.
      * intros [H|(Ht & i & c' & n' & H1 & H2 & H3)].
        -- destruct (related c n) eqn:E; [|contradiction].
           destruct H as [H|[]]. injection H as <- <- <-.
           split; [reflexivity|]. exists 0%nat, c, n.
           apply related_iff in E. repeat split; try reflexivity; lia.
        -- split; [exact Ht|]. exists (S i), c', n'. auto.
      * intros (Ht & i & c' & n' & H1 & H2 & Hu & Hv & Hgap).
        destruct i as [|i].
        -- cbn in H1, H2. injection H1 as <-. injection H2 as <-. left.
           apply related_iff in Hgap. rewrite Hgap. subst. left. reflexivity.
        -- right. split; [exact Ht|]. exists i, c', n'. auto.
Qed.

Lemma parent_assignments_type (ids : list str) (spans : list Span) e t :
  In (e, t) (parent_assignments ids spans) -> t = parent.
Proof.
  unfold parent_assignments. rewrite in_flat_map. intros (s & _ & H).
  unfold parent_assignment in H. destruct (parent_span_id s); [|contradiction].
  destruct (_ && _); [|contradiction]. destruct H as [[= _ <-]|[]].
  reflexivity.
Qed.

Lemma built_edge_time (spans : list Span) (u v : str) :
  dict_get eqb_edge (edges (build_dependency_graph spans)) (u, v) = Some time
  <-> time_pair (sorted start_time spans) u v.
Proof.
  rewrite build_dependency_graph_spec. cbn [edges]. split.
  - intros H.
    apply (assign_get_cases eqb_edge eqb_edge_spec) in H.
    destruct H as [H|[_ H]]; [|discriminate].
    unfold edge_assignments in H. apply in_app_or in H. destruct H as [H|H].
    + apply parent_assignments_type in H. discriminate.
    + apply time_assignments_In in H. tauto.
  - intros H. unfold edge_assignments. rewrite fold_left_app.
    apply (assign_get_all eqb_edge eqb_edge_spec).
    + apply in_map_iff. exists ((u, v), time). split; [reflexivity|].
      apply time_assignments_In. auto.
    + intros t Ht. apply time_assignments_In in Ht. tauto.
Qed.

(** C8: the spans are sorted by start time with a stable sort, and the graph
    has a [time] edge from [u] to [v] exactly when [u] and [v] are
    consecutive in that order with a gap that is positive and at most 2
    seconds. *)
Theorem C8_time_edges_between_consecutive_spans (spans : list Span) :
  let ss := sorted start_time spans in
  Permutation ss spans
  /\ StronglySorted (fun a b => start_time a <= start_time b) ss
  /\ (forall t, filter (fun s => start_time s =? t) ss
                = filter (fun s => start_time s =? t) spans)
  /\ (forall u v,
        dict_get eqb_edge (edges (build_dependency_graph spans)) (u, v)
        = Some time
        <-> time_pair ss u v).
Proof.
  intros ss. split; [apply sorted_perm|]. split; [apply sorted_sorted|].
  split; [intros t; apply sorted_stable|]. intros u v. apply built_edge_time.
Qed.

(* ===================================================================== *)
(** * The builder: nodes and parent edges *)
(* ===================================================================== *)

Lemma built_ids_NoDup (spans : list Span) :
  NoDup (map span_id spans) -> built_ids spans = map span_id spans.
Proof.
  intros H. unfold built_ids, built_nodes.
  rewrite (assign_keys_fresh eqb_str eqb_str_spec).
  - unfold node_assignments. rewrite map_map. reflexivity.
  - unfold node_assignments. rewrite map_map. exact H.
Qed.

Lemma parent_assignments_In (ids : list str) (spans : list Span) u v t :
  In ((u, v), t) (parent_assignments ids spans)
  <-> t = parent
      /\ exists s, In s spans /\ span_id s = v /\ parent_span_id s = Some u
                   /\ u <> [] /\ In u ids.
Proof.
  unfold parent_assignments. rewrite in_flat_map. split.
  - intros (s & Hs & H). unfold parent_assignment in H.
    destruct (parent_span_id s) as [p|] eqn:Ep; [|contradiction].
    destruct (nonempty p && existsb (eqb_str p) ids) eqn:E; [|contradiction].
    destruct H as [[= <- <- <-]|[]].
    apply andb_true_iff in E. destruct E as [E1 E2].
    apply (existsb_eqb eqb_str eqb_str_spec) in E2.
    split; [reflexivity|]. exists s. repeat split; auto.
    intros ->. discriminate.
  - intros (-> & s & Hs & <- & Hp & Hne & Hin). exists s. split; [exact Hs|].
    unfold parent_assignment. rewrite Hp.
    apply (existsb_eqb eqb_str eqb_str_spec) in Hin. rewrite Hin.
    destruct u; [congruence|]. left. reflexivity.
Qed.

Lemma built_edge_cases (spans : list Span) (u v : str) (t : edge_type) :
  dict_get eqb_edge (edges (build_dependency_graph spans)) (u, v) = Some t ->
  In ((u, v), t) (edge_assignments spans).
Proof.
  rewrite build_dependency_graph_spec. cbn [edges]. intros H.
  apply (assign_get_cases eqb_edge eqb_edge_spec) in H.
  destruct H as [H|[_ H]]; [exact H|discriminate].
Qed.

(** C7 as stated fails: the parent identifier of [child_of_unnamed] is not
    [None] and names a node of the graph, and the graph has no edge. *)
Lemma C7_counterexample : ~ parent_edge_present.
Proof.
  intros H.
  destruct (H [unnamed_root; child_of_unnamed] child_of_unnamed []) as [t Ht].
  - repeat constructor; cbn; intuition discriminate.
  - right. left. reflexivity.
  - reflexivity.
  - left. reflexivity.
  - vm_compute in Ht. discriminate.
Qed.

(** C7, amended: for spans with distinct identifiers the graph has one node
    per span, in the order of the list.  For every span whose parent
    identifier is not [None], not empty and the identifier of a span of the
    list, the graph has the edge from the parent to the span; its type is
    [parent], unless the two are also a time pair, in which case the time
    edge has taken its place.  Every edge of type [parent] comes from such a
    span, so a span whose declared parent is absent has no incoming edge of
    type [parent]. *)
Theorem C7_builder_nodes_and_parent_edges (spans : list Span) :
  NoDup (map span_id spans) ->
  let g := build_dependency_graph spans in
  let ss := sorted start_time spans in
  node_ids g = map span_id spans
  /\ length (nodes g) = length spans
  /\ (forall s p,
        In s spans -> parent_span_id s = Some p -> p <> [] ->
        In p (map span_id spans) ->
        (~ time_pair ss p (span_id s) ->
         dict_get eqb_edge (edges g) (p, span_id s) = Some parent)
        /\ (time_pair ss p (span_id s) ->
            dict_get eqb_edge (edges g) (p, span_id s) = Some time))
  /\ (forall u v,
        dict_get eqb_edge (edges g) (u, v) = Some parent ->
        exists s, In s spans /\ span_id s = v /\ parent_span_id s = Some u
                  /\ u <> [] /\ In u (map span_id spans))
  /\ (forall s,
        In s spans ->
        (forall p, parent_span_id s = Some p -> ~ In p (map span_id spans)) ->
        forall u, dict_get eqb_edge (edges g) (u, span_id s) <> Some parent).
Proof.
  intros Hnd g ss.
  assert (Hids : node_ids g = map span_id spans).
  { unfold g. rewrite build_dependency_graph_spec. unfold node_ids.
    cbn [nodes]. apply built_ids_NoDup, Hnd. }
  assert (Honly : forall u v,
            dict_get eqb_edge (edges g) (u, v) = Some parent ->
            exists s, In s spans /\ span_id s = v /\ parent_span_id s = Some u
                      /\ u <> [] /\ In u (map span_id spans)).
  { intros u v H. apply built_edge_cases in H. unfold edge_assignments in H.
    apply in_app_or in H. destruct H as [H|H].
    - apply parent_assignments_In in H. destruct H as (_ & s & H).
      exists s. rewrite (built_ids_NoDup spans Hnd) in H. exact H.
    - apply time_assignments_In in H. destruct H as [H _]. discriminate. }
  split; [exact Hids|]. split.
  { rewrite <- (length_map fst). fold (node_ids g). rewrite Hids.
    apply length_map. }
  split; [|split; [exact Honly|]].
  - intros s p Hs Hp Hne Hin. split.
    + intros Hnt. unfold g. rewrite build_dependency_graph_spec. cbn [edges].
      unfold edge_assignments. rewrite fold_left_app.
      rewrite (assign_get_absent eqb_edge eqb_edge_spec).
      * apply (assign_get_all eqb_edge eqb_edge_spec).
        -- apply in_map_iff. exists ((p, span_id s), parent).
           split; [reflexivity|]. apply parent_assignments_In.
           split; [reflexivity|]. exists s.
           rewrite (built_ids_NoDup spans Hnd). auto.
        -- intros t Ht. apply parent_assignments_type in Ht. exact Ht.
      * intros Hin'. apply in_map_iff in Hin'.
        destruct Hin' as ([[u v] t] & E & Hin'). cbn in E. injection E as -> ->.
        apply time_assignments_In in Hin'. tauto.
    + intros Ht. apply built_edge_time. exact Ht.
  - intros s Hs Habs u Hget. destruct (Honly u (span_id s) Hget)
      as (s' & Hs' & Hid & Hp & _ & Hin).
    assert (s' = s).
    { clear - Hnd Hs Hs' Hid. induction spans as [|x spans IH]; [contradiction|].
      cbn [map] in Hnd. inversion Hnd as [|? ? Hx Hnd']; subst.
      destruct Hs as [->|Hs], Hs' as [->|Hs']; auto.
      - exfalso. apply Hx. rewrite <- Hid. apply in_map, Hs'.
      - exfalso. apply Hx. rewrite Hid. apply in_map, Hs. }
    subst s'. exact (Habs u Hp Hin).
Qed.

Lemma three_spans_distinct :
  NoDup (map span_id [span_root; span_orphan; span_child]).
Proof. repeat constructor; cbn; intuition discriminate. Defined.

Lemma C7_builder_nodes_and_parent_edges_witness :
  NoDup (map span_id [span_root; span_orphan; span_child])
  /\ node_ids (build_dependency_graph [span_root; span_orphan; span_child])
     = [lit "r"; lit "o"; lit "c"]
  /\ forall u,
       dict_get eqb_edge
         (edges (build_dependency_graph [span_root; span_orphan; span_child]))
         (u, lit "o") <> Some parent.
Proof.
  pose proof three_spans_distinct as Hnd.
  split; [exact Hnd|].
  destruct (C7_builder_nodes_and_parent_edges _ Hnd) as (H1 & _ & _ & _ & H5).
  split; [exact H1|].
  apply (H5 span_orphan).
  - right. left. reflexivity.
  - intros p [= <-]. cbn. intuition discriminate.
Defined.

(* ===================================================================== *)
(** * Graphs: edges, paths and orders *)
(* ===================================================================== *)











(* ===================================================================== *)
(** * The topological sort *)
(* ===================================================================== *)

(** ** One generation *)










(** ** The state between two generations *)














(** ** The loop *)


(** ** The first state *)









(* ===================================================================== *)
(** * The graph that the builder returns *)
(* ===================================================================== *)






(* ===================================================================== *)
(** * The serializer *)
(* ===================================================================== *)









(* ===================================================================== *)
(** * The serializer: the source field *)
(* ===================================================================== *)










(* ===================================================================== *)
(** * Decimal numerals *)
(* ===================================================================== *)

(** The value of a run of digits read from an accumulator. *)
Lemma int_of_str_uint (d : Decimal.uint) : forall acc : positive,
  fold_left (fun a c => 10 * a + digit_val c)
            (lit (NilEmpty.string_of_uint d)) (Z.pos acc)
  = Z.pos (Pos.of_uint_acc d acc).
Proof.
  induction d; intros acc; cbn [NilEmpty.string_of_uint lit list_ascii_of_string fold_left Pos.of_uint_acc];
    try reflexivity; rewrite <- IHd; f_equal;
    match goal with
    | |- context [digit_val ?c] =>
        let v := eval vm_compute in (digit_val c) in
        change (digit_val c) with v
    end; lia.
Qed.

Lemma int_of_str_of_uint (d : Decimal.uint) :
  int_of_str (lit (NilEmpty.string_of_uint d)) = Z.of_N (Pos.of_uint d).
Proof.
  unfold int_of_str.
  induction d; cbn [NilEmpty.string_of_uint lit list_ascii_of_string fold_left Pos.of_uint];
    try reflexivity;
    try (change (10 * 0 + digit_val _) with 0; exact IHd);
    match goal with
    | |- fold_left _ _ ?a = _ =>
        let v := eval cbv in a in change a with v
    end; rewrite int_of_str_uint; reflexivity.
Qed.

Lemma digits_of_uint (d : Decimal.uint) :
  forallb isdigit (lit (NilEmpty.string_of_uint d)) = true.
Proof.
  unfold lit.
  induction d; cbn [NilEmpty.string_of_uint list_ascii_of_string forallb];
    try reflexivity; rewrite IHd; reflexivity.
Qed.

Lemma to_uint_not_nil (p : positive) : Pos.to_uint p <> Decimal.Nil.
Proof.
  intros H. pose proof (DecimalPos.Unsigned.of_to p) as E.
  rewrite H in E. discriminate.
Qed.

Lemma str_of_int_pos (p : positive) :
  str_of_int (Z.pos p) = lit (NilEmpty.string_of_uint (Pos.to_uint p)).
Proof.
  unfold str_of_int. cbn [Z.to_int NilZero.string_of_int].
  unfold NilZero.string_of_uint.
  destruct (Pos.to_uint p) eqn:E; try reflexivity.
  exfalso. exact (to_uint_not_nil p E).
Qed.

(** [int(str(n)) = n] for a natural number, and [str(n)] is a non-empty run
    of decimal digits. *)
Lemma int_of_str_of_int (n : Z) : 0 <= n -> int_of_str (str_of_int n) = n.
Proof.
  intros Hn. destruct n as [|p|p]; [reflexivity| |lia].
  rewrite str_of_int_pos, int_of_str_of_uint, DecimalPos.Unsigned.of_to.
  reflexivity.
Qed.

Lemma str_of_int_digits (n : Z) : 0 <= n ->
  forallb isdigit (str_of_int n) = true /\ str_of_int n <> [].
Proof.
  intros Hn. destruct n as [|p|p]; [split; [reflexivity|discriminate]| |lia].
  rewrite str_of_int_pos. split; [apply digits_of_uint|].
  destruct (Pos.to_uint p) eqn:E; cbn; try discriminate.
  exfalso. exact (to_uint_not_nil p E).
Qed.

(* ===================================================================== *)
(** * The pattern on the text of an edge *)
(* ===================================================================== *)

(** ** Searching a word in a text *)

Lemma startswith_app (w s : str) : startswith (w ++ s) w = true.
Proof.
  induction w as [|a w IH]; [reflexivity|].
  cbn [app startswith]. rewrite Ascii.eqb_refl. exact IH.
Qed.

Lemma contains_app_r (a b w : str) :
  contains b w = true -> contains (a ++ b) w = true.
Proof.
  intros H. induction a as [|c a IH]; [exact H|].
  cbn [app contains]. rewrite IH. apply orb_true_r.
Qed.

Lemma contains_startswith (s w : str) :
  startswith s w = true -> contains s w = true.
Proof. intros H. destruct s; cbn [contains]; rewrite H; reflexivity. Qed.

Lemma contains_here (a w b : str) : contains (a ++ w ++ b) w = true.
Proof. apply contains_app_r, contains_startswith, startswith_app. Qed.

(** A character that is not in [w] cuts the search for [w] in two. *)
Lemma startswith_cut (w : str) : forall (a b : str) (c : ascii),
  w <> [] -> ~ In c w ->
  startswith (a ++ c :: b) w = startswith a w.
Proof.
  induction w as [|x w IH]; intros a b c Hw Hc; [congruence|].
  destruct a as [|y a]; cbn [app startswith].
  - destruct (Ascii.eqb_spec x c) as [->|_]; [|reflexivity].
    exfalso. apply Hc. left. reflexivity.
  - destruct w as [|x' w'].
    + destruct (a ++ c :: b), a; reflexivity.
    + rewrite (IH a b c); [reflexivity|discriminate|].
      intros H. apply Hc. right. exact H.
Qed.

Lemma contains_cut (w a b : str) (c : ascii) :
  w <> [] -> ~ In c w ->
  contains (a ++ c :: b) w = contains a w || contains b w.
Proof.
  intros Hw Hc. induction a as [|y a IH].
  - cbn [app]. destruct w as [|x w]; [congruence|].
    cbn [contains startswith].
    destruct (Ascii.eqb_spec x c) as [->|_].
    + exfalso. apply Hc. left. reflexivity.
    + reflexivity.
  - change ((y :: a) ++ c :: b) with (y :: (a ++ c :: b)).
    cbn [contains].
    change (y :: (a ++ c :: b)) with ((y :: a) ++ c :: b).
    rewrite startswith_cut by assumption. rewrite IH.
    rewrite orb_assoc. reflexivity.
Qed.

Lemma lower_str_app (a b : str) :
  lower_str (a ++ b) = lower_str a ++ lower_str b.
Proof. apply map_app. Qed.

Lemma mentions_cut (w : string) (a b : str) (c : ascii) :
  lit w <> [] -> ~ In (lower c) (lit w) ->
  mentions w (a ++ c :: b) = mentions w a || mentions w b.
Proof.
  intros Hw Hc. unfold mentions. rewrite lower_str_app.
  cbn [lower_str map]. apply contains_cut; assumption.
Qed.

(** ** The steps of a match that succeeds *)

Lemma rep_greedy_stop {A} p (s : str) (k : str -> option A) :
  stops p s -> Re.rep_greedy p s k = k s.
Proof. destruct s as [|c s]; cbn; [reflexivity|]. intros ->. reflexivity. Qed.

Lemma rep_greedy_run {A} p (ds rest : str) (k : str -> option A) a :
  forallb p ds = true -> stops p rest -> k rest = Some a ->
  Re.rep_greedy p (ds ++ rest) k = Some a.
Proof.
  intros Hd Hs Hk. induction ds as [|d ds IH].
  - cbn [app]. rewrite rep_greedy_stop by exact Hs. exact Hk.
  - cbn [forallb] in Hd. apply andb_true_iff in Hd as [Hp Hd].
    cbn [app Re.rep_greedy]. rewrite Hp, (IH Hd). reflexivity.
Qed.

Lemma rep_lazy_here {A} p (s : str) (k : str -> option A) a :
  k s = Some a -> Re.rep_lazy p s k = Some a.
Proof. intros H. destruct s; cbn [Re.rep_lazy]; rewrite H; reflexivity. Qed.

Lemma rep_lazy_step {A} p (c : ascii) (s : str) (k : str -> option A) :
  k (c :: s) = None -> p c = true ->
  Re.rep_lazy p (c :: s) k = Re.rep_lazy p s k.
Proof. intros H Hp. cbn [Re.rep_lazy]. rewrite H, Hp. reflexivity. Qed.

Lemma exec_ichar_hit {A} (c d : ascii) (r : Re.regex) (s : str) gs
    (k : str -> list str -> option A) :
  Ascii.eqb (lower d) (lower c) = true ->
  Re.exec (Re.Cat (Re.ichar c) r) (d :: s) gs k = Re.exec r s gs k.
Proof. intros H. cbn [Re.exec Re.ichar]. rewrite H. reflexivity. Qed.

Lemma exec_iword_miss {A} (w : str) (rs : list Re.regex) : forall (s : str) gs
    (k : str -> list str -> option A),
  startswith (lower_str s) (lower_str w) = false ->
  Re.exec (Re.concat (map Re.ichar w ++ rs)) s gs k = None.
Proof.
  induction w as [|a w IH]; intros s gs k H; [discriminate|].
  cbn [map app Re.concat Re.exec Re.ichar].
  destruct s as [|c s]; [reflexivity|].
  cbn [lower_str map startswith] in H.
  rewrite Ascii.eqb_sym.
  destruct (Ascii.eqb (lower a) (lower c)); [|reflexivity].
  apply IH. exact H.
Qed.

Lemma isdigit_not_space (c : ascii) : isdigit c = true -> isspace c = false.
Proof.
  unfold isdigit, isspace, in_range. intros H.
  apply andb_true_iff in H as [H1 H2].
  apply Z.leb_le in H1. apply Z.leb_le in H2.
  repeat match goal with
  | |- context [(?a <=? ?b)] => destruct (Z.leb_spec a b)
  | |- context [(?a =? ?b)] => destruct (Z.eqb_spec a b)
  end; try reflexivity; lia.
Qed.

(** A group of digits that is followed by something else. *)
Lemma exec_digits {A} (D X : str) (r : Re.regex) gs
    (k : str -> list str -> option A) a :
  D <> [] -> forallb isdigit D = true -> stops isdigit X ->
  Re.exec r X (gs ++ [D]) k = Some a ->
  Re.exec (Re.Cat (Re.Cap (Re.plus isdigit)) r) (D ++ X) gs k = Some a.
Proof.
  intros Hne Hd Hs Hk. destruct D as [|d D]; [congruence|].
  cbn [forallb] in Hd. apply andb_true_iff in Hd as [Hd1 Hd2].
  cbn [Re.exec Re.plus app]. rewrite Hd1.
  apply rep_greedy_run; [exact Hd2|exact Hs|].
  replace (length (d :: D ++ X) - length X)%nat with (length (d :: D)).
  - change (d :: D ++ X) with ((d :: D) ++ X).
    rewrite firstn_app, Nat.sub_diag, firstn_all, firstn_O, app_nil_r.
    exact Hk.
  - change (d :: D ++ X) with ((d :: D) ++ X). rewrite length_app. lia.
Qed.

(** Blanks, greedily: one blank before something else. *)
Lemma exec_star_blank {A} (X : str) (r : Re.regex) gs
    (k : str -> list str -> option A) a :
  stops isspace X ->
  Re.exec r X gs k = Some a ->
  Re.exec (Re.Cat (Re.star isspace) r) (" "%char :: X) gs k = Some a.
Proof.
  intros Hs Hk. cbn [Re.exec Re.star Re.rep_greedy].
  change (isspace " "%char) with true. cbn iota.
  rewrite rep_greedy_stop by exact Hs. rewrite Hk. reflexivity.
Qed.

Lemma exec_plus_blank {A} (X : str) (r : Re.regex) gs
    (k : str -> list str -> option A) :
  stops isspace X ->
  Re.exec (Re.Cat (Re.plus isspace) r) (" "%char :: X) gs k
  = Re.exec r X gs k.
Proof.
  intros Hs. cbn [Re.exec Re.plus].
  change (isspace " "%char) with true. cbn iota.
  rewrite rep_greedy_stop by exact Hs. reflexivity.
Qed.

Lemma stops_digits (p : ascii -> bool) (D X : str) :
  D <> [] -> forallb isdigit D = true ->
  (forall c, isdigit c = true -> p c = false) -> stops p (D ++ X).
Proof.
  intros Hne Hd Hp. destruct D as [|d D]; [congruence|].
  cbn [forallb] in Hd. apply andb_true_iff in Hd as [Hd _].
  cbn. apply Hp, Hd.
Qed.

Ltac word_hit := repeat (rewrite exec_ichar_hit by reflexivity).

Lemma exec_finish_part (D2 rest : str) gs :
  D2 <> [] -> forallb isdigit D2 = true ->
  Re.exec finish_part (lit "finishes at " ++ D2 ++ lit " ms" ++ rest) gs
          (fun _ gs => Some gs)
  = Some (gs ++ [D2]).
Proof.
  intros Hne Hd. unfold finish_part.
  cbn [Re.iword lit list_ascii_of_string map app Re.concat].
  word_hit.
  rewrite exec_plus_blank by reflexivity. word_hit.
  apply exec_star_blank.
  { apply stops_digits; [exact Hne|exact Hd|apply isdigit_not_space]. }
  apply exec_digits; [exact Hne|exact Hd|reflexivity|].
  apply exec_star_blank; [reflexivity|]. word_hit. reflexivity.
Qed.

(** The pattern at the place where the rendered times begin. *)
Lemma exec_rendered_times (D1 D2 rest : str) :
  D1 <> [] -> forallb isdigit D1 = true ->
  D2 <> [] -> forallb isdigit D2 = true ->
  Re.exec START_FINISH_RE
    (lit "starts at " ++ D1 ++ lit " ms, Communication finishes at "
     ++ D2 ++ lit " ms" ++ rest)
    [] (fun _ gs => Some gs)
  = Some [D1; D2].
Proof.
  intros Hne1 Hd1 Hne2 Hd2. unfold START_FINISH_RE.
  cbn [Re.iword lit list_ascii_of_string map app Re.concat].
  word_hit.
  rewrite exec_plus_blank by reflexivity. word_hit.
  apply exec_star_blank.
  { apply stops_digits; [exact Hne1|exact Hd1|apply isdigit_not_space]. }
  apply exec_digits; [exact Hne1|exact Hd1|reflexivity|].
  apply exec_star_blank; [reflexivity|]. word_hit.
  cbn [Re.exec Re.lazy_star].
  repeat (rewrite rep_lazy_step by reflexivity).
  apply rep_lazy_here.
  exact (exec_finish_part D2 rest ([] ++ [D1]) Hne2 Hd2).
Qed.

(** No match begins before the first [starts]. *)
Lemma search_skip (P T : str) :
  mentions "starts" P = false ->
  Re.search START_FINISH_RE (P ++ " "%char :: T)
  = Re.search START_FINISH_RE T.
Proof.
  unfold mentions. induction P as [|y P IH]; intros H.
  - reflexivity.
  - cbn [lower_str map contains] in H. apply orb_false_iff in H as [H1 H2].
    change ((y :: P) ++ " "%char :: T) with (y :: (P ++ " "%char :: T)).
    cbn [Re.search].
    change (y :: (P ++ " "%char :: T)) with ((y :: P) ++ " "%char :: T).
    unfold START_FINISH_RE at 1.
    rewrite (exec_iword_miss (lit "starts")).
    + apply IH. exact H2.
    + rewrite lower_str_app. cbn [lower_str map].
      rewrite startswith_cut; [exact H1|discriminate|].
      cbv. intuition discriminate.
Qed.

(** ** The text of an edge *)

Lemma edge_text_split (r : EdgeRecord) (s f : Z) :
  edge_text r s f
  = edge_head r ++ " "%char :: edge_tail (str_of_int s) (str_of_int f).
Proof.
  unfold edge_text, edge_head, edge_tail.
  cbn [lit list_ascii_of_string app].
  repeat (rewrite <- ?app_assoc; cbn [app]; f_equal).
Qed.

Lemma edge_head_plain (r : EdgeRecord) :
  plain r -> mentions "starts" (edge_head r) = false.
Proof.
  intros (H1 & H2 & H3 & H4). unfold edge_head.
  repeat (rewrite mentions_cut;
          [|discriminate|cbv; intuition discriminate]).
  rewrite H1, H2, H3, H4. reflexivity.
Qed.

Lemma search_edge_text (r : EdgeRecord) (s f : Z) :
  plain r -> 0 <= s -> 0 <= f ->
  Re.search START_FINISH_RE (edge_text r s f)
  = Some [str_of_int s; str_of_int f].
Proof.
  intros Hp Hs Hf. rewrite edge_text_split.
  rewrite search_skip by (apply edge_head_plain, Hp).
  destruct (str_of_int_digits s Hs) as [Hd1 Hn1].
  destruct (str_of_int_digits f Hf) as [Hd2 Hn2].
  unfold edge_tail.
  pose proof (exec_rendered_times _ _ (lit "].") Hn1 Hd1 Hn2 Hd2) as E.
  destruct (lit "starts at " ++ str_of_int s
            ++ lit " ms, Communication finishes at "
            ++ str_of_int f ++ lit " ms" ++ lit "].") eqn:ET;
    cbn [Re.search]; rewrite E; reflexivity.
Qed.

Lemma is_edge_line_edge_text (r : EdgeRecord) (s f : Z) :
  is_edge_line (edge_text r s f) = true.
Proof.
  unfold is_edge_line. rewrite !andb_true_iff. split; [split|].
  - reflexivity.
  - unfold edge_text.
    change (lit ", Communication starts at ")
      with (lit ", Communication " ++ lit "starts at" ++ lit " ").
    rewrite <- !app_assoc.
    do 9 apply contains_app_r.
    apply contains_startswith, startswith_app.
  - unfold edge_text.
    change (lit " ms, Communication finishes at ")
      with (lit " ms, Communication " ++ lit "finishes at" ++ lit " ").
    rewrite <- !app_assoc.
    do 11 apply contains_app_r.
    apply contains_startswith, startswith_app.
Qed.

(** The pattern finds the two times of a rendered edge. *)
Lemma match_line_edge_text (r : EdgeRecord) (s f : Z) :
  plain r -> 0 <= s -> 0 <= f ->
  match_line (edge_text r s f) = Some (s, f).
Proof.
  intros Hp Hs Hf. unfold match_line.
  rewrite is_edge_line_edge_text, search_edge_text by assumption.
  cbn [group nth Nat.sub]. rewrite !int_of_str_of_int by assumption.
  reflexivity.
Qed.

(* ===================================================================== *)
(** * [format_edge]: the text and its times *)
(* ===================================================================== *)

Lemma edge_text_body (r : EdgeRecord) (s f : Z) :
  edge_text r s f = edge_body r s f ++ lit "].".
Proof.
  unfold edge_body, drop_last.
  assert (exists b, edge_text r s f = b ++ lit "].") as (b & E).
  { unfold edge_text. eexists.
    change (lit " ms].") with (lit " ms" ++ lit "].").
    rewrite !app_assoc. reflexivity. }
  rewrite E at 2. rewrite E at 2. rewrite length_app.
  cbn [lit list_ascii_of_string length].
  replace (length b + 2 - 2)%nat with (length b) by lia.
  rewrite firstn_app, Nat.sub_diag, firstn_all, firstn_O, app_nil_r.
  exact E.
Qed.

Lemma endswith_app (a p : str) : endswith (a ++ p) p = true.
Proof. unfold endswith. rewrite rev_app_distr. apply startswith_app. Qed.

Lemma rewrite_closed (body : str) (d : Z) :
  rewrite_line (body ++ lit "].") d
  = body ++ lit ", duration=" ++ str_of_int d ++ lit " ms].".
Proof.
  unfold rewrite_line.
  change (lit "].") with (lit "]" ++ ["."%char]) at 1.
  rewrite app_assoc, rstrip_no_trailing_space by reflexivity.
  rewrite <- app_assoc.
  change (lit "]" ++ ["."%char]) with (lit "].").
  rewrite endswith_app. unfold drop_last. rewrite length_app.
  cbn [lit list_ascii_of_string length].
  replace (length body + 2 - 2)%nat with (length body) by lia.
  rewrite firstn_app, Nat.sub_diag, firstn_all, firstn_O, app_nil_r.
  reflexivity.
Qed.

Lemma annotated_edge_text (r : EdgeRecord) (s f : Z) :
  plain r -> 0 <= s -> 0 <= f ->
  annotated_line (edge_text r s f)
  = edge_body r s f ++ lit ", duration=" ++ str_of_int (Z.max 0 (f - s))
    ++ lit " ms].".
Proof.
  intros Hp Hs Hf. unfold annotated_line.
  rewrite match_line_edge_text by assumption.
  rewrite edge_text_body at 1. apply rewrite_closed.
Qed.





(* ===================================================================== *)
(** * The files of [transform4.py] under the annotators *)
(* ===================================================================== *)

Lemma splitlines_line (a rest : str) :
  one_line a = true -> splitlines (a ++ nl :: rest) = a :: splitlines rest.
Proof.
  induction a as [|c a IH]; intros H.
  - destruct rest; reflexivity.
  - cbn [one_line forallb] in H. apply andb_true_iff in H as [Hc Ha].
    apply negb_true_iff in Hc.
    cbn [app splitlines]. rewrite Hc. rewrite (IH Ha). reflexivity.
Qed.

Lemma splitlines_last (a : str) :
  one_line a = true -> a <> [] -> splitlines a = [a].
Proof.
  induction a as [|c a IH]; intros H Hne; [congruence|].
  cbn [one_line forallb] in H. apply andb_true_iff in H as [Hc Ha].
  apply negb_true_iff in Hc. cbn [splitlines]. rewrite Hc.
  destruct a as [|d a]; [reflexivity|].
  rewrite (IH Ha) by discriminate. reflexivity.
Qed.

Lemma splitlines_lines (ls : list str) (last : str) :
  Forall (fun l => one_line l = true) ls ->
  one_line last = true -> last <> [] ->
  splitlines (flat_map (fun line => line ++ [nl]) ls ++ last) = ls ++ [last].
Proof.
  intros H Hl Hne. induction H as [|l ls Hl1 _ IH].
  - apply splitlines_last; assumption.
  - cbn [flat_map app]. rewrite <- !app_assoc. cbn [app].
    rewrite splitlines_line by exact Hl1. rewrite IH. reflexivity.
Qed.

Lemma one_line_app (a b : str) :
  one_line (a ++ b) = one_line a && one_line b.
Proof. apply forallb_app. Qed.

Lemma one_line_digits (s : str) : forallb isdigit s = true -> one_line s = true.
Proof.
  unfold one_line. intros H. rewrite forallb_forall in *. intros c Hc.
  specialize (H c Hc). unfold isdigit, islinebreak, in_range in *.
  apply andb_true_iff in H as [H1 H2].
  apply Z.leb_le in H1. apply Z.leb_le in H2.
  apply negb_true_iff.
  repeat match goal with
  | |- context [(?a <=? ?b)] => destruct (Z.leb_spec a b)
  | |- context [(?a =? ?b)] => destruct (Z.eqb_spec a b)
  end; try reflexivity; lia.
Qed.

Lemma one_line_edge (e : written_edge) :
  readable e -> one_line (edge_line e) = true.
Proof.
  intros (_ & H1 & H2 & H3 & H4 & Hs & Hf).
  unfold edge_line, edge_text. rewrite !one_line_app.
  rewrite H1, H2, H3, H4.
  rewrite (one_line_digits _ (proj1 (str_of_int_digits _ Hs))).
  rewrite (one_line_digits _ (proj1 (str_of_int_digits _ Hf))).
  reflexivity.
Qed.

Lemma rstrip_snoc_space (s : str) (c : ascii) :
  isspace c = true -> rstrip (s ++ [c]) = rstrip s.
Proof.
  intros H. unfold rstrip. rewrite rev_app_distr. cbn [rev app lstrip].
  rewrite H. reflexivity.
Qed.

(** The text of the file as the annotators receive it, and its lines. *)
Lemma strip_trace_file (trace_id : str) (ls : list str) :
  strip (trace_file trace_id ls)
  = flat_map (fun line => line ++ [nl]) (frame_top trace_id ++ ls
                                         ++ [lit "</Trace Sequence>"])
    ++ repeat "="%char 80.
Proof.
  unfold strip, trace_file.
  cbn [lit list_ascii_of_string app lstrip].
  change (isspace "T"%char) with false. cbn iota.
  match goal with
  | |- rstrip ?x = _ =>
      replace x with
        ((flat_map (fun line => line ++ [nl])
            (frame_top trace_id ++ ls ++ [lit "</Trace Sequence>"])
          ++ repeat "="%char 79 ++ ["="%char]) ++ [nl])
  end.
  - rewrite rstrip_snoc_space by reflexivity.
    rewrite !app_assoc. rewrite rstrip_no_trailing_space by reflexivity.
    rewrite <- !app_assoc. reflexivity.
  - unfold frame_top. rewrite !flat_map_app.
    cbn [flat_map lit list_ascii_of_string app repeat].
    repeat first [rewrite <- app_assoc | progress cbn [app]].
    reflexivity.
Qed.

Lemma splitlines_trace_file (trace_id : str) (edges : list written_edge) :
  one_line trace_id = true -> Forall readable edges ->
  splitlines (strip (trace_file trace_id (map edge_line edges)))
  = file_lines trace_id edges.
Proof.
  intros Hid He. rewrite strip_trace_file, splitlines_lines.
  - unfold file_lines, frame_bottom. rewrite <- !app_assoc. reflexivity.
  - apply Forall_app. split; [|apply Forall_app; split].
    + unfold frame_top. repeat constructor.
      rewrite one_line_app, Hid. reflexivity.
    + apply Forall_forall. intros l Hl. apply in_map_iff in Hl as (e & <- & Hin).
      rewrite Forall_forall in He. apply one_line_edge, He, Hin.
    + repeat constructor.
  - reflexivity.
  - discriminate.
Qed.

Lemma observed_edges (edges : list written_edge) :
  Forall readable edges -> observed (map edge_line edges) = map snd edges.
Proof.
  induction 1 as [|[r [s f]] edges (Hp & _ & _ & _ & _ & Hs & Hf) _ IH];
    [reflexivity|].
  cbn [map observed flat_map]. unfold edge_line at 1. cbn [fst snd] in *.
  rewrite match_line_edge_text by assumption.
  cbn [app]. f_equal. exact IH.
Qed.

Lemma observed_file (trace_id : str) (edges : list written_edge) :
  Forall readable edges ->
  observed (file_lines trace_id edges) = map snd edges.
Proof.
  intros He. unfold file_lines. rewrite !observed_app, observed_edges by exact He.
  replace (observed (frame_top trace_id)) with (@nil (Z * Z)) by reflexivity.
  replace (observed frame_bottom) with (@nil (Z * Z))
    by (vm_compute; reflexivity).
  rewrite app_nil_r. reflexivity.
Qed.

Lemma annotated_file (trace_id : str) (edges : list written_edge) :
  Forall readable edges ->
  map annotated_line (file_lines trace_id edges)
  = frame_top trace_id ++ map edge_line_annotated edges ++ frame_bottom.
Proof.
  intros He. unfold file_lines. rewrite !map_app.
  replace (map annotated_line (frame_top trace_id)) with (frame_top trace_id)
    by reflexivity.
  replace (map annotated_line frame_bottom) with frame_bottom
    by (vm_compute; reflexivity).
  do 2 f_equal.
  rewrite map_map. apply map_ext_in. intros [r [s f]] Hin.
  rewrite Forall_forall in He.
  destruct (He _ Hin) as (Hp & _ & _ & _ & _ & Hs & Hf). cbn [fst snd] in *.
  unfold edge_line, edge_line_annotated, edge_duration. cbn [fst snd].
  apply annotated_edge_text; assumption.
Qed.

Lemma kept_file (trace_id : str) (edges : list written_edge) :
  Forall readable edges ->
  filter kept (file_lines trace_id edges) = file_lines trace_id edges.
Proof.
  intros He. apply forallb_filter_id. apply forallb_forall. intros l Hl.
  unfold file_lines in Hl.
  apply in_app_or in Hl as [Hl|Hl]; [|apply in_app_or in Hl as [Hl|Hl]].
  - destruct Hl as [<-|[<-|[]]]; unfold kept; rewrite strip_nonempty;
      reflexivity.
  - apply in_map_iff in Hl as ([r [s f]] & <- & Hin).
    rewrite Forall_forall in He.
    destruct (He _ Hin) as (Hp & _ & _ & _ & _ & Hs & Hf). cbn [fst snd] in *.
    apply matched_kept. unfold matched, edge_line. cbn [fst snd].
    rewrite match_line_edge_text by assumption. reflexivity.
  - destruct Hl as [<-|[<-|[]]]; vm_compute; reflexivity.
Qed.

(** X4.  The file that [main] of [transform4.py] writes for a trace,
    stripped as the two other scripts strip it and given to either
    annotator: every edge is counted, its duration is the difference of the
    two times that were written, floored at 0, and the lines of the output
    are the four lines around the edges, unchanged, and the lines of the
    edges with their durations. *)
Theorem written_trace_annotated (trace_id : str) (edges : list written_edge) :
  one_line trace_id = true -> Forall readable edges ->
  let txt := strip (trace_file trace_id (map edge_line edges)) in
  forall run a,
    run = TraceEvol.annotate \/ run = BalancedTestset.annotate ->
    run txt = inr a ->
    num_edges (stats a) = len edges
    /\ edge_durations a = map edge_duration edges
    /\ lines_out a
       = frame_top trace_id ++ map edge_line_annotated edges ++ frame_bottom.
Proof.
  intros Hid He txt run a Hrun Ha.
  assert (edge_durations_of (file_lines trace_id edges)
          = map edge_duration edges) as Hd.
  { unfold edge_durations_of. rewrite observed_file by exact He.
    rewrite map_map. reflexivity. }
  assert (len (map edge_duration edges) = len edges) as Hl.
  { unfold len. rewrite length_map. reflexivity. }
  destruct Hrun as [-> | ->].
  - unfold TraceEvol.annotate in Ha. subst txt.
    rewrite splitlines_trace_file in Ha by assumption.
    rewrite TraceEvol_annotate_lines_spec in Ha.
    rewrite Hd, annotated_file in Ha by exact He.
    destruct (mean_overflows _); [discriminate|]. injection Ha as <-.
    cbn [stats edge_durations lines_out]. unfold features_of.
    cbn [num_edges]. auto.
  - unfold BalancedTestset.annotate, BalancedTestset.kept_lines in Ha.
    subst txt. rewrite splitlines_trace_file in Ha by assumption.
    change (fun l => nonempty (strip l)) with kept in Ha.
    rewrite kept_file in Ha by exact He.
    rewrite BalancedTestset_annotate_lines_spec in Ha.
    rewrite Hd, annotated_file in Ha by exact He.
    destruct (mean_overflows _); [discriminate|]. injection Ha as <-.
    cbn [stats edge_durations lines_out]. unfold features_of.
    cbn [num_edges]. auto.
Qed.

Lemma example_edges_readable : Forall readable example_edges.
Proof.
  repeat constructor; cbn; lia.
Defined.

Lemma written_trace_annotated_witness :
  num_edges (stats example_annotation) = 2
  /\ edge_durations example_annotation = [2; 40].
Proof.
  destruct (written_trace_annotated (lit "t1") example_edges
              eq_refl example_edges_readable TraceEvol.annotate
              example_annotation (or_introl eq_refl))
    as (H1 & H2 & _).
  - vm_compute. reflexivity.
  - split; [exact H1|exact H2].
Defined.

(* ===================================================================== *)
(** * [extract_spans] *)
(* ===================================================================== *)

Lemma SpanTree_induction (P : SpanTree -> Prop) :
  (forall s cs, Forall P cs -> P (SpanNode s cs)) -> forall t, P t.
Proof.
  intros H. fix IH 1. intros [s cs]. apply H.
  induction cs as [|c cs IHcs]; constructor; [apply IH|exact IHcs].
Qed.

Lemma extract_children (cs : list SpanTree) :
  Forall (fun c => forall acc, extract_spans c (Some acc) = acc ++ preorder c) cs ->
  forall acc,
    fold_left (fun spans child_span => extract_spans child_span (Some spans))
              cs acc
    = acc ++ flat_map preorder cs.
Proof.
  induction 1 as [|c cs Hc _ IH]; intros acc; cbn [fold_left flat_map].
  - rewrite app_nil_r. reflexivity.
  - rewrite Hc, IH, app_assoc. reflexivity.
Qed.

Lemma extract_spans_acc (t : SpanTree) : forall acc,
  extract_spans t (Some acc) = acc ++ preorder t.
Proof.
  induction t as [s cs IH] using SpanTree_induction. intros acc.
  cbn [extract_spans preorder].
  rewrite (extract_children cs IH), <- app_assoc. reflexivity.
Qed.

Lemma extract_spans_preorder (t : SpanTree)
    (spans : option (list SpanTree)) :
  extract_spans t spans
  = match spans with None => [] | Some l => l end ++ preorder t.
Proof.
  destruct spans as [l|].
  - apply extract_spans_acc.
  - destruct t as [s cs]. cbn [extract_spans preorder].
    rewrite (extract_children cs).
    + reflexivity.
    + apply Forall_forall. intros c _. apply extract_spans_acc.
Qed.

(** X1.  [extract_spans] appends to the list it is given (to an
    empty list when it is given none) the span, then the spans below each of
    its children, child by child: what the list held before is kept, and the
    tree is listed parents first. *)
Theorem extract_spans_appends_preorder (t : SpanTree) (acc : list SpanTree) :
  extract_spans t (Some acc) = acc ++ extract_spans t None
  /\ extract_spans t None
     = t :: flat_map (fun c => extract_spans c None) (children_span_list t)
  /\ hd_error (extract_spans t None) = Some t.
Proof.
  rewrite !extract_spans_preorder. cbn [app]. repeat split.
  - destruct t as [s cs]. cbn [preorder children_span_list]. f_equal.
    apply flat_map_ext. intros c. rewrite extract_spans_preorder. reflexivity.
  - destruct t; reflexivity.
Qed.

(* ===================================================================== *)
(** * The sequence of a span tree *)
(* ===================================================================== *)























(* ===================================================================== *)
(** * The figures of the annotator *)
(* ===================================================================== *)

(** ** Quotients of small integers *)

Lemma pow2_le_true (d a b : Z) :
  Float.pow2_le d a b = true ->
  if 0 <=? d then b * 2 ^ d <= a else b <= a * 2 ^ (- d).
Proof.
  unfold Float.pow2_le. destruct (0 <=? d); intros H; apply Z.leb_le, H.
Qed.

Lemma pow2_le_false (d a b : Z) :
  Float.pow2_le d a b = false ->
  if 0 <=? d then a < b * 2 ^ d else a * 2 ^ (- d) < b.
Proof.
  unfold Float.pow2_le. destruct (0 <=? d); intros H;
    apply Z.leb_gt, H.
Qed.

(** A quotient that is at most 1 rounds to at most 1. *)
Lemma round_le_one (a b : Z) :
  0 <= a <= b -> 0 < b ->
  0 <= Float.fnum (Float.round a b)
  /\ Float.leb_int (Float.round a b) 1 = true.
Proof.
  intros Ha Hb. unfold Float.round. destruct (a =? 0) eqn:E.
  { split; [cbn; lia|reflexivity]. }
  apply Z.eqb_neq in E.
  assert (HL : Float.ilog2 (Z.abs a) b <= 0).
  { unfold Float.ilog2.
    assert (Z.log2 (Z.abs a) <= Z.log2 b) by (apply Z.log2_le_mono; lia).
    destruct (Float.pow2_le _ _ _); lia. }
  unfold Float.round_pos, Float.leb_int. cbn [Float.fexp Float.fnum].
  set (e := Z.max (Float.ilog2 (Z.abs a) b - 52) Float.emin) in *.
  assert (e < 0) as He by (unfold e, Float.emin; lia).
  replace (0 <=? e) with false by (symmetry; apply Z.leb_gt; lia).
  rewrite Z.abs_eq by lia. replace (Z.sgn a) with 1 by lia.
  assert (0 < 2 ^ (- e)) by (apply Z.pow_pos_nonneg; lia).
  split.
  - rewrite Z.mul_1_l. apply rne_nonneg; nia.
  - apply Z.leb_le. rewrite !Z.mul_1_l. apply rne_le; nia.
Qed.

Lemma div_between (m k d : Z) :
  0 < d -> k * d <= m < (k + 1) * d -> m / d = k.
Proof.
  intros Hd H. symmetry. apply (Z.div_unique m d k (m - k * d)); lia.
Qed.

(** The quotient of two integers, rounded and then truncated, is their
    integer quotient as long as the dividend is below [2 ^ 53]. *)
Lemma trunc_round_floor (a n : Z) :
  0 <= a < 2 ^ 53 -> 0 < n -> Float.trunc (Float.round a n) = a / n.
Proof.
  intros Ha Hn. unfold Float.round. destruct (a =? 0) eqn:E.
  { apply Z.eqb_eq in E. subst a. reflexivity. }
  apply Z.eqb_neq in E. assert (0 < a) as Hpos by lia.
  rewrite Z.abs_eq by lia. replace (Z.sgn a) with 1 by lia.
  rewrite Z.mul_1_l.
  replace (Float.mk (Float.fnum (Float.round_pos a n))
                    (Float.fexp (Float.round_pos a n)))
    with (Float.round_pos a n) by (destruct (Float.round_pos a n); reflexivity).
  pose proof (Z.mul_div_le a n Hn) as Hlo.
  pose proof (Z.mul_succ_div_gt a n Hn) as Hhi.
  set (k := a / n) in *.
  assert (0 <= k) as Hk by (apply Z.div_pos; lia).
  destruct (Z_le_gt_dec 52 (Float.ilog2 a n)) as [HL|HL].
  - (* the quotient is at least 2 ^ 52: the divisor is 1 *)
    destruct (round_pos_large a n Hpos Hn HL) as [-> [B1 B2]].
    set (e := Float.ilog2 a n - 52) in *.
    assert (0 < 2 ^ e) by (apply Z.pow_pos_nonneg; lia).
    assert (n * 2 ^ e < 2) as Hsmall.
    { change (2 ^ 53) with (2 * 2 ^ 52) in Ha. nia. }
    assert (n = 1 /\ 2 ^ e = 1) as [-> He] by nia.
    assert (e = 0) as ->.
    { destruct (Z.eq_dec e 0) as [|Hne]; [assumption|].
      assert (2 ^ 1 <= 2 ^ e) by (apply Z.pow_le_mono_r; lia).
      change (2 ^ 1) with 2 in *. lia. }
    unfold Float.trunc. cbn [Float.fexp Float.fnum Z.leb Z.compare].
    change (1 * 2 ^ 0) with 1. rewrite rne_exact.
    subst k. rewrite Z.div_1_r. change (2 ^ 0) with 1. lia.
  - destruct (Z_le_gt_dec Float.emin (Float.ilog2 a n - 52)) as [HE|HE].
    + (* a normal number below 2 ^ 52 *)
      destruct (round_pos_small a n Hpos Hn HE ltac:(lia)) as [-> [B1 B2]].
      set (s := 52 - Float.ilog2 a n) in *.
      assert (0 < s) by (unfold s; lia).
      assert (0 < 2 ^ s) by (apply Z.pow_pos_nonneg; lia).
      unfold Float.trunc. cbn [Float.fexp Float.fnum].
      replace (0 <=? - s) with false by (symmetry; apply Z.leb_gt; lia).
      rewrite Z.opp_involutive.
      pose proof (rne_bounds (a * 2 ^ s) n Hn) as [R1 R2].
      set (m := Float.rne (a * 2 ^ s) n) in *.
      assert (k * 2 ^ s <= m) as M1 by (apply rne_ge; nia).
      assert (m < (k + 1) * 2 ^ s) as M2.
      { destruct (Z_lt_ge_dec m ((k + 1) * 2 ^ s)) as [|Hge]; [assumption|].
        exfalso.
        assert (n < 2 * 2 ^ s)
          by (change (2 ^ 53) with (2 * 2 ^ 52) in *; nia).
        assert (1 <= n * (k + 1) - a) by (unfold Z.succ in Hhi; lia).
        nia. }
      rewrite Z.quot_div_nonneg by nia.
      apply div_between; lia.
    + (* below the normal range: the quotient is below 1 *)
      destruct (ilog2_spec a n Hpos Hn) as [_ Hup].
      apply pow2_le_false in Hup.
      replace (0 <=? Float.ilog2 a n + 1) with false in Hup
        by (symmetry; apply Z.leb_gt; unfold Float.emin in HE; lia).
      unfold Float.emin in HE.
      set (d := - (Float.ilog2 a n + 1)) in *.
      assert (2 ^ 1022 <= 2 ^ d) by (apply Z.pow_le_mono_r; lia).
      assert (0 < 2 ^ 1022) by (apply Z.pow_pos_nonneg; lia).
      assert (a * 2 ^ 1022 < n) as Hsmall by nia.
      unfold Float.round_pos, Float.trunc.
      replace (Z.max (Float.ilog2 a n - 52) Float.emin) with (-1074)
        by (unfold Float.emin; lia).
      cbn [Z.leb Z.compare Float.fexp Float.fnum Z.opp].
      assert (Float.rne (a * 2 ^ 1074) n <= 2 ^ 52) as M.
      { apply rne_le; [assumption|].
        change (2 ^ 1074) with (2 ^ 52 * 2 ^ 1022). nia. }
      assert (0 <= Float.rne (a * 2 ^ 1074) n) as M0.
      { apply rne_nonneg; [|assumption].
        apply Z.mul_nonneg_nonneg; [lia|]. apply Z.pow_nonneg. lia. }
      rewrite Z.quot_small.
      * symmetry. apply Z.div_small. nia.
      * split; [assumption|].
        eapply Z.le_lt_trans; [exact M|]. apply Z.pow_lt_mono_r; lia.
Qed.

(** What either copy returns, in terms of the lines it scans. *)
Lemma annotation_shape (run : str -> result annotation) (txt : str)
    (a : annotation) :
  annotator run -> run txt = inr a ->
  exists lines T,
    scanned run txt lines
    /\ a = mkAnnotation (features_of (edge_durations_of lines) T)
                        (edge_durations_of lines)
                        (map annotated_line lines)
    /\ (T = sum (edge_durations_of lines) \/ T = span_of (observed lines)).
Proof.
  intros [-> | ->] Ha.
  - exists (splitlines txt), (TraceEvol.total (scan (splitlines txt))).
    unfold TraceEvol.annotate in Ha.
    rewrite TraceEvol_annotate_lines_spec in Ha.
    destruct (mean_overflows _); [discriminate|]. injection Ha as <-.
    split; [left; auto|]. split; [reflexivity|].
    apply total_is_sum_or_span.
  - exists (BalancedTestset.kept_lines txt),
           (span_of (observed (BalancedTestset.kept_lines txt))).
    unfold BalancedTestset.annotate in Ha.
    rewrite BalancedTestset_annotate_lines_spec in Ha.
    destruct (mean_overflows _); [discriminate|]. injection Ha as <-.
    split; [right; auto|]. split; [reflexivity|]. right. reflexivity.
Qed.

Lemma edge_durations_nonneg (lines : list str) :
  Forall (fun d => 0 <= d) (edge_durations_of lines).
Proof. apply duration_of_nonneg. Qed.

Lemma max_of_nonneg (ds : list Z) :
  Forall (fun d => 0 <= d) ds -> 0 <= max_of ds.
Proof.
  intros H. destruct ds as [|d ds]; [cbn; lia|].
  destruct (max_of_spec (d :: ds)) as [Hin _]; [discriminate|].
  rewrite Forall_forall in H. apply H, Hin.
Qed.

Lemma max_of_le_total (lines : list str) (T : Z) :
  T = sum (edge_durations_of lines) \/ T = span_of (observed lines) ->
  max_of (edge_durations_of lines) <= T.
Proof.
  intros [-> | ->].
  - apply max_of_le_sum, edge_durations_nonneg.
  - apply max_of_le_span.
Qed.

Lemma nth_sorted_bounds (ds : list Z) (i : nat) :
  Forall (fun d => 0 <= d) ds ->
  0 <= nth i (sorted (fun d => d) ds) 0 <= max_of ds.
Proof.
  intros H. destruct (nth_in_or_default i (sorted (fun d => d) ds) 0) as [Hin| ->].
  - apply (Permutation_in _ (sorted_perm _ ds)) in Hin.
    destruct ds as [|d ds]; [contradiction|].
    destruct (max_of_spec (d :: ds)) as [_ Hmax]; [discriminate|].
    rewrite Forall_forall in H, Hmax. split; [apply H, Hin|apply Hmax, Hin].
  - split; [lia|apply max_of_nonneg, H].
Qed.

Lemma trunc_round_nonneg (a n : Z) :
  0 <= a -> 0 < n -> 0 <= Float.trunc (Float.round a n).
Proof.
  intros Ha Hn. unfold Float.round. destruct (a =? 0) eqn:E; [cbn; lia|].
  apply Z.eqb_neq in E. replace (Z.sgn a) with 1 by lia.
  rewrite Z.abs_eq by lia. rewrite Z.mul_1_l.
  unfold Float.round_pos, Float.trunc. cbn [Float.fexp Float.fnum].
  set (e := Z.max (Float.ilog2 a n - 52) Float.emin).
  destruct (0 <=? e) eqn:He.
  - apply Z.leb_le in He.
    assert (0 < 2 ^ e) by (apply Z.pow_pos_nonneg; lia).
    apply Z.mul_nonneg_nonneg; [|lia]. apply rne_nonneg; nia.
  - apply Z.leb_gt in He.
    assert (0 < 2 ^ (- e)) by (apply Z.pow_pos_nonneg; lia).
    apply Z.quot_pos; [|lia]. apply rne_nonneg; nia.
Qed.

(** X5.  The figures that either copy of the annotator returns are
    ordered: [0 <= p95 <= max <= total], the mean is not negative, and the
    ratio of the longest edge lies between 0 and 1. *)
Theorem features_are_ordered (run : str -> result annotation) (txt : str)
    (a : annotation) :
  annotator run -> run txt = inr a ->
  let fs := stats a in
  num_edges fs = len (edge_durations a)
  /\ 0 <= p95_edge_latency_ms fs <= max_edge_latency_ms fs
  /\ max_edge_latency_ms fs <= total_latency_ms fs
  /\ 0 <= mean_edge_latency_ms fs
  /\ 0 <= Float.fnum (max_edge_ratio fs)
  /\ Float.leb_int (max_edge_ratio fs) 1 = true.
Proof.
  intros Hrun Ha.
  destruct (annotation_shape run txt a Hrun Ha) as (lines & T & _ & -> & HT).
  cbn [stats edge_durations]. unfold features_of.
  cbn [num_edges p95_edge_latency_ms max_edge_latency_ms total_latency_ms
       mean_edge_latency_ms max_edge_ratio].
  pose proof (edge_durations_nonneg lines) as Hds.
  pose proof (max_of_le_total lines T HT) as Hmax.
  pose proof (max_of_nonneg _ Hds) as Hmax0.
  set (ds := edge_durations_of lines) in *.
  split; [reflexivity|]. split; [apply nth_sorted_bounds, Hds|].
  split; [exact Hmax|]. split.
  - destruct ds as [|d ds']; [lia|].
    apply trunc_round_nonneg; [apply sum_nonneg, Hds|].
    unfold len. cbn [length]. lia.
  - destruct (0 <? T) eqn:E.
    + apply Z.ltb_lt in E. apply round_le_one; lia.
    + split; [cbn; lia|reflexivity].
Qed.

Lemma two_edges_annotated :
  annotator BalancedTestset.annotate
  /\ BalancedTestset.annotate two_edges = inr two_edges_annotation.
Proof. split; [right; reflexivity|vm_compute; reflexivity]. Defined.

Lemma features_are_ordered_witness :
  0 <= p95_edge_latency_ms (stats two_edges_annotation) <= 100
  /\ 100 <= total_latency_ms (stats two_edges_annotation)
  /\ Float.leb_int (max_edge_ratio (stats two_edges_annotation)) 1 = true.
Proof.
  destruct (features_are_ordered BalancedTestset.annotate two_edges
              two_edges_annotation (proj1 two_edges_annotated)
              (proj2 two_edges_annotated))
    as (_ & H1 & H2 & _ & _ & H3).
  split; [exact H1|]. split; [exact H2|exact H3].
Defined.

Lemma index_from_first (l : list Z) (x : Z) : forall k i,
  index_from k l x = inr i ->
  k <= i < k + len l
  /\ nth (Z.to_nat (i - k)) l 0 = x
  /\ forall j, (j < Z.to_nat (i - k))%nat -> nth j l 0 <> x.
Proof.
  induction l as [|y l IH]; intros k i H; [discriminate|].
  cbn [index_from] in H. unfold len. cbn [length].
  destruct (y =? x) eqn:E.
  - injection H as <-. apply Z.eqb_eq in E. rewrite Z.sub_diag.
    repeat split; try lia. exact E.
  - apply Z.eqb_neq in E. destruct (IH _ _ H) as (R & N & F).
    unfold len in R.
    replace (Z.to_nat (i - k)) with (S (Z.to_nat (i - (k + 1)))) by lia.
    repeat split; try lia.
    + exact N.
    + intros [|j] Hj; [exact E|]. cbn [nth]. apply F. lia.
Qed.

(** The index of the first longest duration. *)
Lemma bottleneck_spec (ds : list Z) (T : Z) :
  ds <> [] ->
  let b := bottleneck_index (features_of ds T) in
  0 <= b < len ds
  /\ nth (Z.to_nat b) ds 0 = max_of ds
  /\ (forall d, In d ds -> d <= max_of ds)
  /\ forall j, (j < Z.to_nat b)%nat -> nth j ds 0 < max_of ds.
Proof.
  intros Hne. unfold features_of. cbn [bottleneck_index].
  destruct (max_of_spec ds Hne) as [Hin Hmax].
  destruct (index_from_found ds (max_of ds) Hin 0) as (i & Hi & _).
  unfold py_index. rewrite Hi. unfold ret.
  destruct (index_from_first ds (max_of ds) 0 i Hi) as (R & N & F).
  rewrite Z.sub_0_r in N, F. rewrite Forall_forall in Hmax.
  repeat split; try lia; try assumption.
  intros j Hj. specialize (F j Hj).
  assert (In (nth j ds 0) ds) as Hj'.
  { apply nth_In. unfold len in R. lia. }
  specialize (Hmax _ Hj'). lia.
Qed.

(** X6.  [bottleneck_index] is [-1] when no edge was found;
    otherwise it is the position, counted from 0 in the order of the text,
    of the first edge whose duration is the maximum. *)
Theorem bottleneck_is_first_longest (run : str -> result annotation)
    (txt : str) (a : annotation) :
  annotator run -> run txt = inr a ->
  let ds := edge_durations a in
  let b := bottleneck_index (stats a) in
  let mx := max_edge_latency_ms (stats a) in
  (ds = [] -> b = -1 /\ mx = 0)
  /\ (ds <> [] ->
      0 <= b < len ds
      /\ nth (Z.to_nat b) ds 0 = mx
      /\ (forall d, In d ds -> d <= mx)
      /\ forall j, (j < Z.to_nat b)%nat -> nth j ds 0 < mx).
Proof.
  intros Hrun Ha.
  destruct (annotation_shape run txt a Hrun Ha) as (lines & T & _ & -> & _).
  cbn [stats edge_durations]. split.
  - intros ->. split; reflexivity.
  - intros Hne. exact (bottleneck_spec _ T Hne).
Qed.

Lemma bottleneck_is_first_longest_witness :
  0 <= bottleneck_index (stats two_edges_annotation) < 2
  /\ nth (Z.to_nat (bottleneck_index (stats two_edges_annotation)))
         [100; 30] 0 = 100.
Proof.
  destruct (bottleneck_is_first_longest BalancedTestset.annotate two_edges
              two_edges_annotation (proj1 two_edges_annotated)
              (proj2 two_edges_annotated))
    as (_ & H).
  destruct H as (H1 & H2 & _); [discriminate|].
  split; [exact H1|exact H2].
Defined.

(** X7.  [mean_edge_latency_ms] is the integer part of the mean: the
    sum of the durations divided by their number, rounded down, as long as
    the sum is below [2 ** 53]. *)
Theorem mean_is_floor (run : str -> result annotation) (txt : str)
    (a : annotation) :
  annotator run -> run txt = inr a ->
  sum (edge_durations a) < 2 ^ 53 ->
  mean_edge_latency_ms (stats a)
  = sum (edge_durations a) / len (edge_durations a).
Proof.
  intros Hrun Ha Hsum.
  destruct (annotation_shape run txt a Hrun Ha) as (lines & T & _ & -> & _).
  cbn [stats edge_durations] in *. unfold features_of.
  cbn [mean_edge_latency_ms].
  pose proof (edge_durations_nonneg lines) as Hds.
  set (ds := edge_durations_of lines) in *.
  destruct ds as [|d ds'] eqn:E; [reflexivity|]. rewrite <- E in *.
  apply trunc_round_floor.
  - split; [apply sum_nonneg, Hds|exact Hsum].
  - rewrite E. unfold len. cbn [length]. lia.
Qed.

Lemma mean_is_floor_witness :
  mean_edge_latency_ms (stats two_edges_annotation) = 130 / 2.
Proof.
  apply (mean_is_floor BalancedTestset.annotate two_edges
           two_edges_annotation (proj1 two_edges_annotated)
           (proj2 two_edges_annotated)).
  vm_compute. reflexivity.
Defined.

Lemma observed_none (lines : list str) :
  Forall (fun l => bracketed_match l = false) lines -> observed lines = [].
Proof.
  induction 1 as [|l lines Hl _ IH]; [reflexivity|].
  cbn [observed flat_map]. fold (observed lines). rewrite IH.
  destruct (match_line l) eqn:E; [|reflexivity].
  assert (matched l = true) as Hm by (unfold matched; rewrite E; reflexivity).
  apply matched_bracketed in Hm. congruence.
Qed.

Lemma annotated_none (lines : list str) :
  Forall (fun l => bracketed_match l = false) lines ->
  map annotated_line lines = lines.
Proof.
  induction 1 as [|l lines Hl _ IH]; [reflexivity|].
  cbn [map]. rewrite IH, (annotated_line_unmatched l Hl). reflexivity.
Qed.

(** X8.  On a text without a matching line (the empty text is one)
    neither copy raises: there are no durations, every figure is 0, the
    ratio is printed as [0.0000], the bottleneck index is [-1], and the
    lines follow the header unchanged. *)
Theorem text_without_edges (txt : str) :
  Forall (fun l => bracketed_match l = false) (splitlines txt) ->
  TraceEvol.parse_trace_and_stats txt
  = inr (TraceEvol.mkTraceStats [] 0 (-1) Float.zero
           (no_edge_header ++ [nl] ++ join [nl] (splitlines txt)) 0 0)
  /\ BalancedTestset.parse_trace_and_stats txt
     = inr (no_edge_header ++ [nl]
            ++ join [nl] (BalancedTestset.kept_lines txt)).
Proof.
  intros H. split.
  - unfold TraceEvol.parse_trace_and_stats, TraceEvol.annotate.
    rewrite TraceEvol_annotate_lines_spec.
    assert (TraceEvol.total (scan (splitlines txt)) = 0) as ->.
    { destruct (total_is_sum_or_span (splitlines txt)) as [-> | ->];
        unfold edge_durations_of; rewrite (observed_none _ H); reflexivity. }
    unfold edge_durations_of. rewrite (observed_none _ H).
    rewrite (annotated_none _ H). cbn [map mean_overflows nonempty andb].
    unfold ret. cbn [bind stats lines_out edge_durations].
    change (features_of [] 0) with (features_of [] (span_of [])).
    replace (header (features_of [] (span_of []))) with no_edge_header
      by (vm_compute; reflexivity).
    cbn [features_of max_edge_latency_ms bottleneck_index max_edge_ratio
         num_edges total_latency_ms].
    rewrite <- app_assoc. reflexivity.
  - assert (Forall (fun l => bracketed_match l = false)
                   (BalancedTestset.kept_lines txt)) as H'.
    { rewrite Forall_forall in *. intros l Hl. apply H.
      unfold BalancedTestset.kept_lines in Hl. apply filter_In in Hl. apply Hl. }
    unfold BalancedTestset.parse_trace_and_stats, BalancedTestset.annotate.
    rewrite BalancedTestset_annotate_lines_spec.
    unfold edge_durations_of. rewrite (observed_none _ H').
    rewrite (annotated_none _ H'). cbn [map mean_overflows nonempty andb].
    unfold ret. cbn [bind stats lines_out edge_durations].
    change (features_of [] 0) with (features_of [] (span_of [])).
    replace (header (features_of [] (span_of []))) with no_edge_header
      by (vm_compute; reflexivity).
    cbn [features_of max_edge_latency_ms bottleneck_index max_edge_ratio
         num_edges total_latency_ms].
    reflexivity.
Qed.

Lemma text_without_edges_witness :
  TraceEvol.parse_trace_and_stats []
  = inr (TraceEvol.mkTraceStats [] 0 (-1) Float.zero (no_edge_header ++ [nl]) 0 0)
  /\ BalancedTestset.parse_trace_and_stats [] = inr (no_edge_header ++ [nl]).
Proof.
  destruct (text_without_edges [] (Forall_nil _)) as [H1 H2].
  split; [exact H1|exact H2].
Defined.

(* ===================================================================== *)
(** * [build_sharegpt] *)
(* ===================================================================== *)

Lemma startswith_refl (w : str) : startswith w w = true.
Proof. rewrite <- (app_nil_r w) at 1. apply startswith_app. Qed.

Lemma contains_suffix (a w : str) : contains (a ++ w) w = true.
Proof. apply contains_app_r, contains_startswith, startswith_refl. Qed.

Lemma explanation_verdict (st : TraceEvol.trace_stats) (label : str) :
  exists body,
    explanation st label
    = body ++ verdict_line
      ++ (if eqb_str label (lit "异常") then lit "异常" else lit "正常").
Proof.
  unfold explanation, verdict_line.
  destruct (eqb_str label (lit "异常")); eexists;
    rewrite !app_assoc; reflexivity.
Qed.

Lemma valid_ending_verdict (body : str) (b : bool) :
  valid_ending (body ++ verdict_line ++ (if b then lit "异常" else lit "正常"))
  = true.
Proof.
  unfold valid_ending, verdict_line. rewrite <- !app_assoc. destruct b.
  - rewrite (contains_suffix body (_ ++ _ ++ lit "异常")). apply orb_true_r.
  - rewrite (contains_suffix body (_ ++ _ ++ lit "正常")). reflexivity.
Qed.

Lemma build_sharegpt_cases (choice : nat) (txt label : str) :
  match TraceEvol.parse_trace_and_stats txt with
  | inl e => build_sharegpt choice txt label = inl e
  | inr st =>
      build_sharegpt choice txt label
      = inr (mkShareGPT
               [mkMessage (lit "system")
                  (lit "你是一个专家级调用链分析师。请先分析Trace的特征，最后给出“正常”或“异常”的结论。");
                mkMessage (lit "user")
                  (TraceEvol.d_cooked_user st ++ [nl]
                   ++ nth choice QUESTION_POOL []);
                mkMessage (lit "assistant") (explanation st label)])
  end.
Proof.
  unfold build_sharegpt.
  destruct (TraceEvol.parse_trace_and_stats txt); reflexivity.
Qed.

(** X9.  [build_sharegpt] raises only what [parse_trace_and_stats]
    raises.  When it returns, the conversation has three messages, the last
    one from the assistant, and the text of the assistant ends with the line
    [====结论====] followed by [异常] when the label is exactly [异常] and by
    [正常] for every other label; so the test of the last loop of [main]
    accepts it. *)
Theorem build_sharegpt_verdict (choice : nat) (txt label : str) :
  (forall e, TraceEvol.parse_trace_and_stats txt = inl e ->
             build_sharegpt choice txt label = inl e)
  /\ (forall st, TraceEvol.parse_trace_and_stats txt = inr st ->
        exists system user body,
          build_sharegpt choice txt label
          = inr (mkShareGPT
                   [mkMessage (lit "system") system;
                    mkMessage (lit "user") user;
                    mkMessage (lit "assistant")
                      (body ++ verdict_line
                       ++ (if eqb_str label (lit "异常")
                           then lit "异常" else lit "正常"))])
          /\ valid_ending
               (body ++ verdict_line
                ++ (if eqb_str label (lit "异常")
                    then lit "异常" else lit "正常")) = true).
Proof.
  pose proof (build_sharegpt_cases choice txt label) as H. split.
  - intros e He. rewrite He in H. exact H.
  - intros st Hst. rewrite Hst in H.
    destruct (explanation_verdict st label) as (body & Hb).
    rewrite Hb in H. eexists _, _, body. split; [exact H|].
    apply valid_ending_verdict.
Qed.

Lemma build_sharegpt_verdict_witness :
  exists system user body,
    build_sharegpt 0 two_late_edges (lit "异常")
    = inr (mkShareGPT
             [mkMessage (lit "system") system;
              mkMessage (lit "user") user;
              mkMessage (lit "assistant")
                (body ++ verdict_line ++ lit "异常")]).
Proof.
  destruct (proj2 (build_sharegpt_verdict 0 two_late_edges (lit "异常"))
              two_late_edges_stats)
    as (system & user & body & H & _).
  - vm_compute. reflexivity.
  - exists system, user, body. exact H.
Defined.

(** What [trace_evol.py] returns, in terms of the lines of the text. *)
Lemma TraceEvol_parse_shape (txt : str) (st : TraceEvol.trace_stats) :
  TraceEvol.parse_trace_and_stats txt = inr st ->
  exists T,
    let ds := edge_durations_of (splitlines txt) in
    (T = sum ds \/ T = span_of (observed (splitlines txt)))
    /\ TraceEvol.d_durations st = ds
    /\ TraceEvol.d_num_edges st = len ds
    /\ TraceEvol.d_max_edge st = max_of ds
    /\ TraceEvol.d_total_latency_ms st = T
    /\ TraceEvol.d_bottleneck_index st = bottleneck_index (features_of ds T)
    /\ TraceEvol.d_max_edge_ratio st
       = if 0 <? T then Float.round (max_of ds) T else Float.zero.
Proof.
  unfold TraceEvol.parse_trace_and_stats, TraceEvol.annotate.
  rewrite TraceEvol_annotate_lines_spec.
  destruct (mean_overflows _); [discriminate|].
  unfold ret. cbn [bind]. intros [= <-].
  exists (TraceEvol.total (scan (splitlines txt))).
  cbn [TraceEvol.d_durations TraceEvol.d_num_edges TraceEvol.d_max_edge
       TraceEvol.d_total_latency_ms TraceEvol.d_bottleneck_index
       TraceEvol.d_max_edge_ratio stats edge_durations].
  split; [apply total_is_sum_or_span|]. repeat split.
Qed.

Lemma no_durations_no_total (lines : list str) (T : Z) :
  edge_durations_of lines = [] ->
  T = sum (edge_durations_of lines) \/ T = span_of (observed lines) ->
  T = 0.
Proof.
  intros E [-> | ->].
  - rewrite E. reflexivity.
  - unfold edge_durations_of in E. apply map_eq_nil in E. rewrite E.
    reflexivity.
Qed.

(** X10.  When the text of the assistant names a bottleneck (the ratio
    is above 0.9, or above 0.5 for the shorter sentence), there is at least
    one edge and the index that is named is the one of an edge: the first
    whose duration is the maximum. *)
Theorem named_bottleneck_exists (txt : str) (st : TraceEvol.trace_stats) :
  TraceEvol.parse_trace_and_stats txt = inr st ->
  float_ltb lit_0_5 (TraceEvol.d_max_edge_ratio st) = true ->
  let b := TraceEvol.d_bottleneck_index st in
  0 <= b < TraceEvol.d_num_edges st
  /\ nth (Z.to_nat b) (TraceEvol.d_durations st) 0 = TraceEvol.d_max_edge st
  /\ 0 < TraceEvol.d_total_latency_ms st.
Proof.
  intros Hst Hr.
  destruct (TraceEvol_parse_shape txt st Hst)
    as (T & HT & -> & -> & -> & -> & -> & Hratio).
  rewrite Hratio in Hr.
  destruct (0 <? T) eqn:E; [|vm_compute in Hr; discriminate Hr].
  apply Z.ltb_lt in E.
  assert (edge_durations_of (splitlines txt) <> []) as Hne.
  { intros E0. pose proof (no_durations_no_total _ T E0 HT). lia. }
  destruct (bottleneck_spec _ T Hne) as (H1 & H2 & _).
  repeat split; try assumption; apply H1.
Qed.

Lemma named_bottleneck_exists_witness :
  0 <= TraceEvol.d_bottleneck_index two_late_edges_stats
    < TraceEvol.d_num_edges two_late_edges_stats.
Proof.
  apply (named_bottleneck_exists two_late_edges two_late_edges_stats);
    vm_compute; reflexivity.
Defined.

(* ===================================================================== *)
(** * The order of strings *)
(* ===================================================================== *)

Lemma str_leb_refl (a : str) : str_leb a a = true.
Proof.
  induction a as [|x a IH]; [reflexivity|]. cbn [str_leb].
  rewrite Z.ltb_irrefl. exact IH.
Qed.

Lemma str_leb_total (a : str) : forall b,
  str_leb a b = false -> str_leb b a = true.
Proof.
  induction a as [|x a IH]; intros [|y b] H; try reflexivity; try discriminate.
  cbn [str_leb] in *.
  destruct (code x <? code y) eqn:E1; [discriminate|].
  destruct (code y <? code x) eqn:E2; [reflexivity|].
  apply IH, H.
Qed.

Lemma str_leb_trans (a : str) : forall b c,
  str_leb a b = true -> str_leb b c = true -> str_leb a c = true.
Proof.
  induction a as [|x a IH]; intros [|y b] [|z c] H1 H2;
    try reflexivity; try discriminate.
  cbn [str_leb] in *.
  destruct (code x <? code y) eqn:E1, (code y <? code x) eqn:E2,
           (code y <? code z) eqn:E3, (code z <? code y) eqn:E4,
           (code x <? code z) eqn:E5, (code z <? code x) eqn:E6;
    try reflexivity; try discriminate;
    rewrite ?Z.ltb_lt, ?Z.ltb_ge in *; try lia.
  apply (IH b c); assumption.
Qed.

Lemma insert_str_perm (x : str) (l : list str) :
  Permutation (insert_str x l) (x :: l).
Proof.
  induction l as [|y l IH]; cbn [insert_str]; [reflexivity|].
  destruct (str_leb x y); [reflexivity|].
  rewrite IH. apply perm_swap.
Qed.

Lemma sorted_str_perm (l : list str) : Permutation (sorted_str l) l.
Proof.
  induction l as [|x l IH]; cbn [sorted_str]; [reflexivity|].
  rewrite insert_str_perm. apply perm_skip, IH.
Qed.

Lemma insert_str_sorted (x : str) (l : list str) :
  StronglySorted (fun a b => str_leb a b = true) l ->
  StronglySorted (fun a b => str_leb a b = true) (insert_str x l).
Proof.
  induction 1 as [|y l Hs IH Hy]; cbn [insert_str].
  - repeat constructor.
  - destruct (str_leb x y) eqn:E.
    + constructor; [constructor; assumption|].
      constructor; [exact E|].
      rewrite Forall_forall in *. intros z Hz.
      apply (str_leb_trans x y z); [exact E|apply Hy, Hz].
    + constructor; [exact IH|].
      rewrite Forall_forall in *. intros z Hz.
      apply (Permutation_in _ (insert_str_perm x l)) in Hz.
      destruct Hz as [<-|Hz]; [apply str_leb_total, E|apply Hy, Hz].
Qed.

Lemma sorted_str_sorted (l : list str) :
  StronglySorted (fun a b => str_leb a b = true) (sorted_str l).
Proof.
  induction l as [|x l IH]; cbn [sorted_str]; [constructor|].
  apply insert_str_sorted, IH.
Qed.

Lemma StronglySorted_filter {A} (R : A -> A -> Prop) (p : A -> bool)
    (l : list A) :
  StronglySorted R l -> StronglySorted R (filter p l).
Proof.
  induction 1 as [|x l Hs IH Hx]; cbn [filter]; [constructor|].
  destruct (p x); [|exact IH]. constructor; [exact IH|].
  rewrite Forall_forall in *. intros y Hy. apply filter_In in Hy.
  apply Hx, Hy.
Qed.

(* ===================================================================== *)
(** * [iter_txt_files] *)
(* ===================================================================== *)

Lemma filter_perm {A} (p : A -> bool) (l l' : list A) :
  Permutation l l' -> Permutation (filter p l) (filter p l').
Proof.
  induction 1 as [|x l l' _ IH|x y l|l l' l'' _ IH1 _ IH2]; cbn [filter].
  - constructor.
  - destruct (p x); [apply perm_skip|]; exact IH.
  - destruct (p x), (p y); try reflexivity. apply perm_swap.
  - etransitivity; eassumption.
Qed.

Lemma iter_txt_files_dir (fs : FileSystem) (d : str) :
  iter_txt_files fs [d]
  = match fs d with
    | Some (Dir names) =>
        map (path_join d) (filter is_txt (sorted_str names))
    | _ => []
    end.
Proof.
  unfold iter_txt_files, isdir, listdir. cbn [flat_map]. rewrite app_nil_r.
  destruct (fs d) as [[names|text]|]; reflexivity.
Qed.

(** X11.  [iter_txt_files] yields, directory by directory in the order
    given, the paths [os.path.join(d, fn)] of the names [fn] of [d] that end
    in [.txt] in some letter case, in ascending order of the names; a path
    that is no directory is skipped. *)
Theorem iter_txt_files_yields (fs : FileSystem) :
  (forall dirs p,
     In p (iter_txt_files fs dirs)
     <-> exists d names fn,
           In d dirs /\ fs d = Some (Dir names) /\ In fn names
           /\ is_txt fn = true /\ p = path_join d fn)
  /\ (forall d, isdir fs d = false -> iter_txt_files fs [d] = [])
  /\ (forall d names, fs d = Some (Dir names) ->
        exists l,
          iter_txt_files fs [d] = map (path_join d) l
          /\ StronglySorted (fun a b => str_leb a b = true) l
          /\ Permutation l (filter is_txt names))
  /\ (forall dirs1 dirs2,
        iter_txt_files fs (dirs1 ++ dirs2)
        = iter_txt_files fs dirs1 ++ iter_txt_files fs dirs2).
Proof.
  split; [|split; [|split]].
  - intros dirs p. unfold iter_txt_files. rewrite in_flat_map. split.
    + intros (d & Hd & Hp). unfold isdir, listdir in Hp.
      destruct (fs d) as [[names|text]|] eqn:E; try contradiction.
      apply in_map_iff in Hp as (fn & <- & Hfn).
      apply filter_In in Hfn as [Hfn Ht].
      apply (Permutation_in _ (sorted_str_perm names)) in Hfn.
      exists d, names, fn. auto.
    + intros (d & names & fn & Hd & E & Hfn & Ht & ->).
      exists d. split; [exact Hd|]. unfold isdir, listdir. rewrite E.
      apply in_map, filter_In. split; [|exact Ht].
      apply (Permutation_in _ (Permutation_sym (sorted_str_perm names))), Hfn.
  - intros d H. rewrite iter_txt_files_dir. unfold isdir in H.
    destruct (fs d) as [[names|text]|]; try reflexivity. discriminate.
  - intros d names E. rewrite iter_txt_files_dir, E.
    exists (filter is_txt (sorted_str names)). split; [reflexivity|]. split.
    + apply StronglySorted_filter, sorted_str_sorted.
    + apply filter_perm, sorted_str_perm.
  - intros dirs1 dirs2. apply flat_map_app.
Qed.

Lemma iter_txt_files_yields_witness :
  iter_txt_files example_fs [lit "out"; lit "in"]
  = [lit "in/A.TXT"; lit "in/b.txt"].
Proof.
  destruct (iter_txt_files_yields example_fs) as (_ & H1 & _ & H2).
  change [lit "out"; lit "in"] with ([lit "out"] ++ [lit "in"]).
  rewrite (H2 [lit "out"] [lit "in"]), (H1 (lit "out")) by reflexivity.
  vm_compute. reflexivity.
Defined.

(* ===================================================================== *)
(** * [main] of [trace_evol.py]: the records *)
(* ===================================================================== *)

Lemma visit_usable (fs : FileSystem) (draws : nat -> nat) (label : str)
    (st : run_state) (c : Z) (p : str) :
  c < MAX_PER_CLASS -> usable fs p = true ->
  exists r text,
    read_text fs p = inr text
    /\ build_sharegpt (draws (drawn st)) (strip text) label = inr r
    /\ visit fs draws label (st, c) p
       = (mkRun (recs st ++ [r]) (S (drawn st)) (warned st), c + 1).
Proof.
  intros Hc Hu. unfold visit, usable in *.
  replace (MAX_PER_CLASS <=? c) with false by (symmetry; apply Z.leb_gt, Hc).
  destruct (read_text fs p) as [e|text]; [discriminate|].
  pose proof (build_sharegpt_cases (draws (drawn st)) (strip text) label) as H.
  destruct (TraceEvol.parse_trace_and_stats (strip text)); [discriminate|].
  eexists. exists text. split; [reflexivity|]. split; [exact H|].
  rewrite H. reflexivity.
Qed.

Lemma visit_unusable (fs : FileSystem) (draws : nat -> nat) (label : str)
    (st : run_state) (c : Z) (p : str) :
  c < MAX_PER_CLASS -> usable fs p = false ->
  visit fs draws label (st, c) p
  = (mkRun (recs st) (drawn st) (warned st ++ [p]), c).
Proof.
  intros Hc Hu. unfold visit, usable in *.
  replace (MAX_PER_CLASS <=? c) with false by (symmetry; apply Z.leb_gt, Hc).
  destruct (read_text fs p) as [e|text]; [reflexivity|].
  pose proof (build_sharegpt_cases (draws (drawn st)) (strip text) label) as H.
  destruct (TraceEvol.parse_trace_and_stats (strip text)); [|discriminate].
  rewrite H. reflexivity.
Qed.

Lemma visit_full (fs : FileSystem) (draws : nat -> nat) (label : str)
    (paths : list str) (st : run_state) :
  fold_left (visit fs draws label) paths (st, MAX_PER_CLASS)
  = (st, MAX_PER_CLASS).
Proof.
  induction paths as [|p paths IH]; [reflexivity|].
  cbn [fold_left]. unfold visit at 2. rewrite Z.leb_refl. exact IH.
Qed.

Lemma count_usable_cons (fs : FileSystem) (p : str) (paths : list str) :
  count_usable fs (p :: paths)
  = (if usable fs p then 1 else 0) + count_usable fs paths.
Proof.
  unfold count_usable, len. cbn [filter].
  destruct (usable fs p); cbn [length]; lia.
Qed.

Lemma filter_unusable_cons (fs : FileSystem) (p : str) (paths : list str) :
  filter (unusable fs) (p :: paths)
  = if usable fs p then filter (unusable fs) paths
    else p :: filter (unusable fs) paths.
Proof. cbn [filter]. unfold unusable at 1. destruct (usable fs p); reflexivity. Qed.

Lemma count_usable_nonneg (fs : FileSystem) (paths : list str) :
  0 <= count_usable fs paths.
Proof. unfold count_usable, len. lia. Qed.

Lemma visit_loop (fs : FileSystem) (draws : nat -> nat) (label : str)
    (paths : list str) : forall st c,
  0 <= c <= MAX_PER_CLASS ->
  exists new w,
    fold_left (visit fs draws label) paths (st, c)
    = (mkRun (recs st ++ new) (drawn st + length new) (warned st ++ w),
       Z.min MAX_PER_CLASS (c + count_usable fs paths))
    /\ len new = Z.min MAX_PER_CLASS (c + count_usable fs paths) - c
    /\ Forall (built_from fs label paths) new
    /\ incl w (filter (unusable fs) paths)
    /\ (c + count_usable fs paths < MAX_PER_CLASS ->
        w = filter (unusable fs) paths).
Proof.
  induction paths as [|p paths IH]; intros st c Hc.
  - exists [], []. rewrite !app_nil_r, Nat.add_0_r.
    change (count_usable fs []) with 0. rewrite Z.add_0_r.
    replace (Z.min MAX_PER_CLASS c) with c by lia.
    destruct st as [rs k ws]. cbn [recs drawn warned].
    split; [reflexivity|]. split; [unfold len; cbn [length]; lia|].
    split; [constructor|]. split; [intros x Hx; exact Hx|reflexivity].
  - destruct (Z.eq_dec c MAX_PER_CLASS) as [->|Hlt].
    { exists [], []. rewrite visit_full, !app_nil_r, Nat.add_0_r.
      pose proof (count_usable_nonneg fs (p :: paths)).
      replace (Z.min _ _) with MAX_PER_CLASS by lia.
      destruct st as [rs k ws]. cbn [recs drawn warned].
      split; [reflexivity|]. split; [unfold len; cbn [length]; lia|].
      split; [constructor|]. split; [intros x Hx; contradiction|lia]. }
    assert (c < MAX_PER_CLASS) as Hc' by lia.
    cbn [fold_left]. rewrite count_usable_cons.
    destruct (usable fs p) eqn:Hu.
    + destruct (visit_usable fs draws label st c p Hc' Hu)
        as (r & text & Hread & Hbuild & ->).
      destruct (IH (mkRun (recs st ++ [r]) (S (drawn st)) (warned st)) (c + 1))
        as (new & w & -> & Hlen & Hall & Hincl & Hw); [lia|].
      cbn [recs drawn warned] in *.
      exists (r :: new), w. rewrite <- app_assoc. cbn [app length].
      replace (S (drawn st) + length new)%nat
        with (drawn st + S (length new))%nat by lia.
      replace (c + 1 + count_usable fs paths)
        with (c + (1 + count_usable fs paths)) in * by lia.
      split; [reflexivity|]. split.
      { unfold len in *. cbn [length]. lia. }
      split.
      { constructor.
        - exists (draws (drawn st)), p, text. split; [left; reflexivity|auto].
        - eapply Forall_impl; [|exact Hall].
          intros x (ch & q & t & Hq & H1 & H2).
          exists ch, q, t. split; [right; exact Hq|auto]. }
      rewrite filter_unusable_cons, Hu. split; assumption.
    + rewrite (visit_unusable fs draws label st c p Hc' Hu).
      destruct (IH (mkRun (recs st) (drawn st) (warned st ++ [p])) c)
        as (new & w & -> & Hlen & Hall & Hincl & Hw); [lia|].
      cbn [recs drawn warned] in *.
      exists new, (p :: w). rewrite <- app_assoc. cbn [app].
      rewrite Z.add_0_l in *.
      split; [reflexivity|]. split; [exact Hlen|]. split.
      { eapply Forall_impl; [|exact Hall].
        intros x (ch & q & t & Hq & H1 & H2).
        exists ch, q, t. split; [right; exact Hq|auto]. }
      rewrite filter_unusable_cons, Hu. split.
      * intros x [<-|Hx]; [left; reflexivity|right; apply Hincl, Hx].
      * intros H. rewrite (Hw H). reflexivity.
Qed.

(** X12.  One class of [main]: the records that are added are at most
    [MAX_PER_CLASS], exactly the smaller of 500 and the number of files that
    can be read and parsed; each comes from such a file and carries the label
    of the class; one random choice is drawn per record; a file that cannot
    be read or parsed is skipped with a warning and does not count, and when
    fewer than 500 files are usable every other file is warned about. *)
Theorem class_is_capped (fs : FileSystem) (draws : nat -> nat)
    (st : run_state) (label : str) (dirs : list str) :
  let paths := iter_txt_files fs dirs in
  let st' := collect_label fs draws st (label, dirs) in
  exists new w,
    recs st' = recs st ++ new
    /\ len new = Z.min MAX_PER_CLASS (count_usable fs paths)
    /\ Forall (built_from fs label paths) new
    /\ drawn st' = (drawn st + length new)%nat
    /\ warned st' = warned st ++ w
    /\ incl w (filter (unusable fs) paths)
    /\ (count_usable fs paths < MAX_PER_CLASS ->
        w = filter (unusable fs) paths).
Proof.
  intros paths st'. subst st' paths. unfold collect_label.
  destruct (visit_loop fs draws label (iter_txt_files fs dirs) st 0)
    as (new & w & -> & Hlen & Hall & Hincl & Hw); [unfold MAX_PER_CLASS; lia|].
  cbn [fst recs drawn warned]. exists new, w.
  rewrite Z.add_0_l, Z.sub_0_r in *. repeat split; assumption.
Qed.

Lemma class_is_capped_witness :
  exists r,
    recs (collect_label example_fs (fun _ => O) (mkRun [] O [])
                        (lit "异常", [lit "in"])) = [r]
    /\ warned (collect_label example_fs (fun _ => O) (mkRun [] O [])
                             (lit "异常", [lit "in"])) = [lit "in/b.txt"].
Proof.
  destruct (class_is_capped example_fs (fun _ => O) (mkRun [] O [])
              (lit "异常") [lit "in"])
    as (new & w & H1 & H2 & _ & _ & H3 & _ & H4).
  rewrite H1, H3. cbn [recs warned app].
  rewrite H4 by (vm_compute; reflexivity).
  replace (Z.min MAX_PER_CLASS
             (count_usable example_fs (iter_txt_files example_fs [lit "in"])))
    with 1 in H2 by (vm_compute; reflexivity).
  destruct new as [|r [|r' new]]; try discriminate H2.
  - exists r. split; [reflexivity|]. vm_compute. reflexivity.
  - exfalso. unfold len in H2. cbn [length] in H2. lia.
Defined.

Lemma built_well_ended (choice : nat) (txt label : str) (r : sharegpt) :
  build_sharegpt choice txt label = inr r -> well_ended r.
Proof.
  intros H. pose proof (build_sharegpt_cases choice txt label) as Hc.
  destruct (TraceEvol.parse_trace_and_stats txt) as [e|st]; [congruence|].
  rewrite Hc in H. injection H as <-.
  destruct (explanation_verdict st label) as (body & Hb).
  exists (explanation st label). split; [reflexivity|].
  rewrite Hb. apply valid_ending_verdict.
Qed.

Lemma collect_label_well_ended (fs : FileSystem) (draws : nat -> nat)
    (st : run_state) (item : str * list str) :
  Forall well_ended (recs st) ->
  Forall well_ended (recs (collect_label fs draws st item)).
Proof.
  intros H. destruct item as [label dirs]. unfold collect_label.
  destruct (visit_loop fs draws label (iter_txt_files fs dirs) st 0)
    as (new & w & -> & _ & Hall & _); [unfold MAX_PER_CLASS; lia|].
  cbn [fst recs]. apply Forall_app. split; [exact H|].
  eapply Forall_impl; [|exact Hall].
  intros r (ch & p & t & _ & _ & Hb). exact (built_well_ended _ _ _ _ Hb).
Qed.

Lemma collect_well_ended (fs : FileSystem) (draws : nat -> nat)
    (input_dirs : list (str * list str)) :
  Forall well_ended (recs (collect fs draws input_dirs)).
Proof.
  unfold collect.
  assert (Forall well_ended (recs (mkRun [] O []))) as H by constructor.
  revert H. generalize (mkRun [] O []).
  induction input_dirs as [|item items IH]; intros st H; [exact H|].
  cbn [fold_left]. apply IH, collect_label_well_ended, H.
Qed.

Lemma count_valid_from (rs : list sharegpt) : forall n,
  Forall well_ended rs ->
  fold_left
    (fun acc r =>
       valid_endings <- acc ;;
       output_text <- last_value r ;;
       ret (if valid_ending output_text
            then valid_endings + 1 else valid_endings))
    rs (ret n)
  = ret (n + len rs).
Proof.
  induction rs as [|r rs IH]; intros n H.
  - cbn [fold_left]. unfold len. cbn [length]. rewrite Z.add_0_r. reflexivity.
  - inversion H as [|? ? (v & Hv & Hok) Hrest]; subst.
    cbn [fold_left]. unfold ret at 2. cbn [bind]. rewrite Hv. cbn [bind].
    rewrite Hok. fold (@ret Z (n + 1)). rewrite (IH _ Hrest).
    unfold len. cbn [length]. f_equal. lia.
Qed.

(** X13.  The count of valid endings that [main] prints is always the
    number of records: every record that the first loop collects passes the
    test of the last loop, in whatever order [random.shuffle] leaves
    them. *)
Theorem valid_count_is_total (fs : FileSystem) (draws : nat -> nat)
    (input_dirs : list (str * list str)) (shuffled : list sharegpt) :
  Permutation shuffled (recs (collect fs draws input_dirs)) ->
  count_valid shuffled = inr (len shuffled).
Proof.
  intros Hp. unfold count_valid. rewrite count_valid_from; [reflexivity|].
  eapply Permutation_Forall; [apply Permutation_sym, Hp|].
  apply collect_well_ended.
Qed.

Lemma valid_count_is_total_witness :
  count_valid (recs (collect example_fs (fun _ => O)
                             [(lit "异常", [lit "in"])]))
  = inr (len (recs (collect example_fs (fun _ => O)
                            [(lit "异常", [lit "in"])]))).
Proof.
  apply (valid_count_is_total example_fs (fun _ => O)
           [(lit "异常", [lit "in"])]).
  apply Permutation_refl.
Defined.

(* ===================================================================== *)
(** * [main] of [build_balanced_testset.py] *)
(* ===================================================================== *)






Lemma add_samples_none (fs : FileSystem) (label : str) (st : balanced_state) :
  fold_left (add_sample fs label) [] st = st.
Proof. reflexivity. Qed.






(* ===================================================================== *)
(** * The name of a file *)
(* ===================================================================== *)

Lemma until_slash_app (a b : str) :
  contains a (lit "/") = false ->
  until_slash (a ++ "/"%char :: b) = a.
Proof.
  induction a as [|c a IH]; intros H.
  - reflexivity.
  - cbn [contains startswith lit list_ascii_of_string] in H.
    apply orb_false_iff in H as [H1 H2].
    rewrite andb_true_r in H1. cbn [app until_slash].
    rewrite Ascii.eqb_sym, H1. f_equal. apply IH, H2.
Qed.

Lemma until_slash_all (a : str) :
  contains a (lit "/") = false -> until_slash a = a.
Proof.
  induction a as [|c a IH]; intros H; [reflexivity|].
  cbn [contains startswith lit list_ascii_of_string] in H.
  apply orb_false_iff in H as [H1 H2].
  rewrite andb_true_r in H1. cbn [until_slash].
  rewrite Ascii.eqb_sym, H1. f_equal. apply IH, H2.
Qed.

Lemma contains_slash_rev (a : str) :
  contains (rev a) (lit "/") = contains a (lit "/").
Proof.
  assert (forall s, contains s (lit "/") = existsb (Ascii.eqb "/"%char) s) as E.
  { change (lit "/") with ["/"%char].
    induction s as [|c s IH]; [reflexivity|].
    cbn [contains startswith existsb].
    rewrite andb_true_r, IH. reflexivity. }
  rewrite !E.
  destruct (existsb (Ascii.eqb "/"%char) a) eqn:Ea.
  - apply existsb_exists in Ea as (x & Hx & Hp).
    apply existsb_exists. exists x. split; [apply in_rev in Hx; exact Hx|exact Hp].
  - destruct (existsb (Ascii.eqb "/"%char) (rev a)) eqn:Er; [|reflexivity].
    apply existsb_exists in Er as (x & Hx & Hp). apply in_rev in Hx.
    assert (existsb (Ascii.eqb "/"%char) a = true) as K
      by (apply existsb_exists; exists x; auto).
    congruence.
Qed.

(** X15.  The sample of the file [fn] of the directory [d] (a name
    holds no slash) has [fn] as its [id], the label of its class, the
    system prompt as instruction and an empty output, and its input is the
    text that [parse_trace_and_stats] returns for the stripped text of the
    file, between the two marker lines and before the request. *)
Theorem sample_of_file (fs : FileSystem) (label_name d fn : str) (s : sample) :
  contains fn (lit "/") = false ->
  make_sample fs label_name (path_join d fn) = Some s ->
  s_id s = fn /\ s_label s = label_name
  /\ s_instruction s = SYSTEM_PROMPT /\ s_output s = []
  /\ exists text cooked,
       read_text fs (path_join d fn) = inr text
       /\ BalancedTestset.parse_trace_and_stats (strip text) = inr cooked
       /\ s_input s = input_text cooked.
Proof.
  intros Hfn H. unfold make_sample in H.
  destruct (read_text fs (path_join d fn)) as [e|text] eqn:Er; [discriminate|].
  destruct (BalancedTestset.parse_trace_and_stats (strip text))
    as [e|cooked] eqn:Ep; [discriminate|].
  injection H as <-. cbn [s_id s_label s_instruction s_output s_input].
  split; [|repeat split; exists text, cooked; auto].
  unfold basename, path_join.
  assert (startswith fn (lit "/") = false) as Hs.
  { destruct (startswith fn (lit "/")) eqn:E; [|reflexivity].
    apply contains_startswith in E. congruence. }
  rewrite Hs.
  assert (until_slash (rev fn) = rev fn) as Hu
    by (apply until_slash_all; rewrite contains_slash_rev; exact Hfn).
  destruct (negb (nonempty d) || endswith d (lit "/")) eqn:Ed.
  - apply orb_true_iff in Ed as [Ed|Ed].
    + destruct d; [|discriminate]. cbn [app]. rewrite Hu. apply rev_involutive.
    + unfold endswith in Ed. cbn [lit list_ascii_of_string rev app] in Ed.
      rewrite rev_app_distr.
      destruct (rev d) as [|c rd] eqn:Erd; [discriminate|].
      cbn [startswith] in Ed. rewrite andb_true_r in Ed.
      apply Ascii.eqb_eq in Ed. subst c.
      rewrite until_slash_app
        by (rewrite contains_slash_rev; exact Hfn).
      apply rev_involutive.
  - rewrite !rev_app_distr. cbn [lit list_ascii_of_string rev app].
    rewrite <- app_assoc. cbn [app].
    rewrite until_slash_app by (rewrite contains_slash_rev; exact Hfn).
    apply rev_involutive.
Qed.

Lemma sample_of_file_witness : s_id example_sample = lit "A.TXT".
Proof.
  apply (sample_of_file example_fs (lit "异常") (lit "in") (lit "A.TXT")
           example_sample).
  - reflexivity.
  - vm_compute. reflexivity.
Defined.
